(** * gcp-access-visualizer: the access-matrix core of the backend

    A shallow embedding of the Go package [internal/gcp]: the principal
    directory ([GetUsers], [parseUser]), the resource inventory
    (resources.go: [GetResources] and its three listings) and the access
    matrix ([GetAccessMatrix]: the loop over the policy search, the
    inheritance step and the final grouping, with the identifier helpers),
    followed by the properties the specification states about them.

    Go strings are byte strings: [string] (a list of 8-bit characters) with
    byte-indexed slicing.  Go maps are [gmap string _]; a [range] over a map
    visits its entries in an order the language leaves open, which is an
    explicit parameter here ([RangeOrder]).  Calls to the cloud APIs are
    replaced by their outcomes, collected in a [World] record.  A Go result
    [(value, error)] is a pair whose second component is [None] for a nil
    error; a nil slice is the empty list and a nil pointer is [None]. *)

From Stdlib Require Import String Ascii NArith DecimalString DecimalN DecimalPos.
From stdpp Require Import gmap strings list fin_maps.

Open Scope string_scope.
Open Scope list_scope.
Open Scope stdpp_scope.

(** ** Strings: the functions of Go's [strings] package that the code uses *)

Module Strings.

(** [s[:n]] and [s[n:]] for [n <= len(s)] (every slice in the code is
    guarded by a length test). *)
Fixpoint take (n : nat) (s : string) : string :=
  match n, s with
  | S k, String c s' => String c (take k s')
  | _, _ => EmptyString
  end.

Fixpoint drop (n : nat) (s : string) : string :=
  match n, s with
  | S k, String _ s' => drop k s'
  | _, _ => s
  end.

(** [strings.HasPrefix(s, p)] *)
Definition HasPrefix (s p : string) : bool := String.prefix p s.

(** [strings.Contains(s, sub)]: [sub] starts at some position of [s]. *)
Fixpoint Contains (s sub : string) : bool :=
  HasPrefix s sub ||
  match s with
  | EmptyString => false
  | String _ s' => Contains s' sub
  end.

(** [strings.Split(s, sep)] for a non-empty [sep]: the pieces between the
    occurrences of [sep], found left to right without overlap.  [skip]
    counts the bytes of a separator still to be passed over, [cur] is the
    piece being read. *)
Fixpoint splitFrom (sep : string) (skip : nat) (cur s : string) : list string :=
  match s with
  | EmptyString => [cur]
  | String c s' =>
      match skip with
      | S k => splitFrom sep k cur s'
      | O =>
          if HasPrefix s sep
          then cur :: splitFrom sep (String.length sep - 1) EmptyString s'
          else splitFrom sep 0 (cur +:+ String c EmptyString) s'
      end
  end.

Definition Split (s sep : string) : list string := splitFrom sep 0 EmptyString s.

(** [fmt.Sprintf("%d", n)] for an unsigned integer. *)
Definition itoa (n : N) : string := NilEmpty.string_of_uint (N.to_uint n).

End Strings.

Import Strings.

(** ** Principals: [parseUser] *)

(** A principal.  [UType] is the Go field [Type] ("user", "serviceAccount",
    "group", "domain" or "other"). *)
Record User := mkUser { Email : string; UType : string }.

#[global] Instance User_eq_dec : EqDecision User.
Proof. solve_decision. Defined.

(** [parseUser]: the [switch] tries the four known prefixes in order; each
    case asks for a member strictly longer than the prefix. *)
Definition parseUser (member : string) : User :=
  if bool_decide (5 < String.length member) && String.eqb (take 5 member) "user:"
  then {| Email := drop 5 member; UType := "user" |}
  else if bool_decide (15 < String.length member)
          && String.eqb (take 15 member) "serviceAccount:"
  then {| Email := drop 15 member; UType := "serviceAccount" |}
  else if bool_decide (6 < String.length member) && String.eqb (take 6 member) "group:"
  then {| Email := drop 6 member; UType := "group" |}
  else if bool_decide (7 < String.length member) && String.eqb (take 7 member) "domain:"
  then {| Email := drop 7 member; UType := "domain" |}
  else {| Email := member; UType := "other" |}.

(** ** Outcomes of the cloud API calls *)

(** An iterator yields its items and then either [iterator.Done] or an
    error. *)
Inductive IterEnd := Done | Failed (err : string).

Record Binding := mkBinding { Role : string; Members : list string }.

Record Cluster := mkCluster
  { SelfLink : string; ClusterName : string; ClusterLocation : string }.

Record Instance := mkInstance { InstanceId : N; InstanceName : string }.

Record Service := mkService { ServiceName : string }.

(** One result of the policy search that carries its policy: the asset name
    and the bindings.  (A result as the iterator hands it over, whose policy
    may be nil, is a [Delivered.SearchResult] below.) *)
Record IamPolicySearchResult := mkPolicy
  { PolicyResource : string; PolicyBindings : list Binding }.

(** What each call of one run returns: [inl err] is a failed call, a
    [GetIamPolicy] that succeeds may still return a nil policy ([None]). *)
Record World := mkWorld
  { ProjectID : string;
    ProjectPolicy : string + list Binding;
    ListClusters : string + list Cluster;
    ListInstances : string -> list Instance * IterEnd;
    ComputeGetIamPolicy : string -> string -> string + option (list Binding);
    ListServices : list Service * IterEnd;
    RunGetIamPolicy : string -> string + option (list Binding);
    NewAssetClient : option string;
    SearchAllIamPolicies : list IamPolicySearchResult * IterEnd }.

(** The order in which a [range] over a map visits the entries.  [lbl] names
    the loop (and, for a nested loop, the iteration of the enclosing ones),
    so that two loops over one map need not agree. *)
Definition RangeOrder : Type :=
  forall A : Type, list string -> gmap string A -> list (string * A).

Definition range_ok (o : RangeOrder) : Prop :=
  forall (A : Type) (lbl : list string) (m : gmap string A),
    o A lbl m ≡ₚ map_to_list m.

(** Two orders: by key, and the reverse. *)
Definition keyOrder : RangeOrder := fun A _ m => map_to_list m.

Definition revOrder : RangeOrder := fun A _ m => reverse (map_to_list m).

(** ** The principal directory: [GetUsers] *)

(** The members of the project policy, one entry per member string. *)
Definition addMember (usersMap : gmap string User) (member : string)
  : gmap string User :=
  match usersMap !! member with
  | Some _ => usersMap
  | None => <[member := parseUser member]> usersMap
  end.

Definition collectMembers (bindings : list Binding) : gmap string User :=
  foldl (fun usersMap b => foldl addMember usersMap (Members b)) ∅ bindings.

Definition GetUsers (o : RangeOrder) (w : World) : list User * option string :=
  match ProjectPolicy w with
  | inl err => ([], Some ("failed to get IAM policy: " +:+ err))
  | inr bindings => ((o _ ["GetUsers"] (collectMembers bindings)).*2, None)
  end.

(** ** The inventory: resources.go *)

(** [RType] is the Go field [Type]; [IAM] maps a role to its members. *)
Record Resource := mkResource
  { ID : string; Name : string; RType : string; Location : string;
    IAM : gmap string (list string) }.

#[global] Instance Resource_eq_dec : EqDecision Resource.
Proof. solve_decision. Defined.

Definition extractLocation (name : string) : string := "us-central1".

(** [resource.IAM[binding.Role] = binding.Members] for every binding. *)
Definition setBindings (iam : gmap string (list string)) (bindings : list Binding)
  : gmap string (list string) :=
  foldl (fun iam b => <[Role b := Members b]> iam) iam bindings.

Definition enrich (policy : string + option (list Binding))
  : gmap string (list string) :=
  match policy with
  | inr (Some bindings) => setBindings ∅ bindings
  | _ => ∅
  end.

Definition getGKEClusters (w : World) : list Resource * option string :=
  match ListClusters w with
  | inl err => ([], Some err)
  | inr clusters =>
      (map (fun cluster =>
              {| ID := SelfLink cluster; Name := ClusterName cluster;
                 RType := "gke"; Location := ClusterLocation cluster;
                 IAM := {[ "inherited" := ["project-level"] ]} |}) clusters,
       None)
  end.

Definition zones : list string :=
  ["us-central1-a"; "us-central1-b"; "us-east1-b"; "us-west1-a"; "europe-west1-b"].

(** The record that [getVMs] builds for an instance of a zone. *)
Definition vmResource (w : World) (zone : string) (instance : Instance) : Resource :=
  {| ID := itoa (InstanceId instance); Name := InstanceName instance;
     RType := "vm"; Location := zone;
     IAM := enrich (ComputeGetIamPolicy w zone (InstanceName instance)) |}.

(** An error of a zone's iterator ends that zone only: the instances it
    yielded before are kept and the next zone is listed. *)
Definition zoneVMs (w : World) (zone : string) : list Resource :=
  map (vmResource w zone) (ListInstances w zone).1.

Definition getVMs (w : World) : list Resource * option string :=
  (foldl (fun resources zone => resources ++ zoneVMs w zone) [] zones, None).

Definition getCloudRunServices (w : World) : list Resource * option string :=
  match ListServices w with
  | (_, Failed err) => ([], Some err)
  | (services, Done) =>
      (map (fun service =>
              {| ID := ServiceName service; Name := ServiceName service;
                 RType := "cloudrun";
                 Location := extractLocation (ServiceName service);
                 IAM := enrich (RunGetIamPolicy w (ServiceName service)) |}) services,
       None)
  end.

(** [GetResources]: the three listings in turn; the first error returns. *)
Definition GetResources (w : World) : list Resource * option string :=
  match getGKEClusters w with
  | (_, Some err) => ([], Some ("failed to get GKE clusters: " +:+ err))
  | (gkeClusters, None) =>
      match getVMs w with
      | (_, Some err) => ([], Some ("failed to get VMs: " +:+ err))
      | (vms, None) =>
          match getCloudRunServices w with
          | (_, Some err) => ([], Some ("failed to get Cloud Run services: " +:+ err))
          | (cloudRunServices, None) =>
              (gkeClusters ++ vms ++ cloudRunServices, None)
          end
      end
  end.

(** ** The access matrix: [GetAccessMatrix] and its helpers *)

Record AccessEntry := mkAccessEntry
  { UserEmail : string; ResourceID : string; ResourceName : string;
    ResourceType : string; Roles : list string }.

#[global] Instance AccessEntry_eq_dec : EqDecision AccessEntry.
Proof. solve_decision. Defined.

Record AccessMatrix := mkAccessMatrix
  { Users : list User; Resources : list Resource; Access : list AccessEntry }.

(** [extractResourceName]: the last piece of the identifier cut at "/". *)
Definition extractResourceName (resourceID : string) : string :=
  match last (Split resourceID "/") with
  | Some name => name
  | None => resourceID
  end.

(** [extractResourceType]: the chain of [strings.Contains] tests, then the
    first label of the host of a "//host/..." identifier. *)
Definition extractResourceType (resourceID : string) : string :=
  if Contains resourceID "cloudresourcemanager.googleapis.com/projects" then "project"
  else if Contains resourceID "cloudresourcemanager.googleapis.com/organizations"
  then "organization"
  else if Contains resourceID "compute.googleapis.com" then "vm"
  else if Contains resourceID "container.googleapis.com" then "gke"
  else if Contains resourceID "run.googleapis.com" then "cloudrun"
  else if Contains resourceID "storage.googleapis.com" then "storage"
  else if Contains resourceID "bigquery.googleapis.com" then "bigquery"
  else if Contains resourceID "iam.googleapis.com" then "serviceaccount"
  else if HasPrefix resourceID "//" then
    match Split (drop 2 resourceID) "/" with
    | part0 :: _ =>
        match Split part0 "." with
        | service :: _ => service
        | [] => "other"
        end
    | [] => "other"
    end
  else "other".

Definition allTypes : list string :=
  ["storage"; "vm"; "gke"; "cloudrun"; "bigquery"; "project"; "serviceaccount"].

Definition getApplicableResourceTypes (role : string) : list string :=
  if Contains role "roles/owner" || Contains role "roles/editor"
     || Contains role "roles/viewer"
  then allTypes
  else if Contains role "roles/storage." then ["storage"]
  else if Contains role "roles/compute." then ["vm"]
  else if Contains role "roles/container." then ["gke"]
  else if Contains role "roles/run." then ["cloudrun"]
  else if Contains role "roles/bigquery." then ["bigquery"]
  else if Contains role "roles/iam." then ["serviceaccount"]
  else [].

Fixpoint contains (slice : list string) (item : string) : bool :=
  match slice with
  | [] => false
  | s :: rest => if decide (s = item) then true else contains rest item
  end.

(** The keys of [accessMap] and of [userResourceRoles]. *)
Definition accessKey (userEmail resourceID role : string) : string :=
  userEmail +:+ "::" +:+ resourceID +:+ "::" +:+ role.

Definition pairKey (userEmail resourceID : string) : string :=
  userEmail +:+ "::" +:+ resourceID.

(** [entry.Roles[0]]; every entry placed in [accessMap] has exactly one
    role. *)
Definition role0 (entry : AccessEntry) : string := default "" (head (Roles entry)).

(** [m[k]] for a key that may be missing: the zero value. *)
Definition isValid (validUsers : gmap string bool) (email : string) : bool :=
  default false (validUsers !! email).

Definition rolesOf (m : gmap string (list string)) (key : string) : list string :=
  default [] (m !! key).

(** *** The loop over the policy search *)

Record Reducer := mkReducer
  { users : list User;
    validUsers : gmap string bool;
    resourcesMap : gmap string Resource;
    accessMap : gmap string AccessEntry }.

Definition trackResource (resourceID : string) (resourcesMap : gmap string Resource)
  : gmap string Resource :=
  match resourcesMap !! resourceID with
  | Some _ => resourcesMap
  | None =>
      <[resourceID := {| ID := resourceID;
                         Name := extractResourceName resourceID;
                         RType := extractResourceType resourceID;
                         Location := "global";
                         IAM := ∅ |}]> resourcesMap
  end.

Definition recordAccess (resourceID role : string) (user : User)
    (accessMap : gmap string AccessEntry) : gmap string AccessEntry :=
  let key := accessKey (Email user) resourceID role in
  match accessMap !! key with
  | Some _ => accessMap
  | None =>
      <[key := {| UserEmail := Email user; ResourceID := resourceID;
                  ResourceName := extractResourceName resourceID;
                  ResourceType := extractResourceType resourceID;
                  Roles := [role] |}]> accessMap
  end.

Definition addBindingMember (resourceID role : string) (st : Reducer)
    (member : string) : Reducer :=
  let user := parseUser member in
  let known := isValid (validUsers st) (Email user) in
  {| users := if known then users st else users st ++ [user];
     validUsers := if known then validUsers st
                   else <[Email user := true]> (validUsers st);
     resourcesMap := resourcesMap st;
     accessMap := recordAccess resourceID role user (accessMap st) |}.

Definition processPolicy (st : Reducer) (policy : IamPolicySearchResult) : Reducer :=
  let resourceID := PolicyResource policy in
  let st1 := {| users := users st; validUsers := validUsers st;
                resourcesMap := trackResource resourceID (resourcesMap st);
                accessMap := accessMap st |} in
  foldl (fun st binding =>
           foldl (addBindingMember resourceID (Role binding)) st (Members binding))
        st1 (PolicyBindings policy).

(** *** Step 2: inherited permissions *)

Definition projectResource (projectID : string) : string :=
  "//cloudresourcemanager.googleapis.com/projects/" +:+ projectID.

Definition collectProjectAccess (projectResourceID : string)
    (entries : list (string * AccessEntry)) : gmap string (list string) :=
  foldl (fun byUser kv =>
           let entry := kv.2 in
           if decide (ResourceID entry = projectResourceID)
           then <[UserEmail entry :=
                    rolesOf byUser (UserEmail entry) ++ [role0 entry]]> byUser
           else byUser)
        ∅ entries.

Definition inheritedEntry (userEmail role resourceID : string) (resource : Resource)
  : AccessEntry :=
  {| UserEmail := userEmail; ResourceID := resourceID;
     ResourceName := Name resource; ResourceType := RType resource;
     Roles := [role] |}.

(** The body of the innermost loop, for one resource. *)
Definition inheritOne (projectResourceID userEmail role : string)
    (accessMap : gmap string AccessEntry) (kv : string * Resource)
  : gmap string AccessEntry :=
  let resourceID := kv.1 in
  let resource := kv.2 in
  if decide (resourceID = projectResourceID) then accessMap
  else if contains (getApplicableResourceTypes role) (RType resource) then
    let key := accessKey userEmail resourceID role in
    match accessMap !! key with
    | Some _ => accessMap
    | None => <[key := inheritedEntry userEmail role resourceID resource]> accessMap
    end
  else accessMap.

Definition inheritRole (o : RangeOrder) (projectResourceID : string)
    (resourcesMap : gmap string Resource) (userEmail : string)
    (accessMap : gmap string AccessEntry) (role : string) : gmap string AccessEntry :=
  foldl (inheritOne projectResourceID userEmail role) accessMap
        (o _ ["resources"; userEmail; role] resourcesMap).

Definition inheritUser (o : RangeOrder) (projectResourceID : string)
    (resourcesMap : gmap string Resource)
    (accessMap : gmap string AccessEntry) (kv : string * list string)
  : gmap string AccessEntry :=
  foldl (inheritRole o projectResourceID resourcesMap kv.1) accessMap kv.2.

Definition resolveInherited (o : RangeOrder) (projectResourceID : string)
    (projectAccessByUser : gmap string (list string))
    (resourcesMap : gmap string Resource)
    (accessMap : gmap string AccessEntry) : gmap string AccessEntry :=
  foldl (inheritUser o projectResourceID resourcesMap) accessMap
        (o _ ["projectAccessByUser"] projectAccessByUser).

(** *** Grouping and the result *)

Definition groupRoles (entries : list (string * AccessEntry))
  : gmap string (list string) :=
  foldl (fun userResourceRoles kv =>
           let entry := kv.2 in
           let key := pairKey (UserEmail entry) (ResourceID entry) in
           <[key := rolesOf userResourceRoles key ++ [role0 entry]]> userResourceRoles)
        ∅ entries.

Definition emitEntry (resourcesMap : gmap string Resource)
    (accessEntries : list AccessEntry) (kv : string * list string)
  : list AccessEntry :=
  match Split kv.1 "::" with
  | [userEmail; resourceID] =>
      match resourcesMap !! resourceID with
      | Some resource =>
          accessEntries ++
          [ {| UserEmail := userEmail; ResourceID := resourceID;
               ResourceName := Name resource; ResourceType := RType resource;
               Roles := kv.2 |} ]
      | None => accessEntries
      end
  | _ => accessEntries
  end.

(** The inventory stage: the known resources by id, or nothing at all when
    [GetResources] reports an error (a warning is printed). *)
Definition knownResourcesMap (w : World) : gmap string Resource :=
  match GetResources w with
  | (knownResources, None) =>
      foldl (fun resourcesMap res => <[ID res := res]> resourcesMap) ∅ knownResources
  | (_, Some _) => ∅
  end.

Definition initReducer (w : World) (users0 : list User) : Reducer :=
  {| users := users0;
     validUsers := foldl (fun valid user => <[Email user := true]> valid) ∅ users0;
     resourcesMap := knownResourcesMap w;
     accessMap := ∅ |}.

(** Step 2 as [GetAccessMatrix] runs it: the project-level grants are read
    off the access map, then propagated. *)
Definition inheritedAccessMap (o : RangeOrder) (w : World) (st : Reducer)
  : gmap string AccessEntry :=
  let projectResourceID := projectResource (ProjectID w) in
  let projectAccessByUser :=
    collectProjectAccess projectResourceID
                         (o _ ["accessMap"; "project"] (accessMap st)) in
  resolveInherited o projectResourceID projectAccessByUser
                   (resourcesMap st) (accessMap st).

(** Everything after the policy loop. *)
Definition assemble (o : RangeOrder) (w : World) (st : Reducer) : AccessMatrix :=
  let accessMap' := inheritedAccessMap o w st in
  let resources := (o _ ["resourcesMap"] (resourcesMap st)).*2 in
  let userResourceRoles := groupRoles (o _ ["accessMap"; "group"] accessMap') in
  let accessEntries :=
    foldl (emitEntry (resourcesMap st)) []
          (o _ ["userResourceRoles"] userResourceRoles) in
  {| Users := users st; Resources := resources; Access := accessEntries |}.

(** [GetAccessMatrix] returns a pointer and an error: [(None, Some err)] is
    Go's [nil, err]. *)
Definition GetAccessMatrix (o : RangeOrder) (w : World)
  : option AccessMatrix * option string :=
  match GetUsers o w with
  | (_, Some err) => (None, Some err)
  | (users0, None) =>
      match NewAssetClient w with
      | Some err => (None, Some ("failed to create asset client: " +:+ err))
      | None =>
          (* the loop only changes its own state, which a failure discards *)
          let st0 := initReducer w users0 in
          let st := foldl processPolicy st0 (SearchAllIamPolicies w).1 in
          match (SearchAllIamPolicies w).2 with
          | Failed err => (None, Some ("failed to iterate policies: " +:+ err))
          | Done => (Some (assemble o w st), None)
          end
      end
  end.

(** * Notions used in the statements *)

(** ** The access map before and after the inheritance step *)

(** An entry is stored under the key of its own principal, resource and
    role. *)
Definition ownKey (key : string) (entry : AccessEntry) : Prop :=
  key = accessKey (UserEmail entry) (ResourceID entry) (role0 entry) ∧
  Roles entry = [role0 entry].

(** What a run of the step may have done to [before]: entries that were
    there are untouched, and an entry that was not there sits under its own
    key, names one of the [holders] of a project-level grant and is not on
    the project itself. *)
Definition extends (projectResourceID : string) (holders : list string)
    (before after : gmap string AccessEntry) : Prop :=
  ∀ key entry,
    after !! key = Some entry →
    before !! key = Some entry ∨
    (before !! key = None ∧ ownKey key entry ∧ UserEmail entry ∈ holders ∧
     ResourceID entry ≠ projectResourceID).

Definition keeps (before after : gmap string AccessEntry) : Prop :=
  ∀ key entry, before !! key = Some entry → after !! key = Some entry.

(** [covered]: every grant that the inheritance step would consider for a
    resource already has an entry under its key. *)
Definition covered (projectResourceID : string)
    (projectAccessByUser : gmap string (list string))
    (resourcesMap : gmap string Resource)
    (accessMap : gmap string AccessEntry) : Prop :=
  ∀ userEmail roles role resourceID resource,
    projectAccessByUser !! userEmail = Some roles →
    role ∈ roles →
    resourcesMap !! resourceID = Some resource →
    resourceID ≠ projectResourceID →
    contains (getApplicableResourceTypes role) (RType resource) = true →
    is_Some (accessMap !! accessKey userEmail resourceID role).

(** ** The principal list *)

(** The member string a principal was parsed from. *)
Definition memberOf (user : User) : string :=
  (if decide (UType user = "user") then "user:"
   else if decide (UType user = "serviceAccount") then "serviceAccount:"
   else if decide (UType user = "group") then "group:"
   else if decide (UType user = "domain") then "domain:"
   else "") +:+ Email user.

(** What the policy loop maintains about the principal list: [validUsers]
    holds exactly the identifiers of [users]; the principals appended to the
    initial ones have pairwise distinct identifiers, none of them an
    identifier of an initial one; and every access entry names a listed
    principal. *)
Definition usersInv (users0 : list User) (st : Reducer) : Prop :=
  (∀ email, isValid (validUsers st) email = true ↔ email ∈ Email <$> users st) ∧
  (∃ added, users st = users0 ++ added ∧
            NoDup (Email <$> added) ∧
            ∀ user, user ∈ added → Email user ∉ Email <$> users0) ∧
  (∀ key entry, accessMap st !! key = Some entry →
                UserEmail entry ∈ Email <$> users st).

(** An identifier that cannot be confused with the "::" of a key: it has no
    "::" inside and does not end in ":" (that is, the identifier followed by
    a colon has no double colon). *)
Definition noSeparator (email : string) : Prop :=
  Contains (email +:+ ":") "::" = false.

(** ** Tables *)

Definition knownPrefixes : list (string * string) :=
  [("user:", "user"); ("serviceAccount:", "serviceAccount");
   ("group:", "group"); ("domain:", "domain")].

Definition userTypes : list string :=
  ["user"; "serviceAccount"; "group"; "domain"; "other"].

(** The role patterns that [getApplicableResourceTypes] looks for. *)
Definition cascadingPatterns : list string :=
  ["roles/owner"; "roles/editor"; "roles/viewer"; "roles/storage.";
   "roles/compute."; "roles/container."; "roles/run."; "roles/bigquery.";
   "roles/iam."].

(** * Sample inputs *)

Definition emptyReducer : Reducer :=
  {| users := []; validUsers := ∅; resourcesMap := ∅; accessMap := ∅ |}.

Definition bucketPolicy : IamPolicySearchResult :=
  {| PolicyResource := "//storage.googleapis.com/my-bucket";
     PolicyBindings := [ {| Role := "roles/storage.objectViewer";
                            Members := ["user:alice@example.com"] |} ] |}.

Definition customViewerRole : string := "projects/my-project/roles/viewerPlus".

Definition project1 : string := projectResource "demo".

Definition vm1 : Resource :=
  {| ID := "4242"; Name := "vm-1"; RType := "vm"; Location := "us-central1-a";
     IAM := ∅ |}.

Definition alice : User := {| Email := "alice@example.com"; UType := "user" |}.

(** alice holds roles/viewer on the project and, directly, on the VM. *)
Definition directAccess1 : gmap string AccessEntry :=
  recordAccess "4242" "roles/viewer" alice
    (recordAccess project1 "roles/viewer" alice ∅).

Definition projectAccess1 : gmap string (list string) :=
  {[ "alice@example.com" := ["roles/viewer"] ]}.

Definition resources1 : gmap string Resource :=
  trackResource "//storage.googleapis.com/my-bucket"
    (<[ "4242" := vm1 ]> (trackResource project1 ∅)).

Definition noPolicy : string + option (list Binding) := inl "permission denied".

(** A project whose directory and inventory answer, while the policy search
    fails after its first result. *)
Definition brokenStreamWorld : World :=
  {| ProjectID := "demo";
     ProjectPolicy := inr [ {| Role := "roles/viewer";
                               Members := ["user:alice@example.com"] |} ];
     ListClusters := inr [];
     ListInstances := λ zone,
       if decide (zone = "us-central1-a")
       then ([ {| InstanceId := 4242; InstanceName := "vm-1" |} ], Done)
       else ([], Done);
     ComputeGetIamPolicy := λ _ _, noPolicy;
     ListServices := ([], Done);
     RunGetIamPolicy := λ _, noPolicy;
     NewAssetClient := None;
     SearchAllIamPolicies := ([bucketPolicy], Failed "deadline exceeded") |}.

(** The cluster listing fails while one zone lists a VM. *)
Definition noClustersWorld : World :=
  {| ProjectID := "demo";
     ProjectPolicy := inr [];
     ListClusters := inl "cluster API unavailable";
     ListInstances := λ zone,
       if decide (zone = "us-central1-a")
       then ([ {| InstanceId := 4242; InstanceName := "vm-1" |} ], Done)
       else ([], Done);
     ComputeGetIamPolicy := λ _ _, noPolicy;
     ListServices := ([], Done);
     RunGetIamPolicy := λ _, noPolicy;
     NewAssetClient := None;
     SearchAllIamPolicies := ([], Done) |}.

Definition vm1Instance : Instance := {| InstanceId := 4242; InstanceName := "vm-1" |}.

Definition vm1Asset : string :=
  "//compute.googleapis.com/projects/demo/zones/us-central1-a/instances/vm-1".

(** The inventory lists the VM with id 4242 and name vm-1; the policy search
    returns one policy, on the asset name of that VM. *)
Definition vmWorld : World :=
  {| ProjectID := "demo";
     ProjectPolicy := inr [];
     ListClusters := inr [];
     ListInstances := λ zone,
       if decide (zone = "us-central1-a") then ([vm1Instance], Done) else ([], Done);
     ComputeGetIamPolicy := λ _ _, noPolicy;
     ListServices := ([], Done);
     RunGetIamPolicy := λ _, noPolicy;
     NewAssetClient := None;
     SearchAllIamPolicies :=
       ([ {| PolicyResource := vm1Asset;
             PolicyBindings := [ {| Role := "roles/compute.viewer";
                                    Members := ["user:alice@example.com"] |} ] |} ],
        Done) |}.

(** The project policy names one address as a user and as a group. *)
Definition twoKindsWorld : World :=
  {| ProjectID := "demo";
     ProjectPolicy := inr [ {| Role := "roles/viewer";
                               Members := ["user:ops@example.com";
                                           "group:ops@example.com"] |} ];
     ListClusters := inr [];
     ListInstances := λ _, ([], Done);
     ComputeGetIamPolicy := λ _ _, noPolicy;
     ListServices := ([], Done);
     RunGetIamPolicy := λ _, noPolicy;
     NewAssetClient := None;
     SearchAllIamPolicies := ([bucketPolicy], Done) |}.

(** The policy search grants a role on resource "b" to the member "user:a:"
    and also returns a resource named ":b". *)
Definition danglingWorld : World :=
  {| ProjectID := "demo";
     ProjectPolicy := inr [];
     ListClusters := inr [];
     ListInstances := λ _, ([], Done);
     ComputeGetIamPolicy := λ _ _, noPolicy;
     ListServices := ([], Done);
     RunGetIamPolicy := λ _, noPolicy;
     NewAssetClient := None;
     SearchAllIamPolicies :=
       ([ {| PolicyResource := "b";
             PolicyBindings := [ {| Role := "roles/viewer";
                                    Members := ["user:a:"] |} ] |};
          {| PolicyResource := ":b"; PolicyBindings := [] |} ],
        Done) |}.

(** * Notions and inputs for the further properties *)

(** The host patterns that [extractResourceType] looks for, in order. *)
Definition typePatterns : list string :=
  ["cloudresourcemanager.googleapis.com/projects";
   "cloudresourcemanager.googleapis.com/organizations";
   "compute.googleapis.com"; "container.googleapis.com"; "run.googleapis.com";
   "storage.googleapis.com"; "bigquery.googleapis.com"; "iam.googleapis.com"].

Definition organization1 : Resource :=
  {| ID := "//cloudresourcemanager.googleapis.com/organizations/42";
     Name := "42"; RType := "organization"; Location := "global"; IAM := ∅ |}.

(** [addsOnly Q before after]: every entry of [after] was in [before], or
    sits under a key [before] did not have and satisfies [Q]. *)
Definition addsOnly (Q : string → AccessEntry → Prop)
    (before after : gmap string AccessEntry) : Prop :=
  ∀ key entry,
    after !! key = Some entry →
    before !! key = Some entry ∨ (before !! key = None ∧ Q key entry).

(** A grant of the project-level map, a tracked resource other than the
    project, and a role that applies to the resource's type. *)
Definition candidate (projectResourceID : string)
    (projectAccessByUser : gmap string (list string))
    (resourcesMap : gmap string Resource)
    (userEmail role resourceID : string) (resource : Resource) : Prop :=
  (∃ roles, projectAccessByUser !! userEmail = Some roles ∧ role ∈ roles) ∧
  resourcesMap !! resourceID = Some resource ∧
  resourceID ≠ projectResourceID ∧
  contains (getApplicableResourceTypes role) (RType resource) = true.

Definition bucket1 : string := "//storage.googleapis.com/my-bucket".

(** Every resource is stored under its own id. *)
Definition keyedById (resourcesMap : gmap string Resource) : Prop :=
  ∀ key resource, resourcesMap !! key = Some resource → ID resource = key.

(** The resource that the policy loop creates for an asset name. *)
Definition createdResource (resourceID : string) : Resource :=
  {| ID := resourceID; Name := extractResourceName resourceID;
     RType := extractResourceType resourceID; Location := "global"; IAM := ∅ |}.

(** The reducer state after the whole policy search. *)
Definition reduced (o : RangeOrder) (w : World) : Reducer :=
  foldl processPolicy (initReducer w (GetUsers o w).1) (SearchAllIamPolicies w).1.

(** The matrix computed for [vmWorld], and its access entry. *)
Definition vmWorldMatrix : AccessMatrix :=
  assemble keyOrder vmWorld (reduced keyOrder vmWorld).

Definition aliceOnVm1 : AccessEntry :=
  {| UserEmail := "alice@example.com"; ResourceID := vm1Asset;
     ResourceName := "vm-1"; ResourceType := "vm";
     Roles := ["roles/compute.viewer"] |}.

(** A grant already taken in: the principal is known and the fact has an
    entry under its key. *)
Definition recorded (st : Reducer) (resourceID role member : string) : Prop :=
  isValid (validUsers st) (Email (parseUser member)) = true ∧
  is_Some (accessMap st !! accessKey (Email (parseUser member)) resourceID role).

(** alice is editor of the project; the inventory lists the VM vm-1, on
    whose asset name carol is viewer. *)
Definition inheritWorld : World :=
  {| ProjectID := "demo";
     ProjectPolicy := inr [ {| Role := "roles/editor";
                               Members := ["user:alice@example.com"] |} ];
     ListClusters := inr [];
     ListInstances := λ zone,
       if decide (zone = "us-central1-a") then ([vm1Instance], Done) else ([], Done);
     ComputeGetIamPolicy := λ _ _, noPolicy;
     ListServices := ([], Done);
     RunGetIamPolicy := λ _, noPolicy;
     NewAssetClient := None;
     SearchAllIamPolicies :=
       ([ {| PolicyResource := project1;
             PolicyBindings := [ {| Role := "roles/editor";
                                    Members := ["user:alice@example.com"] |} ] |};
          {| PolicyResource := vm1Asset;
             PolicyBindings := [ {| Role := "roles/compute.viewer";
                                    Members := ["user:carol@example.com"] |} ] |} ],
        Done) |}.

Definition inheritWorldMatrix : AccessMatrix :=
  assemble keyOrder inheritWorld (reduced keyOrder inheritWorld).

(** Every fact names a tracked resource. *)
Definition factsTracked (st : Reducer) : Prop :=
  ∀ key entry, accessMap st !! key = Some entry →
               is_Some (resourcesMap st !! ResourceID entry).

(** The decimal digits. *)
Definition isDigit (c : ascii) : Prop :=
  c ∈ ["0"; "1"; "2"; "3"; "4"; "5"; "6"; "7"; "8"; "9"]%char.

(** One zone's listing fails after its first instance, while a zone listed
    later answers. *)
Definition flakyZoneWorld : World :=
  {| ProjectID := "demo";
     ProjectPolicy := inr [];
     ListClusters := inr [ {| SelfLink := "https://container.googleapis.com/v1/c1";
                              ClusterName := "c1";
                              ClusterLocation := "us-east1" |} ];
     ListInstances := λ zone,
       if decide (zone = "us-central1-a")
       then ([vm1Instance], Failed "quota exceeded")
       else if decide (zone = "us-west1-a")
            then ([ {| InstanceId := 7; InstanceName := "vm-7" |} ], Done)
            else ([], Done);
     ComputeGetIamPolicy := λ _ _, noPolicy;
     ListServices :=
       ([ {| ServiceName := "projects/demo/locations/europe-west1/services/api" |} ],
        Done);
     RunGetIamPolicy := λ _, inr None;
     NewAssetClient := None;
     SearchAllIamPolicies := ([], Done) |}.

(** [strings.Join(elems, sep)], the inverse of [Split]. *)
Fixpoint Join (elems : list string) (sep : string) : string :=
  match elems with
  | [] => ""
  | [elem] => elem
  | elem :: rest => elem +:+ sep +:+ Join rest sep
  end.

(** The principal and the resource of an access entry. *)
Definition pairOf (entry : AccessEntry) : string * string :=
  (UserEmail entry, ResourceID entry).

(** * The callers: handlers, configuration and start-up *)

(** ** The policy search as the iterator delivers it *)

Module Delivered.

(** A result of the search as the iterator hands it over: [Policy] is a
    pointer.  The loop of [GetAccessMatrix] reads [policy.Policy.Bindings]
    without a nil test (resources.go tests [policy != nil]), so a result
    whose policy is nil makes the call panic. *)
Record SearchResult := mkResult
  { Resource : string; Policy : option (list Binding) }.

(** A result that carries its policy. *)
Definition withPolicy (policy : IamPolicySearchResult) : SearchResult :=
  {| Resource := PolicyResource policy; Policy := Some (PolicyBindings policy) |}.

(** A call returns or panics. *)
Inductive Run (A : Type) :=
| Returned (result : A)
| Panicked.

Arguments Returned {A} result.
Arguments Panicked {A}.

(** The loop over the results; [None] is the panic. *)
Fixpoint reduceResults (st : Reducer) (results : list SearchResult) : option Reducer :=
  match results with
  | [] => Some st
  | result :: results =>
      match Policy result with
      | None => None
      | Some bindings =>
          reduceResults
            (processPolicy st {| PolicyResource := Resource result;
                                 PolicyBindings := bindings |})
            results
      end
  end.

(** [GetAccessMatrix] when the search yields [results] and then ends as
    [(SearchAllIamPolicies w).2] says; [w] gives the outcomes of the other
    calls. *)
Definition GetAccessMatrix (o : RangeOrder) (w : World) (results : list SearchResult)
  : Run (option AccessMatrix * option string) :=
  match GetUsers o w with
  | (_, Some err) => Returned (None, Some err)
  | (users0, None) =>
      match NewAssetClient w with
      | Some err => Returned (None, Some ("failed to create asset client: " +:+ err))
      | None =>
          match reduceResults (initReducer w users0) results with
          | None => Panicked
          | Some st =>
              match (SearchAllIamPolicies w).2 with
              | Failed err =>
                  Returned (None, Some ("failed to iterate policies: " +:+ err))
              | Done => Returned (Some (assemble o w st), None)
              end
          end
      end
  end.

End Delivered.

(** ** handlers: the four routes *)

Module Handlers.

(** The body of a response: a JSON value ([AccessBody None] is a nil
    matrix), or nothing. *)
Inductive Body :=
| ErrorBody (err : string)
| UsersBody (users : list User)
| ResourcesBody (resources : list Resource)
| AccessBody (matrix : option AccessMatrix)
| HealthBody (status service : string)
| NoBody.

Record Response := mkResponse { Status : nat; Payload : Body }.

Definition StatusOK : nat := 200.
Definition StatusInternalServerError : nat := 500.

(** The router is [gin.Default()], which installs gin's recovery middleware:
    a panic in a handler is answered with status 500 and no body. *)
Definition recovered : Response := mkResponse StatusInternalServerError NoBody.

Definition GetUsers (o : RangeOrder) (w : World) : Response :=
  match GetUsers o w with
  | (_, Some err) => mkResponse StatusInternalServerError (ErrorBody err)
  | (users, None) => mkResponse StatusOK (UsersBody users)
  end.

Definition GetResources (w : World) : Response :=
  match GetResources w with
  | (_, Some err) => mkResponse StatusInternalServerError (ErrorBody err)
  | (resources, None) => mkResponse StatusOK (ResourcesBody resources)
  end.

Definition GetAccess (o : RangeOrder) (w : World)
    (results : list Delivered.SearchResult) : Response :=
  match Delivered.GetAccessMatrix o w results with
  | Delivered.Panicked => recovered
  | Delivered.Returned (_, Some err) =>
      mkResponse StatusInternalServerError (ErrorBody err)
  | Delivered.Returned (accessMatrix, None) =>
      mkResponse StatusOK (AccessBody accessMatrix)
  end.

Definition HealthCheck : Response :=
  mkResponse StatusOK (HealthBody "healthy" "gcp-access-visualizer").

End Handlers.

(** ** client.go: the four API clients *)

Module GcpClient.

Inductive Api := Compute | Container | Run | ResourceManager.

#[global] Instance Api_eq_dec : EqDecision Api.
Proof. solve_decision. Defined.

(** What [NewClient] and [Close] do to the clients, in order. *)
Inductive Event := Created (api : Api) | Closed (api : Api).

Record Client := mkClient { ProjectID : string }.

(** [fails api] is the error of the constructor of [api], if it fails.  The
    result is the client or the error, with the events that took place. *)
Definition NewClient (fails : Api → option string) (projectID : string)
  : (option Client * option string) * list Event :=
  match fails Compute with
  | Some err => ((None, Some err), [])
  | None =>
      match fails Container with
      | Some err => ((None, Some err), [Created Compute; Closed Compute])
      | None =>
          match fails Run with
          | Some err =>
              ((None, Some err),
               [Created Compute; Created Container; Closed Compute; Closed Container])
          | None =>
              match fails ResourceManager with
              | Some err =>
                  ((None, Some err),
                   [Created Compute; Created Container; Created Run;
                    Closed Compute; Closed Container; Closed Run])
              | None =>
                  ((Some {| ProjectID := projectID |}, None),
                   [Created Compute; Created Container; Created Run;
                    Created ResourceManager])
              end
          end
      end
  end.

Definition Close (c : Client) : option string * list Event :=
  (None, [Closed Compute; Closed Container; Closed Run; Closed ResourceManager]).

(** The clients that a sequence of events leaves open. *)
Definition openAfter (events : list Event) : list Api :=
  foldl (λ open event,
           match event with
           | Created api => open ++ [api]
           | Closed api => filter (λ a, a ≠ api) open
           end) [] events.

(** A client is closed only while it is open. *)
Fixpoint closesOpenOnly (open : list Api) (events : list Event) : Prop :=
  match events with
  | [] => True
  | Created api :: rest => closesOpenOnly (open ++ [api]) rest
  | Closed api :: rest => api ∈ open ∧ closesOpenOnly (filter (λ a, a ≠ api) open) rest
  end.

End GcpClient.

(** ** config.go and main.go: the environment *)

Module Config.

Record Config := mkConfig { ProjectID : string; Port : string }.

(** [getenv] is [os.Getenv]: the empty string for a variable that is not
    set. *)
Definition Load (getenv : string → string) : option Config * option string :=
  let projectID := getenv "GCP_PROJECT_ID" in
  if decide (projectID = "")
  then (None, Some "GCP_PROJECT_ID environment variable is required")
  else
    let port := getenv "PORT" in
    let port := if decide (port = "") then "8080" else port in
    (Some {| ProjectID := projectID; Port := port |}, None).

(** The allowed origins that [main] hands to the CORS middleware. *)
Definition corsOrigins (getenv : string → string) : list string :=
  let allowedOrigins := getenv "CORS_ALLOWED_ORIGINS" in
  if decide (allowedOrigins = "")
  then ["http://localhost:5173"; "http://localhost:3000"]
  else Split allowedOrigins ",".

End Config.

Definition prodEnv (name : string) : string :=
  if decide (name = "GCP_PROJECT_ID") then "demo"
  else if decide (name = "CORS_ALLOWED_ORIGINS")
       then "https://a.example.com,https://b.example.com"
       else "".

(** ** main.go: from the environment to the client *)

Module Main.

(** The first steps of [main]: the configuration, then the client.  [inl]
    is the message of [log.Fatalf]. *)
Definition startup (getenv : string → string) (fails : GcpClient.Api → option string)
  : (string + GcpClient.Client) * list GcpClient.Event :=
  match Config.Load getenv with
  | (Some cfg, None) =>
      match GcpClient.NewClient fails (Config.ProjectID cfg) with
      | ((Some gcpClient, None), events) => (inr gcpClient, events)
      | ((_, Some err), events) => (inl ("Failed to create GCP client: " +:+ err), events)
      | ((None, None), events) => (inl "Failed to create GCP client: ", events)
      end
  | (_, Some err) => (inl ("Failed to load config: " +:+ err), [])
  | (None, None) => (inl "Failed to load config: ", [])
  end.

End Main.

Definition allApis : list GcpClient.Api :=
  [GcpClient.Compute; GcpClient.Container; GcpClient.Run; GcpClient.ResourceManager].

(** Two topics of the Pub/Sub service; the name of the second contains the
    host name of Cloud Run. *)
Definition auditTopic : string :=
  "//pubsub.googleapis.com/projects/demo/topics/audit".

Definition runAuditTopic : string :=
  "//pubsub.googleapis.com/projects/demo/topics/run.googleapis.com-audit".

(** * Properties *)

(** ** The principal parser *)

Lemma parseUser_type (member : string) : UType (parseUser member) ∈ userTypes.
Proof.
  unfold parseUser, userTypes.
  repeat case_match; simpl; set_solver.
Qed.

Lemma parseUser_other (member : string) :
  UType (parseUser member) = "other" → Email (parseUser member) = member.
Proof.
  unfold parseUser. repeat case_match; simpl; congruence.
Qed.

Ltac logic := intuition (subst; eauto; try congruence).

Ltac parse_known :=
  intros; unfold parseUser; cbn;
  rewrite ?andb_false_r; cbn;
  rewrite ?bool_decide_eq_true_2 by lia; reflexivity.

(** C10. [parseUser] returns a principal for every string, of one of the five
    kinds; a member that is exactly a known prefix ("user:", "group:", ...)
    is of kind other with the whole string as identifier, whereas the same
    prefix followed by at least one byte is of the prefix's kind with the
    prefix stripped. *)
Theorem parseUser_total_bare_prefix :
  (∀ member, ∃ user, parseUser member = user ∧ UType user ∈ userTypes) ∧
  Forall (λ pk : string * string,
            parseUser pk.1 = {| Email := pk.1; UType := "other" |} ∧
            ∀ c rest, parseUser (pk.1 +:+ String c rest)
                      = {| Email := String c rest; UType := pk.2 |})
         knownPrefixes.
Proof.
  split.
  - intros member. exists (parseUser member). split; [done | apply parseUser_type].
  - unfold knownPrefixes. repeat constructor; parse_known.
Qed.

(** ** The policy loop: resources *)

Lemma addBindingMembers_resourcesMap resourceID role members st :
  resourcesMap (foldl (addBindingMember resourceID role) st members) = resourcesMap st.
Proof.
  revert st. induction members as [|member members IH]; intros st; [done|].
  simpl. by rewrite IH.
Qed.

Lemma processPolicy_resourcesMap st policy :
  resourcesMap (processPolicy st policy)
  = trackResource (PolicyResource policy) (resourcesMap st).
Proof.
  unfold processPolicy.
  generalize (PolicyResource policy) at 2 3 as rid.
  intros rid.
  set (st1 := mkReducer _ _ _ _).
  change (trackResource _ _) with (resourcesMap st1).
  generalize st1. clear st1.
  induction (PolicyBindings policy) as [|b bs IH]; intros st1; [done|].
  simpl. by rewrite IH, addBindingMembers_resourcesMap.
Qed.

(** A resource already tracked (from the inventory or an earlier policy) is
    left as it is. *)
Lemma processPolicy_tracked st policy resource :
  resourcesMap st !! PolicyResource policy = Some resource →
  resourcesMap (processPolicy st policy) = resourcesMap st.
Proof.
  intros Hin. rewrite processPolicy_resourcesMap. unfold trackResource.
  by rewrite Hin.
Qed.

Lemma processPolicy_untracked st policy :
  resourcesMap st !! PolicyResource policy = None →
  resourcesMap (processPolicy st policy)
  = <[PolicyResource policy :=
        {| ID := PolicyResource policy;
           Name := extractResourceName (PolicyResource policy);
           RType := extractResourceType (PolicyResource policy);
           Location := "global";
           IAM := ∅ |}]> (resourcesMap st).
Proof.
  intros Hnew. rewrite processPolicy_resourcesMap. unfold trackResource.
  by rewrite Hnew.
Qed.

(** ** The applicability table *)

Lemma contains_elem_of slice item : contains slice item = true ↔ item ∈ slice.
Proof.
  induction slice as [|s slice IH]; simpl.
  - split; [done | by intros ?%elem_of_nil].
  - case_decide as Heq.
    + subst. split; [intros _; left | done].
    + rewrite IH. split; [by right | by intros [->|?]%elem_of_cons].
Qed.

Lemma getApplicableResourceTypes_none role :
  Forall (λ pattern, Contains role pattern = false) cascadingPatterns →
  getApplicableResourceTypes role = [].
Proof.
  unfold cascadingPatterns. rewrite !Forall_cons.
  intros (H1 & H2 & H3 & H4 & H5 & H6 & H7 & H8 & H9 & _).
  unfold getApplicableResourceTypes.
  by rewrite H1, H2, H3, H4, H5, H6, H7, H8, H9.
Qed.

Lemma inheritOne_not_applicable projectResourceID userEmail role accessMap kv :
  getApplicableResourceTypes role = [] →
  inheritOne projectResourceID userEmail role accessMap kv = accessMap.
Proof.
  intros Hnone. unfold inheritOne. rewrite Hnone. simpl. by case_decide.
Qed.

(** C7 (as the code has it). A project-level role in which none of the table's
    patterns occurs as a substring has no applicable resource type, and the
    loop over the resources for that grant adds no access entry, whatever the
    resources are and in whatever order they are visited. *)
Theorem no_pattern_no_cascade role :
  Forall (λ pattern, Contains role pattern = false) cascadingPatterns →
  getApplicableResourceTypes role = [] ∧
  ∀ (o : RangeOrder) projectResourceID resourcesMap userEmail accessMap,
    inheritRole o projectResourceID resourcesMap userEmail accessMap role = accessMap.
Proof.
  intros Hnone%getApplicableResourceTypes_none. split; [done|].
  intros o pid rm userEmail am. unfold inheritRole.
  induction (o _ _ rm) as [|kv kvs IH]; [done|].
  simpl. by rewrite inheritOne_not_applicable.
Qed.

(** The scenario of the specification: roles/pubsub.publisher held on the
    project reaches no other resource. *)
Lemma no_pattern_no_cascade_witness :
  getApplicableResourceTypes "roles/pubsub.publisher" = [] ∧
  ∀ (o : RangeOrder) projectResourceID resourcesMap userEmail accessMap,
    inheritRole o projectResourceID resourcesMap userEmail accessMap
                "roles/pubsub.publisher" = accessMap.
Proof.
  apply (no_pattern_no_cascade "roles/pubsub.publisher").
  unfold cascadingPatterns. repeat constructor.
Defined.

(** C7 as the specification words it (role prefixes) does not hold: a custom
    role named projects/my-project/roles/viewerPlus starts with none of the
    listed prefixes, yet every resource type of the table applies to it. *)
Lemma prefix_free_role_cascades :
  ¬ (∀ role,
       Forall (λ pattern, HasPrefix role pattern = false) cascadingPatterns →
       getApplicableResourceTypes role = [] ∧
       ∀ (o : RangeOrder) projectResourceID resourcesMap userEmail accessMap,
         inheritRole o projectResourceID resourcesMap userEmail accessMap role
         = accessMap).
Proof.
  intros Hclaim.
  destruct (Hclaim customViewerRole) as [Hnone _].
  { unfold cascadingPatterns. repeat constructor. }
  discriminate Hnone.
Qed.

(** ** The inheritance step *)

Section Inheritance.
Variable projectResourceID : string.

Lemma extends_refl holders m : extends projectResourceID holders m m.
Proof. intros key entry Hk. by left. Qed.

Lemma keeps_refl m : keeps m m.
Proof. by intros key entry Hk. Qed.

Lemma keeps_trans m1 m2 m3 : keeps m1 m2 → keeps m2 m3 → keeps m1 m3.
Proof. intros H12 H23 key entry Hk. by apply H23, H12. Qed.

Lemma inheritOne_keeps userEmail role accessMap kv :
  keeps accessMap (inheritOne projectResourceID userEmail role accessMap kv).
Proof.
  intros key entry Hk. unfold inheritOne.
  case_decide; [done|]. case_match; [|done].
  destruct (accessMap !! accessKey _ _ _) eqn:Hkey; [done|].
  rewrite lookup_insert_ne; [done|]. intros <-. congruence.
Qed.

Lemma inheritOne_extends holders userEmail role before accessMap kv :
  userEmail ∈ holders →
  extends projectResourceID holders before accessMap →
  keeps before accessMap →
  extends projectResourceID holders before
          (inheritOne projectResourceID userEmail role accessMap kv).
Proof.
  intros Hholder Hext Hkeep key entry. unfold inheritOne.
  case_decide; [by apply Hext|]. case_match; [|by apply Hext].
  destruct (accessMap !! accessKey _ _ _) eqn:Hkey; [by apply Hext|].
  rewrite lookup_insert. case_decide as Heq; [|by apply Hext].
  intros [= <-]. right. subst key. split; [|done].
  destruct (before !! accessKey userEmail kv.1 role) eqn:Hb; [|done].
  apply Hkeep in Hb. congruence.
Qed.

Lemma foldl_inheritOne_keeps userEmail role resources accessMap :
  keeps accessMap
        (foldl (inheritOne projectResourceID userEmail role) accessMap resources).
Proof.
  revert accessMap. induction resources as [|kv kvs IH]; intros am; [apply keeps_refl|].
  simpl. eapply keeps_trans; [apply inheritOne_keeps | apply IH].
Qed.

Lemma foldl_inheritOne_extends holders userEmail role resources before accessMap :
  userEmail ∈ holders →
  extends projectResourceID holders before accessMap →
  keeps before accessMap →
  extends projectResourceID holders before
          (foldl (inheritOne projectResourceID userEmail role) accessMap resources).
Proof.
  intros Hholder. revert accessMap.
  induction resources as [|kv kvs IH]; intros am Hext Hkeep; [done|].
  simpl. apply IH.
  - by apply inheritOne_extends.
  - eapply keeps_trans; [done | apply inheritOne_keeps].
Qed.

Variable o : RangeOrder.
Variable resourcesMap : gmap string Resource.

Lemma inheritRole_keeps userEmail accessMap role :
  keeps accessMap
        (inheritRole o projectResourceID resourcesMap userEmail accessMap role).
Proof. apply foldl_inheritOne_keeps. Qed.

Lemma inheritUser_keeps accessMap kv :
  keeps accessMap (inheritUser o projectResourceID resourcesMap accessMap kv).
Proof.
  unfold inheritUser. revert accessMap.
  induction kv.2 as [|role roles IH]; intros am; [apply keeps_refl|].
  simpl. eapply keeps_trans; [apply inheritRole_keeps | apply IH].
Qed.

Lemma inheritUser_extends holders before accessMap kv :
  kv.1 ∈ holders →
  extends projectResourceID holders before accessMap →
  keeps before accessMap →
  extends projectResourceID holders before
          (inheritUser o projectResourceID resourcesMap accessMap kv).
Proof.
  intros Hholder. unfold inheritUser. revert accessMap.
  induction kv.2 as [|role roles IH]; intros am Hext Hkeep; [done|].
  simpl. apply IH.
  - by apply foldl_inheritOne_extends.
  - eapply keeps_trans; [done | apply inheritRole_keeps].
Qed.

Lemma foldl_inheritUser_keeps accessMap grants :
  keeps accessMap
        (foldl (inheritUser o projectResourceID resourcesMap) accessMap grants).
Proof.
  revert accessMap. induction grants as [|kv kvs IH]; intros am; [apply keeps_refl|].
  simpl. eapply keeps_trans; [apply inheritUser_keeps | apply IH].
Qed.

Lemma resolveInherited_keeps projectAccessByUser accessMap :
  keeps accessMap
        (resolveInherited o projectResourceID projectAccessByUser resourcesMap
                          accessMap).
Proof. apply foldl_inheritUser_keeps. Qed.

Lemma foldl_inheritUser_extends holders before accessMap grants :
  (∀ kv, kv ∈ grants → kv.1 ∈ holders) →
  extends projectResourceID holders before accessMap →
  keeps before accessMap →
  extends projectResourceID holders before
          (foldl (inheritUser o projectResourceID resourcesMap) accessMap grants).
Proof.
  revert accessMap.
  induction grants as [|kv kvs IH]; intros am Hholders Hext Hkeep; [done|].
  simpl. apply IH.
  - intros kv' Hin. apply Hholders. by right.
  - apply inheritUser_extends; [|done..]. apply Hholders. by left.
  - eapply keeps_trans; [done | apply inheritUser_keeps].
Qed.

Lemma resolveInherited_extends projectAccessByUser accessMap :
  extends projectResourceID
          (o _ ["projectAccessByUser"] projectAccessByUser).*1 accessMap
          (resolveInherited o projectResourceID projectAccessByUser resourcesMap
                            accessMap).
Proof.
  apply foldl_inheritUser_extends; [|apply extends_refl | apply keeps_refl].
  intros kv Hin. by apply list_elem_of_fmap_2.
Qed.

(** C1. If the access map holds a (direct) entry under the key of the
    principal, resource and role, the inheritance step leaves that entry in
    place, and no entry that the step adds has this principal, resource and
    role: the entries added are those under keys the map did not have. *)
Theorem direct_not_overridden projectAccessByUser accessMap
    userEmail resourceID role direct :
  accessMap !! accessKey userEmail resourceID role = Some direct →
  let accessMap' :=
    resolveInherited o projectResourceID projectAccessByUser resourcesMap accessMap in
  accessMap' !! accessKey userEmail resourceID role = Some direct ∧
  ∀ key inherited,
    accessMap !! key = None →
    accessMap' !! key = Some inherited →
    (UserEmail inherited, ResourceID inherited, Roles inherited)
    ≠ (userEmail, resourceID, [role]).
Proof.
  intros Hdirect accessMap'. split.
  - by apply resolveInherited_keeps.
  - intros key inherited Hnone Hadded [= Hu Hr Hroles].
    destruct (resolveInherited_extends _ _ _ _ Hadded) as [Hold|(_ & [Hkey _] & _)].
    + congruence.
    + unfold role0 in Hkey. rewrite Hu, Hr, Hroles in Hkey. simpl in Hkey.
      congruence.
Qed.

End Inheritance.

Lemma direct_not_overridden_witness :
  let direct :=
    {| UserEmail := "alice@example.com"; ResourceID := "4242";
       ResourceName := "4242"; ResourceType := "other"; Roles := ["roles/viewer"] |} in
  let accessMap' :=
    resolveInherited keyOrder project1 projectAccess1 resources1 directAccess1 in
  accessMap' !! accessKey "alice@example.com" "4242" "roles/viewer" = Some direct ∧
  ∀ key inherited,
    directAccess1 !! key = None →
    accessMap' !! key = Some inherited →
    (UserEmail inherited, ResourceID inherited, Roles inherited)
    ≠ ("alice@example.com", "4242", ["roles/viewer"]).
Proof.
  apply (direct_not_overridden project1 keyOrder resources1 projectAccess1
           directAccess1 "alice@example.com" "4242" "roles/viewer").
  vm_compute. reflexivity.
Defined.

(** ** Idempotence of the inheritance step *)

Lemma keeps_is_Some before after key :
  keeps before after → is_Some (before !! key) → is_Some (after !! key).
Proof. intros Hkeep [entry Hk]. exists entry. by apply Hkeep. Qed.

Section Idempotence.
Variable projectResourceID : string.
Variable resourcesMap : gmap string Resource.

Lemma inheritOne_covers userEmail role accessMap resourceID resource :
  resourceID ≠ projectResourceID →
  contains (getApplicableResourceTypes role) (RType resource) = true →
  is_Some (inheritOne projectResourceID userEmail role accessMap (resourceID, resource)
             !! accessKey userEmail resourceID role).
Proof.
  intros Hne Happ. unfold inheritOne. simpl.
  rewrite decide_False by done. rewrite Happ.
  destruct (accessMap !! accessKey _ _ _) eqn:Hkey.
  - by rewrite Hkey.
  - rewrite lookup_insert_eq. by eexists.
Qed.

Lemma foldl_inheritOne_covers userEmail role resources accessMap resourceID resource :
  (resourceID, resource) ∈ resources →
  resourceID ≠ projectResourceID →
  contains (getApplicableResourceTypes role) (RType resource) = true →
  is_Some (foldl (inheritOne projectResourceID userEmail role) accessMap resources
             !! accessKey userEmail resourceID role).
Proof.
  intros Hin Hne Happ. revert accessMap.
  induction resources as [|kv kvs IH]; intros am; [by apply elem_of_nil in Hin|].
  simpl. apply elem_of_cons in Hin as [<-|Hin].
  - eapply keeps_is_Some; [apply foldl_inheritOne_keeps|].
    by apply inheritOne_covers.
  - by apply IH.
Qed.

(** A step for a grant that is already present changes nothing. *)
Lemma inheritOne_present userEmail role accessMap resourceID resource :
  (resourceID ≠ projectResourceID →
   contains (getApplicableResourceTypes role) (RType resource) = true →
   is_Some (accessMap !! accessKey userEmail resourceID role)) →
  inheritOne projectResourceID userEmail role accessMap (resourceID, resource)
  = accessMap.
Proof.
  intros Hpresent. unfold inheritOne. simpl.
  case_decide as Hne; [done|].
  destruct (contains _ _) eqn:Happ; [|done].
  by destruct (Hpresent Hne eq_refl) as [entry ->].
Qed.

Variables o1 o2 : RangeOrder.
Hypothesis o1_ok : range_ok o1.
Hypothesis o2_ok : range_ok o2.

Lemma range_lookup (o : RangeOrder) {A} lbl (m : gmap string A) key value :
  range_ok o → (key, value) ∈ o A lbl m ↔ m !! key = Some value.
Proof. intros Hok. by rewrite (Hok A lbl m), elem_of_map_to_list. Qed.

Lemma inheritUser_covers accessMap userEmail roles role resourceID resource :
  role ∈ roles →
  resourcesMap !! resourceID = Some resource →
  resourceID ≠ projectResourceID →
  contains (getApplicableResourceTypes role) (RType resource) = true →
  is_Some (inheritUser o1 projectResourceID resourcesMap accessMap (userEmail, roles)
             !! accessKey userEmail resourceID role).
Proof.
  intros Hrole Hres Hne Happ. unfold inheritUser. simpl. revert accessMap.
  induction roles as [|r rs IH]; intros am; [by apply elem_of_nil in Hrole|].
  simpl. apply elem_of_cons in Hrole as [<-|Hrole].
  - eapply keeps_is_Some.
    + apply (inheritUser_keeps projectResourceID o1 resourcesMap _ (userEmail, rs)).
    + apply foldl_inheritOne_covers with resource; [|done..].
      by apply range_lookup.
  - by apply IH.
Qed.

Lemma resolveInherited_covered projectAccessByUser accessMap :
  covered projectResourceID projectAccessByUser resourcesMap
    (resolveInherited o1 projectResourceID projectAccessByUser resourcesMap accessMap).
Proof.
  intros userEmail roles role resourceID resource Huser Hrole Hres Hne Happ.
  unfold resolveInherited.
  apply (range_lookup o1 ["projectAccessByUser"]) in Huser; [|done].
  revert accessMap.
  induction (o1 _ _ projectAccessByUser) as [|kv kvs IH]; intros am;
    [by apply elem_of_nil in Huser|].
  simpl. apply elem_of_cons in Huser as [<-|Huser].
  - eapply keeps_is_Some.
    + apply foldl_inheritUser_keeps.
    + by apply inheritUser_covers with resource.
  - by apply IH.
Qed.

Lemma inheritRole_fixed accessMap userEmail role :
  (∀ resourceID resource,
     resourcesMap !! resourceID = Some resource →
     resourceID ≠ projectResourceID →
     contains (getApplicableResourceTypes role) (RType resource) = true →
     is_Some (accessMap !! accessKey userEmail resourceID role)) →
  inheritRole o2 projectResourceID resourcesMap userEmail accessMap role = accessMap.
Proof.
  intros Hpresent. unfold inheritRole.
  assert (∀ kv, kv ∈ o2 _ ["resources"; userEmail; role] resourcesMap →
                resourcesMap !! kv.1 = Some kv.2) as Hres.
  { intros [rid res] Hin. by apply (range_lookup o2) in Hin. }
  induction (o2 _ _ resourcesMap) as [|[resourceID resource] rest IH]; [done|].
  simpl. rewrite inheritOne_present.
  - apply IH. intros kv Hin. apply Hres. by right.
  - apply Hpresent. apply (Hres (resourceID, resource)). by left.
Qed.

Lemma inheritUser_fixed accessMap userEmail roles :
  (∀ role resourceID resource,
     role ∈ roles →
     resourcesMap !! resourceID = Some resource →
     resourceID ≠ projectResourceID →
     contains (getApplicableResourceTypes role) (RType resource) = true →
     is_Some (accessMap !! accessKey userEmail resourceID role)) →
  inheritUser o2 projectResourceID resourcesMap accessMap (userEmail, roles)
  = accessMap.
Proof.
  unfold inheritUser. simpl.
  induction roles as [|role roles IH]; intros Hpresent; [done|].
  simpl. rewrite inheritRole_fixed.
  - apply IH. intros r rid res Hin. apply Hpresent. by right.
  - intros rid res. apply Hpresent. by left.
Qed.

Lemma resolveInherited_fixed projectAccessByUser accessMap :
  covered projectResourceID projectAccessByUser resourcesMap accessMap →
  resolveInherited o2 projectResourceID projectAccessByUser resourcesMap accessMap
  = accessMap.
Proof.
  intros Hcov. unfold resolveInherited.
  assert (∀ kv, kv ∈ o2 _ ["projectAccessByUser"] projectAccessByUser →
                projectAccessByUser !! kv.1 = Some kv.2) as Hgrants.
  { intros [u roles] Hin. by apply (range_lookup o2) in Hin. }
  induction (o2 _ _ projectAccessByUser) as [|[userEmail roles] kvs IH]; [done|].
  simpl. rewrite inheritUser_fixed.
  - apply IH. intros kv Hin. apply Hgrants. by right.
  - intros role rid res Hrole. eapply Hcov; [|done].
    apply (Hgrants (userEmail, roles)). by left.
Qed.

Lemma resolveInherited_again projectAccessByUser accessMap :
  resolveInherited o2 projectResourceID projectAccessByUser resourcesMap
    (resolveInherited o1 projectResourceID projectAccessByUser resourcesMap accessMap)
  = resolveInherited o1 projectResourceID projectAccessByUser resourcesMap accessMap.
Proof. apply resolveInherited_fixed, resolveInherited_covered. Qed.

End Idempotence.

Lemma keyOrder_ok : range_ok keyOrder.
Proof. by intros A lbl m. Qed.

Lemma revOrder_ok : range_ok revOrder.
Proof. intros A lbl m. apply reverse_Permutation. Qed.

(** The project-level grants read off an access map: the roles listed for a
    principal are those of the entries on the project that name it. *)
Lemma collectProjectAccess_roles projectResourceID entries userEmail role :
  role ∈ rolesOf (collectProjectAccess projectResourceID entries) userEmail ↔
  ∃ kv, kv ∈ entries ∧ ResourceID kv.2 = projectResourceID ∧
        UserEmail kv.2 = userEmail ∧ role0 kv.2 = role.
Proof.
  unfold collectProjectAccess.
  assert (∀ byUser,
            role ∈ rolesOf
                     (foldl (λ byUser kv,
                               if decide (ResourceID kv.2 = projectResourceID)
                               then <[UserEmail kv.2 :=
                                        rolesOf byUser (UserEmail kv.2)
                                        ++ [role0 kv.2]]> byUser
                               else byUser) byUser entries) userEmail ↔
            role ∈ rolesOf byUser userEmail ∨
            ∃ kv, kv ∈ entries ∧ ResourceID kv.2 = projectResourceID ∧
                  UserEmail kv.2 = userEmail ∧ role0 kv.2 = role) as Hgen.
  { induction entries as [|kv kvs IH]; intros byUser; simpl.
    - split; [by left|]. intros [?|(kv & []%elem_of_nil & _)]; done.
    - rewrite IH. split.
      + intros [Hold|(kv' & Hin & Hkv)].
        * case_decide as Hproj; [|by left]. unfold rolesOf in Hold.
          rewrite lookup_insert in Hold. case_decide as Huser; [|by left].
          simpl in Hold.
          apply elem_of_app in Hold as [Hold|Hnew%list_elem_of_singleton].
          -- left. by rewrite <- Huser.
          -- right. exists kv. split; [by left | done].
        * right. exists kv'. split; [by right | done].
      + intros [Hold|(kv' & [->|Hin]%elem_of_cons & Hproj & Huser & Hrole)].
        * left. case_decide; [|done]. unfold rolesOf at 1.
          rewrite lookup_insert. case_decide as Heq; [|done].
          simpl. apply elem_of_app. left. by rewrite Heq.
        * left. rewrite decide_True by done. unfold rolesOf at 1.
          rewrite Huser, lookup_insert_eq. simpl. apply elem_of_app. right.
          rewrite Hrole. by left.
        * right. by exists kv'. }
  rewrite Hgen. unfold rolesOf at 1. rewrite lookup_empty. simpl.
  split; [|by right]. by intros [[]%elem_of_nil|?].
Qed.

(** C6. Running the inheritance step a second time, on the result of a first
    run and with the same project-level grants and the same resources,
    changes nothing, whatever order the two runs visit the maps in.  The same
    holds when the second run reads the project-level grants off the result
    of the first, as step 2 of [GetAccessMatrix] does. *)
Theorem resolveInherited_idempotent (o1 o2 : RangeOrder) :
  range_ok o1 → range_ok o2 →
  (∀ projectResourceID projectAccessByUser resourcesMap accessMap,
     let once :=
       resolveInherited o1 projectResourceID projectAccessByUser resourcesMap
                        accessMap in
     resolveInherited o2 projectResourceID projectAccessByUser resourcesMap once
     = once) ∧
  (∀ (w : World) (st : Reducer),
     let once := inheritedAccessMap o1 w st in
     inheritedAccessMap o2 w
       {| users := users st; validUsers := validUsers st;
          resourcesMap := resourcesMap st; accessMap := once |} = once).
Proof.
  intros Hok1 Hok2. split.
  - intros pid pa rm am once. by apply resolveInherited_again.
  - intros w st once. unfold inheritedAccessMap. cbn [accessMap resourcesMap].
    apply resolveInherited_fixed; [done|].
    intros userEmail roles role resourceID resource Hroles Hrole.
    assert (role ∈ rolesOf
                     (collectProjectAccess (projectResource (ProjectID w))
                        (o2 _ ["accessMap"; "project"] once)) userEmail) as Hgrant.
    { unfold rolesOf. by rewrite Hroles. }
    apply collectProjectAccess_roles in Hgrant
      as ([key entry] & Hin & Hproj & Huser & Hrole0).
    apply (range_lookup o2) in Hin; [|done]. simpl in *.
    apply resolveInherited_extends in Hin as [Hdirect|(_ & _ & _ & Hother)]; [|done].
    assert (role ∈ rolesOf
                     (collectProjectAccess (projectResource (ProjectID w))
                        (o1 _ ["accessMap"; "project"] (accessMap st))) userEmail)
      as Hgrant1.
    { apply collectProjectAccess_roles. exists (key, entry).
      split; [by apply (range_lookup o1) | done]. }
    unfold rolesOf in Hgrant1.
    destruct (collectProjectAccess (projectResource (ProjectID w))
                (o1 _ ["accessMap"; "project"] (accessMap st)) !! userEmail)
      as [roles1|] eqn:Hroles1; [|by apply elem_of_nil in Hgrant1].
    by apply (resolveInherited_covered _ _ o1 Hok1 _ (accessMap st) userEmail roles1).
Qed.

Lemma resolveInherited_idempotent_witness :
  resolveInherited revOrder project1 projectAccess1 resources1
    (resolveInherited keyOrder project1 projectAccess1 resources1 directAccess1)
  = resolveInherited keyOrder project1 projectAccess1 resources1 directAccess1.
Proof.
  apply (proj1 (resolveInherited_idempotent keyOrder revOrder keyOrder_ok revOrder_ok)
           project1 projectAccess1 resources1 directAccess1).
Defined.

(** ** Errors *)

(** C4. A failure of the project policy fetch, or of the policy search after
    any number of results, makes [GetAccessMatrix] return no matrix and an
    error: the wrapped directory error in the first case, and, when the
    directory and the asset client are available, the wrapped search error in
    the second. *)
Theorem fatal_sources (o : RangeOrder) (w : World) :
  ((∃ err, ProjectPolicy w = inl err) ∨
   (∃ err, (SearchAllIamPolicies w).2 = Failed err)) →
  (∃ msg, GetAccessMatrix o w = (None, Some msg)) ∧
  (∀ err, ProjectPolicy w = inl err →
          GetAccessMatrix o w = (None, Some ("failed to get IAM policy: " +:+ err))) ∧
  (∀ err bindings,
     ProjectPolicy w = inr bindings →
     NewAssetClient w = None →
     (SearchAllIamPolicies w).2 = Failed err →
     GetAccessMatrix o w = (None, Some ("failed to iterate policies: " +:+ err))).
Proof.
  intros Hfail. unfold GetAccessMatrix, GetUsers. split; [|split].
  - destruct (ProjectPolicy w) as [err|bindings]; [by eexists|].
    destruct Hfail as [[err [=]]|[err Hstream]].
    destruct (NewAssetClient w); [by eexists|].
    rewrite Hstream. by eexists.
  - by intros err ->.
  - by intros err bindings -> -> ->.
Qed.

Lemma fatal_sources_witness :
  GetAccessMatrix keyOrder brokenStreamWorld
  = (None, Some "failed to iterate policies: deadline exceeded").
Proof.
  refine (proj2 (proj2 (fatal_sources keyOrder brokenStreamWorld _)) _ _ _ _ _);
    [right; by eexists | reflexivity..].
Defined.

(** ** The inventory *)

Lemma getVMs_zones (w : World) : (getVMs w).1 = concat (zoneVMs w <$> zones).
Proof. unfold getVMs, zones. simpl. by rewrite !app_nil_r, !app_assoc. Qed.

(** C5 (as the code has it). [GetResources] is all or nothing across the
    three listings: an error of the cluster listing or of the Cloud Run
    listing returns that error and no resource, and [GetAccessMatrix] then
    goes on with an empty inventory; when both succeed the result is the
    clusters, the VMs and the services.  Only the VM listing absorbs
    failures: it never reports an error, and a zone whose iterator fails
    contributes the instances it yielded before failing. *)
Theorem GetResources_all_or_nothing (w : World) :
  (getVMs w).2 = None ∧
  (getVMs w).1 = concat (zoneVMs w <$> zones) ∧
  match ListClusters w, (ListServices w).2 with
  | inl err, _ =>
      GetResources w = ([], Some ("failed to get GKE clusters: " +:+ err)) ∧
      knownResourcesMap w = ∅
  | inr _, Failed err =>
      GetResources w = ([], Some ("failed to get Cloud Run services: " +:+ err)) ∧
      knownResourcesMap w = ∅
  | inr _, Done =>
      GetResources w
      = ((getGKEClusters w).1 ++ (getVMs w).1 ++ (getCloudRunServices w).1, None)
  end.
Proof.
  split; [done|]. split; [apply getVMs_zones|].
  unfold knownResourcesMap, GetResources, getGKEClusters, getCloudRunServices.
  destruct (ListClusters w) as [err|clusters]; [done|].
  destruct (ListServices w) as [services [|err]]; simpl; done.
Qed.

(** C5 as the specification words it does not hold: with the cluster listing
    failing, the VM that the (non-failing) VM listing obtained is not among
    the resources returned. *)
Lemma failed_listing_drops_other_backends :
  ¬ (∀ (w : World) (resource : Resource),
       ((getGKEClusters w).2 = None → resource ∈ (getGKEClusters w).1 →
        resource ∈ (GetResources w).1) ∧
       ((getVMs w).2 = None → resource ∈ (getVMs w).1 →
        resource ∈ (GetResources w).1) ∧
       ((getCloudRunServices w).2 = None → resource ∈ (getCloudRunServices w).1 →
        resource ∈ (GetResources w).1)).
Proof.
  intros Hclaim.
  destruct (Hclaim noClustersWorld
              {| ID := "4242"; Name := "vm-1"; RType := "vm";
                 Location := "us-central1-a"; IAM := ∅ |}) as (_ & Hvm & _).
  specialize (Hvm eq_refl).
  assert (GetResources noClustersWorld
          = ([], Some "failed to get GKE clusters: cluster API unavailable")) as Hres
    by reflexivity.
  rewrite Hres in Hvm. simpl in Hvm.
  eapply not_elem_of_nil, Hvm.
  vm_compute. left.
Qed.

(** ** Identifiers *)

Lemma append_cons c (s1 s2 : string) : String c s1 +:+ s2 = String c (s1 +:+ s2).
Proof. reflexivity. Qed.

Lemma append_nil_l (s : string) : "" +:+ s = s.
Proof. reflexivity. Qed.

Lemma append_nil_r (s : string) : s +:+ "" = s.
Proof. induction s as [|c s IH]; [done | by rewrite append_cons, IH]. Qed.

Lemma append_assoc (s1 s2 s3 : string) : (s1 +:+ s2) +:+ s3 = s1 +:+ (s2 +:+ s3).
Proof. induction s1 as [|c s1 IH]; [done | by rewrite !append_cons, IH]. Qed.

Lemma prefix_empty (s : string) : String.prefix "" s = true.
Proof. by destruct s. Qed.

Lemma prefix_cons a b (s1 s2 : string) :
  String.prefix (String a s1) (String b s2)
  = if ascii_dec a b then String.prefix s1 s2 else false.
Proof. reflexivity. Qed.

Lemma Contains_cons_false c s sub :
  Contains (String c s) sub = false →
  HasPrefix (String c s) sub = false ∧ Contains s sub = false.
Proof. simpl. by intros [? ?]%orb_false_elim. Qed.

(** Cutting at "/" a string with no "/" gives the string itself. *)
Lemma splitFrom_no_slash cur name :
  Contains name "/" = false → splitFrom "/" 0 cur name = [cur +:+ name].
Proof.
  revert cur. induction name as [|c name IH]; intros cur Hno.
  - simpl. by rewrite append_nil_r.
  - apply Contains_cons_false in Hno as [Hhead Hno].
    cbn [splitFrom]. rewrite Hhead, IH by done.
    by rewrite append_assoc.
Qed.

Lemma last_splitFrom_slash cur path name :
  Contains name "/" = false →
  last (splitFrom "/" 0 cur (path +:+ String "/" name)) = Some name.
Proof.
  intros Hno. revert cur. induction path as [|c path IH]; intros cur.
  - rewrite append_nil_l. cbn. rewrite prefix_empty.
    by rewrite splitFrom_no_slash.
  - rewrite append_cons. cbn [splitFrom].
    destruct (HasPrefix _ _).
    + cbn [String.length Nat.sub]. by rewrite last_cons, IH.
    + apply IH.
Qed.

Lemma extractResourceName_last_segment path name :
  Contains name "/" = false →
  extractResourceName (path +:+ "/" +:+ name) = name.
Proof.
  intros Hno. unfold extractResourceName, Split.
  change (path +:+ "/" +:+ name) with (path +:+ String "/" name).
  by rewrite (last_splitFrom_slash "" path name Hno).
Qed.

Lemma extractResourceType_compute asset :
  Contains asset "cloudresourcemanager.googleapis.com/projects" = false →
  Contains asset "cloudresourcemanager.googleapis.com/organizations" = false →
  Contains asset "compute.googleapis.com" = true →
  extractResourceType asset = "vm".
Proof. intros Hp Ho Hc. unfold extractResourceType. by rewrite Hp, Ho, Hc. Qed.

Lemma trackResource_keeps resourceID resourcesMap rid resource :
  resourcesMap !! rid = Some resource →
  trackResource resourceID resourcesMap !! rid = Some resource.
Proof.
  intros Hin. unfold trackResource.
  destruct (resourcesMap !! resourceID) eqn:Hid; [done|].
  rewrite lookup_insert_ne; [done | congruence].
Qed.

Lemma zoneVMs_elem_of (w : World) zone instance :
  instance ∈ (ListInstances w zone).1 → vmResource w zone instance ∈ zoneVMs w zone.
Proof.
  intros Hin. unfold zoneVMs. by apply (list_elem_of_fmap_2 (vmResource w zone)).
Qed.

(** C2 as the specification words it does not hold: the decimal id 4242 and
    the asset name of the same VM are given different (type, name) pairs, and
    the matrix computed for [vmWorld] lists two resources named vm-1, one
    under each identifier. *)
Lemma numeric_id_not_joined :
  (extractResourceType (itoa 4242), extractResourceName (itoa 4242))
  ≠ (extractResourceType vm1Asset, extractResourceName vm1Asset) ∧
  ∃ m, GetAccessMatrix keyOrder vmWorld = (Some m, None) ∧
       ID <$> filter (λ resource, Name resource = "vm-1") (Resources m)
       = [vm1Asset; "4242"].
Proof.
  split.
  - vm_compute. discriminate.
  - eexists. split; [reflexivity|]. vm_compute. reflexivity.
Qed.

(** ** The principal list *)

Lemma take_drop n (s : string) : take n s +:+ drop n s = s.
Proof.
  revert s. induction n as [|n IH]; intros [|c s]; try done.
  simpl. by rewrite append_cons, IH.
Qed.

Lemma known_prefix n (member prefix : string) :
  bool_decide (n < String.length member) && String.eqb (take n member) prefix = true →
  member = prefix +:+ drop n member.
Proof.
  intros [_ Heq%String.eqb_eq]%andb_true_iff.
  by rewrite <- Heq, take_drop.
Qed.

(** [parseUser] loses nothing: the member can be read back. *)
Lemma memberOf_parseUser member : memberOf (parseUser member) = member.
Proof.
  unfold parseUser, memberOf.
  repeat case_match; simpl; try done;
    match goal with H : _ && _ = true |- _ => by apply known_prefix in H end.
Qed.

#[global] Instance parseUser_inj : Inj (=) (=) parseUser.
Proof.
  intros m1 m2 Heq.
  by rewrite <- (memberOf_parseUser m1), <- (memberOf_parseUser m2), Heq.
Qed.

Lemma foldl_addMember_lookup members usersMap key :
  foldl addMember usersMap members !! key
  = match usersMap !! key with
    | Some user => Some user
    | None => if decide (key ∈ members) then Some (parseUser key) else None
    end.
Proof.
  revert usersMap. induction members as [|member members IH]; intros um.
  - simpl. by destruct (um !! key).
  - simpl. rewrite IH. unfold addMember.
    destruct (decide (member = key)) as [->|Hne].
    + destruct (um !! key) eqn:Hk; [by rewrite Hk|].
      rewrite lookup_insert_eq. rewrite decide_True; [done | by left].
    + assert (key ∈ member :: members ↔ key ∈ members) as Hiff.
      { rewrite elem_of_cons. logic. }
      assert ((if decide (key ∈ member :: members) then Some (parseUser key) else None)
              = (if decide (key ∈ members) then Some (parseUser key) else None)) as ->.
      { repeat case_decide; logic. }
      destruct (um !! member); [done|]. by rewrite lookup_insert_ne.
Qed.

Lemma collectMembers_flat bindings :
  collectMembers bindings = foldl addMember ∅ (concat (Members <$> bindings)).
Proof.
  unfold collectMembers. generalize (∅ : gmap string User).
  induction bindings as [|b bs IH]; intros um; [done|].
  simpl. by rewrite foldl_app, IH.
Qed.

Lemma collectMembers_lookup bindings key user :
  collectMembers bindings !! key = Some user ↔
  key ∈ concat (Members <$> bindings) ∧ user = parseUser key.
Proof.
  rewrite collectMembers_flat, foldl_addMember_lookup, lookup_empty.
  case_decide; logic.
Qed.

Section Principals.
Variable o : RangeOrder.
Hypothesis o_ok : range_ok o.

Lemma GetUsers_elem_of (w : World) bindings user :
  ProjectPolicy w = inr bindings →
  user ∈ (GetUsers o w).1 ↔
  ∃ binding member,
    binding ∈ bindings ∧ member ∈ Members binding ∧ user = parseUser member.
Proof.
  intros Hpol. unfold GetUsers. rewrite Hpol. simpl.
  rewrite (o_ok _ _ _). rewrite list_elem_of_fmap. split.
  - intros ([key user'] & -> & Hin). simpl.
    apply elem_of_map_to_list, collectMembers_lookup in Hin as [Hin ->].
    apply list_elem_of_In, in_concat in Hin as (members & Hmembers & Hin).
    apply list_elem_of_In, list_elem_of_fmap in Hmembers as (binding & -> & Hb).
    exists binding, key. split; [done|]. split; [by apply list_elem_of_In | done].
  - intros (binding & member & Hb & Hm & ->).
    exists (member, parseUser member). split; [done|].
    apply elem_of_map_to_list, collectMembers_lookup. split; [|done].
    apply list_elem_of_In, in_concat. exists (Members binding).
    split; apply list_elem_of_In; [by apply list_elem_of_fmap_2 | done].
Qed.

Lemma GetUsers_NoDup (w : World) : NoDup (GetUsers o w).1.
Proof.
  unfold GetUsers. destruct (ProjectPolicy w) as [err|bindings]; simpl.
  { constructor. }
  rewrite (o_ok _ _ _).
  assert ((map_to_list (collectMembers bindings)).*2
          = parseUser <$> (map_to_list (collectMembers bindings)).*1) as ->.
  { rewrite <- list_fmap_compose. apply list_fmap_ext.
    intros i [key user] Hin%list_elem_of_lookup_2. simpl.
    apply elem_of_map_to_list, collectMembers_lookup in Hin.
    by destruct Hin. }
  apply NoDup_fmap_2; [apply _ | apply NoDup_fst_map_to_list].
Qed.

End Principals.

Lemma isValid_insert validUsers email email' :
  isValid (<[email := true]> validUsers) email' = true ↔
  email' = email ∨ isValid validUsers email' = true.
Proof.
  unfold isValid. rewrite lookup_insert. case_decide; simpl; logic.
Qed.

Lemma isValid_init users0 email :
  isValid (foldl (λ valid user, <[Email user := true]> valid) ∅ users0) email = true ↔
  email ∈ Email <$> users0.
Proof.
  assert (∀ valid,
            isValid (foldl (λ valid user, <[Email user := true]> valid) valid users0)
                    email = true ↔
            isValid valid email = true ∨ email ∈ Email <$> users0) as Hgen.
  { induction users0 as [|user users0 IH]; intros valid; simpl.
    - rewrite elem_of_nil. logic.
    - rewrite IH, isValid_insert, elem_of_cons. logic. }
  rewrite Hgen. unfold isValid. rewrite lookup_empty. simpl. logic.
Qed.

Lemma usersInv_init (w : World) users0 : usersInv users0 (initReducer w users0).
Proof.
  split; [|split]; simpl.
  - intros email. apply isValid_init.
  - exists []. rewrite app_nil_r. split; [done|]. split; [constructor|].
    by intros user ?%elem_of_nil.
  - intros key entry. by rewrite lookup_empty.
Qed.

Lemma recordAccess_lookup resourceID role user accessMap key entry :
  recordAccess resourceID role user accessMap !! key = Some entry →
  accessMap !! key = Some entry ∨ UserEmail entry = Email user.
Proof.
  unfold recordAccess.
  destruct (accessMap !! accessKey _ _ _) eqn:Hkey; [by left|].
  rewrite lookup_insert. case_decide; [|by left].
  intros [= <-]. by right.
Qed.

Lemma addBindingMember_usersInv users0 resourceID role st member :
  usersInv users0 st → usersInv users0 (addBindingMember resourceID role st member).
Proof.
  intros (Hvalid & (added & Husers & Hnodup & Hfresh) & Haccess).
  unfold addBindingMember.
  set (user := parseUser member).
  destruct (isValid (validUsers st) (Email user)) eqn:Hknown.
  - split; [|split]; simpl; [done | by exists added |].
    intros key entry [Hold| ->]%recordAccess_lookup; [by eapply Haccess|].
    by apply Hvalid.
  - assert (Email user ∉ Email <$> users st) as Hnew.
    { rewrite <- Hvalid. congruence. }
    split; [|split]; simpl.
    + intros email. rewrite isValid_insert, Hvalid, fmap_app, elem_of_app.
      simpl. rewrite list_elem_of_singleton. logic.
    + exists (added ++ [user]). rewrite Husers, app_assoc. split; [done|].
      rewrite Husers, fmap_app, elem_of_app in Hnew.
      split.
      * rewrite fmap_app. apply NoDup_app. split; [done|]. split.
        -- intros email Hin [->|[]%elem_of_nil]%elem_of_cons. logic.
        -- simpl. apply NoDup_singleton.
      * intros u [Hu| ->%list_elem_of_singleton]%elem_of_app; logic.
    + intros key entry Hin. rewrite fmap_app, elem_of_app.
      apply recordAccess_lookup in Hin as [Hold| ->].
      * left. by eapply Haccess.
      * right. simpl. by left.
Qed.

Lemma processPolicy_usersInv users0 st policy :
  usersInv users0 st → usersInv users0 (processPolicy st policy).
Proof.
  intros Hinv. unfold processPolicy.
  set (st1 := mkReducer _ _ _ _).
  assert (usersInv users0 st1) as Hinv1 by done.
  clearbody st1. clear Hinv. revert st1 Hinv1.
  induction (PolicyBindings policy) as [|binding bindings IH]; intros st1 Hinv1;
    [done|].
  simpl. apply IH.
  generalize (Members binding). intros members. revert st1 Hinv1.
  induction members as [|member members IHm]; intros st1 Hinv1; [done|].
  simpl. by apply IHm, addBindingMember_usersInv.
Qed.

Lemma policies_usersInv users0 st policies :
  usersInv users0 st → usersInv users0 (foldl processPolicy st policies).
Proof.
  revert st. induction policies as [|policy policies IH]; intros st Hinv; [done|].
  simpl. by apply IH, processPolicy_usersInv.
Qed.

(** The reducer state that a successful run hands to [assemble]. *)
Lemma GetAccessMatrix_Some (o : RangeOrder) (w : World) m :
  GetAccessMatrix o w = (Some m, None) →
  let st := foldl processPolicy (initReducer w (GetUsers o w).1)
                  (SearchAllIamPolicies w).1 in
  m = assemble o w st ∧ usersInv (GetUsers o w).1 st.
Proof.
  unfold GetAccessMatrix.
  destruct (GetUsers o w) as [users0 [err|]] eqn:Husers; [done|].
  destruct (NewAssetClient w); [done|].
  destruct (SearchAllIamPolicies w).2; [|done].
  intros [= <-]. simpl. split; [done|].
  apply policies_usersInv, usersInv_init.
Qed.

(** C8 (as the code has it). In the matrix of a successful run the principal
    list has no principal twice.  It is the directory's principals followed
    by those first met in the policy search.  The directory contributes one
    principal for each distinct member string of the project policy (so one
    identifier under two prefixes gives two principals); a principal is
    appended from the policy search only when no principal listed so far has
    its identifier. *)
Theorem principals_unique (o : RangeOrder) (w : World) m :
  range_ok o →
  GetAccessMatrix o w = (Some m, None) →
  NoDup (Users m) ∧
  (∀ bindings user,
     ProjectPolicy w = inr bindings →
     user ∈ (GetUsers o w).1 ↔
     ∃ binding member,
       binding ∈ bindings ∧ member ∈ Members binding ∧ user = parseUser member) ∧
  ∃ fromSearch,
    Users m = (GetUsers o w).1 ++ fromSearch ∧
    NoDup (Email <$> fromSearch) ∧
    ∀ user, user ∈ fromSearch → Email user ∉ Email <$> (GetUsers o w).1.
Proof.
  intros Hok Hrun.
  apply GetAccessMatrix_Some in Hrun
    as [-> (_ & (added & Husers & Hnodup & Hfresh) & _)].
  simpl. rewrite Husers. split; [|split].
  - apply NoDup_app. split; [by apply GetUsers_NoDup|]. split.
    + intros user Hdir Hadd. apply (Hfresh user Hadd).
      by apply list_elem_of_fmap_2.
    + by apply NoDup_fmap_1 in Hnodup.
  - intros bindings user Hpol. by apply GetUsers_elem_of.
  - by exists added.
Qed.

Lemma principals_unique_witness :
  NoDup [ {| Email := "ops@example.com"; UType := "group" |};
          {| Email := "ops@example.com"; UType := "user" |};
          {| Email := "alice@example.com"; UType := "user" |} ].
Proof.
  refine (proj1 (principals_unique keyOrder twoKindsWorld
                   (assemble keyOrder twoKindsWorld
                      (foldl processPolicy
                         (initReducer twoKindsWorld (GetUsers keyOrder twoKindsWorld).1)
                         (SearchAllIamPolicies twoKindsWorld).1))
                   keyOrder_ok _)).
  vm_compute. reflexivity.
Defined.

(** C8 as the specification words it does not hold: for [twoKindsWorld] the
    principal list has the identifier ops@example.com twice. *)
Lemma identifier_listed_twice :
  ¬ (∀ (o : RangeOrder) (w : World) m,
       range_ok o →
       GetAccessMatrix o w = (Some m, None) →
       NoDup (Email <$> Users m)).
Proof.
  intros Hclaim.
  specialize (Hclaim keyOrder twoKindsWorld _ keyOrder_ok eq_refl).
  vm_compute in Hclaim.
  apply NoDup_cons_1_1 in Hclaim. apply Hclaim. left.
Qed.

(** ** Grouping: the principals of the access entries *)

Lemma HasPrefix_colons c (email rest : string) :
  HasPrefix (String c (email +:+ ":")) "::" = false →
  HasPrefix (String c (email +:+ "::" +:+ rest)) "::" = false.
Proof.
  unfold HasPrefix. destruct email as [|d email].
  - rewrite !append_nil_l.
    change ("::" +:+ rest) with (String ":" (":" +:+ rest)).
    rewrite !prefix_cons. by destruct (ascii_dec ":" c).
  - rewrite !append_cons, !prefix_cons, !prefix_empty.
    by destruct (ascii_dec ":" c), (ascii_dec ":" d).
Qed.

(** Cutting a pair key at "::" gives back the identifier as first piece. *)
Lemma splitFrom_pairKey cur email rest :
  noSeparator email →
  splitFrom "::" 0 cur (email +:+ "::" +:+ rest)
  = (cur +:+ email) :: splitFrom "::" 0 "" rest.
Proof.
  unfold noSeparator. revert cur.
  induction email as [|c email IH]; intros cur Hclean.
  - rewrite append_nil_l, append_nil_r.
    change ("::" +:+ rest) with (String ":" (":" +:+ rest)).
    cbn [splitFrom]. unfold HasPrefix at 1. simpl. by rewrite prefix_empty.
  - rewrite append_cons in Hclean.
    apply Contains_cons_false in Hclean as [Hhead Hclean].
    rewrite append_cons. cbn [splitFrom].
    rewrite (HasPrefix_colons c email rest Hhead), IH by done.
    by rewrite append_assoc.
Qed.

Lemma Split_pairKey userEmail resourceID :
  noSeparator userEmail →
  Split (pairKey userEmail resourceID) "::" = userEmail :: Split resourceID "::".
Proof. intros Hclean. unfold Split, pairKey. by rewrite splitFrom_pairKey. Qed.

Lemma collectProjectAccess_holder projectResourceID entries userEmail :
  is_Some (collectProjectAccess projectResourceID entries !! userEmail) →
  ∃ kv, kv ∈ entries ∧ UserEmail kv.2 = userEmail.
Proof.
  unfold collectProjectAccess.
  assert (∀ byUser,
            is_Some (foldl (λ byUser kv,
                              if decide (ResourceID kv.2 = projectResourceID)
                              then <[UserEmail kv.2 :=
                                       rolesOf byUser (UserEmail kv.2)
                                       ++ [role0 kv.2]]> byUser
                              else byUser) byUser entries !! userEmail) →
            is_Some (byUser !! userEmail) ∨
            ∃ kv, kv ∈ entries ∧ UserEmail kv.2 = userEmail) as Hgen.
  { induction entries as [|kv kvs IH]; intros byUser; simpl; [by left|].
    intros [Hold|(kv' & Hin & Hkv)]%IH.
    - case_decide; [|by left].
      destruct (decide (UserEmail kv.2 = userEmail)) as [Heq|Hne].
      + right. exists kv. split; [by left | done].
      + left. by rewrite lookup_insert_ne in Hold.
    - right. exists kv'. split; [by right | done]. }
  intros [Hempty|Hfound]%Hgen; [|done].
  rewrite lookup_empty in Hempty. by destruct Hempty.
Qed.

Lemma groupRoles_key entries key :
  is_Some (groupRoles entries !! key) ↔
  ∃ kv, kv ∈ entries ∧ key = pairKey (UserEmail kv.2) (ResourceID kv.2).
Proof.
  unfold groupRoles.
  assert (∀ grouped,
            is_Some (foldl (λ userResourceRoles kv,
                              <[pairKey (UserEmail kv.2) (ResourceID kv.2) :=
                                  rolesOf userResourceRoles
                                          (pairKey (UserEmail kv.2) (ResourceID kv.2))
                                  ++ [role0 kv.2]]> userResourceRoles)
                           grouped entries !! key) ↔
            is_Some (grouped !! key) ∨
            ∃ kv, kv ∈ entries ∧ key = pairKey (UserEmail kv.2) (ResourceID kv.2))
    as Hgen.
  { induction entries as [|kv kvs IH]; intros grouped; simpl.
    - split; [by left|]. intros [?|(kv & []%elem_of_nil & _)]; done.
    - rewrite IH, lookup_insert_is_Some. split.
      + intros [[Heq|[_ Hold]]|(kv' & Hin & Hkey)].
        * right. exists kv. split; [by left | done].
        * by left.
        * right. exists kv'. split; [by right | done].
      + intros [Hold|(kv' & [->|Hin]%elem_of_cons & Hkey)].
        * destruct (decide (pairKey (UserEmail kv.2) (ResourceID kv.2) = key));
            left; [by left | by right].
        * left. by left.
        * right. by exists kv'. }
  rewrite Hgen, lookup_empty. split; [|by right].
  intros [[? [=]]|?]; done.
Qed.

Lemma emitEntry_elem_of resourcesMap grouped accessEntries entry :
  entry ∈ foldl (emitEntry resourcesMap) accessEntries grouped ↔
  entry ∈ accessEntries ∨
  ∃ kv resource,
    kv ∈ grouped ∧
    Split kv.1 "::" = [UserEmail entry; ResourceID entry] ∧
    resourcesMap !! ResourceID entry = Some resource ∧
    entry = {| UserEmail := UserEmail entry; ResourceID := ResourceID entry;
               ResourceName := Name resource; ResourceType := RType resource;
               Roles := kv.2 |}.
Proof.
  revert accessEntries. induction grouped as [|kv kvs IH]; intros acc; simpl.
  - split; [by left|]. intros [?|(kv & res & []%elem_of_nil & _)]; done.
  - rewrite IH. unfold emitEntry.
    split.
    + intros [Hacc|(kv' & res & Hin & Hrest)].
      * destruct (Split kv.1 "::") as [|u [|r [|? ?]]] eqn:Hsplit; try by left.
        destruct (resourcesMap !! r) as [res|] eqn:Hres; [|by left].
        apply elem_of_app in Hacc as [Hacc| ->%list_elem_of_singleton]; [by left|].
        right. exists kv, res. split; [by left|]. done.
      * right. exists kv', res. split; [by right | done].
    + intros [Hacc|(kv' & res & [->|Hin]%elem_of_cons & Hsplit & Hres & Hentry)].
      * left. destruct (Split kv.1 "::") as [|u [|r [|? ?]]]; try done.
        destruct (resourcesMap !! r); [|done]. apply elem_of_app. by left.
      * left. rewrite Hsplit, Hres. apply elem_of_app. right.
        rewrite Hentry at 1. by left.
      * right. by exists kv', res.
Qed.

Section Completeness.
Variable o : RangeOrder.
Hypothesis o_ok : range_ok o.
Variable w : World.

(** Where the access entries of the result come from: each is read off a
    key that pairs the principal and the resource of some entry of the
    access map. *)
Lemma assemble_access_source st entry :
  entry ∈ Access (assemble o w st) →
  ∃ key source resource,
    inheritedAccessMap o w st !! key = Some source ∧
    Split (pairKey (UserEmail source) (ResourceID source)) "::"
    = [UserEmail entry; ResourceID entry] ∧
    resourcesMap st !! ResourceID entry = Some resource.
Proof.
  unfold assemble. cbn [Access]. rewrite emitEntry_elem_of.
  intros [[]%elem_of_nil|([pair roles] & resource & Hin & Hsplit & Hres & Hentry)].
  apply (range_lookup o), mk_is_Some, groupRoles_key in Hin
    as ([key source] & Hsrc & Hkey); [|done].
  apply (range_lookup o) in Hsrc; [|done]. simpl in *. subst pair.
  by exists key, source, resource.
Qed.

Lemma assemble_access_emitted st key source userEmail resourceID resource :
  inheritedAccessMap o w st !! key = Some source →
  Split (pairKey (UserEmail source) (ResourceID source)) "::"
  = [userEmail; resourceID] →
  resourcesMap st !! resourceID = Some resource →
  ∃ roles,
    {| UserEmail := userEmail; ResourceID := resourceID;
       ResourceName := Name resource; ResourceType := RType resource;
       Roles := roles |} ∈ Access (assemble o w st).
Proof.
  intros Hsrc Hsplit Hres.
  assert (is_Some (groupRoles (o _ ["accessMap"; "group"] (inheritedAccessMap o w st))
                     !! pairKey (UserEmail source) (ResourceID source)))
    as [roles Hroles].
  { apply groupRoles_key. exists (key, source). split; [|done].
    by apply (range_lookup o). }
  exists roles. unfold assemble. cbn [Access]. apply emitEntry_elem_of. right.
  exists (pairKey (UserEmail source) (ResourceID source), roles), resource.
  split; [by apply (range_lookup o)|]. done.
Qed.

(** Every entry of the access map after the inheritance step names a
    principal of the list. *)
Lemma inheritedAccessMap_principals users0 st key source :
  usersInv users0 st →
  inheritedAccessMap o w st !! key = Some source →
  UserEmail source ∈ Email <$> users st.
Proof.
  intros (_ & _ & Haccess) Hsrc.
  apply resolveInherited_extends in Hsrc as [Hold|(_ & _ & Hholder & _)].
  - by eapply Haccess.
  - apply list_elem_of_fmap in Hholder as ([userEmail roles] & -> & Hin).
    apply (range_lookup o), mk_is_Some, collectProjectAccess_holder in Hin
      as ([key' entry] & Hentry & <-); [|done].
    apply (range_lookup o) in Hentry; [|done]. by eapply Haccess.
Qed.

(** X25. Completeness of the principal list, for identifiers that cannot be
    confused with the key separator: every access entry of a successful
    run names a principal of the list. *)
Theorem principals_complete m :
  GetAccessMatrix o w = (Some m, None) →
  (∀ user, user ∈ Users m → noSeparator (Email user)) →
  ∀ entry, entry ∈ Access m → UserEmail entry ∈ Email <$> Users m.
Proof.
  intros [-> Hinv]%GetAccessMatrix_Some Hclean entry Hentry.
  apply assemble_access_source in Hentry
    as (key & source & resource & Hsrc & Hsplit & _).
  pose proof (inheritedAccessMap_principals _ _ _ _ Hinv Hsrc) as Hprincipal.
  apply list_elem_of_fmap in Hprincipal as (user & Hemail & Huser).
  rewrite Split_pairKey in Hsplit.
  - injection Hsplit as <- _. simpl. rewrite Hemail. by apply list_elem_of_fmap_2.
  - rewrite Hemail. by apply Hclean.
Qed.

End Completeness.

(** For instance in [twoKindsWorld], whose identifiers are e-mail addresses. *)
Lemma principals_complete_witness :
  Forall (λ entry,
            UserEmail entry ∈ ["ops@example.com"; "ops@example.com"; "alice@example.com"])
         (Access (assemble keyOrder twoKindsWorld
                    (foldl processPolicy
                       (initReducer twoKindsWorld (GetUsers keyOrder twoKindsWorld).1)
                       (SearchAllIamPolicies twoKindsWorld).1))).
Proof.
  apply Forall_forall.
  apply (principals_complete keyOrder keyOrder_ok twoKindsWorld); [reflexivity|].
  intros user Hin. vm_compute in Hin.
  repeat (apply elem_of_cons in Hin as [->|Hin]); try reflexivity.
  by apply elem_of_nil in Hin.
Defined.

(** Some hypothesis on the identifiers is needed.  [danglingWorld] tracks a
    resource whose id starts with ":" (no cloud API writes such an id): in
    whatever order the maps are visited, the run succeeds, the principal list
    is the single principal "a:", and an access entry names the principal
    "a", which is not in the list.  The pair key of the grant, "a:" followed
    by "::" and "b", is cut at its first "::", which gives the principal "a"
    and the resource ":b". *)
Theorem dangling_principal (o : RangeOrder) :
  range_ok o →
  ∃ m entry,
    GetAccessMatrix o danglingWorld = (Some m, None) ∧
    Users m = [ {| Email := "a:"; UType := "user" |} ] ∧
    entry ∈ Access m ∧
    UserEmail entry = "a" ∧
    UserEmail entry ∉ Email <$> Users m.
Proof.
  intros o_ok.
  destruct (GetAccessMatrix o danglingWorld) as [[m|] [err|]] eqn:Hrun;
    try (unfold GetAccessMatrix, GetUsers in Hrun; simpl in Hrun; discriminate Hrun).
  pose proof Hrun as [-> Hinv]%GetAccessMatrix_Some.
  assert ((GetUsers o danglingWorld).1 = []) as Husers0.
  { unfold GetUsers. simpl.
    apply Permutation_nil_r. by rewrite (o_ok _ _ _). }
  rewrite Husers0 in *.
  set (st := foldl processPolicy (initReducer danglingWorld []) _) in *.
  assert (users st = [ {| Email := "a:"; UType := "user" |} ]) as Husers
    by (vm_compute; reflexivity).
  destruct (assemble_access_emitted o o_ok danglingWorld st
              (accessKey "a:" "b" "roles/viewer")
              {| UserEmail := "a:"; ResourceID := "b"; ResourceName := "b";
                 ResourceType := "other"; Roles := ["roles/viewer"] |}
              "a" ":b"
              {| ID := ":b"; Name := ":b"; RType := "other"; Location := "global";
                 IAM := ∅ |}) as [roles Hentry].
  - apply resolveInherited_keeps. vm_compute. reflexivity.
  - vm_compute. reflexivity.
  - vm_compute. reflexivity.
  - eexists _, _. split; [done|]. split; [done|]. split; [exact Hentry|].
    split; [done|].
    change (Users (assemble o danglingWorld st)) with (users st).
    rewrite Husers. cbn. by intros [=]%list_elem_of_singleton.
Qed.

Lemma dangling_principal_witness :
  ∃ m entry,
    GetAccessMatrix keyOrder danglingWorld = (Some m, None) ∧
    Users m = [ {| Email := "a:"; UType := "user" |} ] ∧
    entry ∈ Access m ∧
    UserEmail entry = "a" ∧
    UserEmail entry ∉ Email <$> Users m.
Proof. apply (dangling_principal keyOrder). intros A lbl m. reflexivity. Defined.

(** * Further properties of the code *)

(** ** [parseUser], read backwards *)

(** X1. [parseUser] is injective: two member strings that parse to the same
    principal are the same string, which is the principal's prefix (none for
    kind other) followed by its identifier. *)
Theorem parseUser_reversible member1 member2 :
  parseUser member1 = parseUser member2 →
  member1 = member2 ∧ memberOf (parseUser member1) = member2.
Proof.
  intros Heq. assert (member1 = member2) as -> by by apply parseUser_inj.
  split; [done|]. apply memberOf_parseUser.
Qed.

Lemma parseUser_reversible_witness :
  "group:ops@example.com" = "group:ops@example.com" ∧
  memberOf (parseUser "group:ops@example.com") = "group:ops@example.com".
Proof.
  apply (parseUser_reversible "group:ops@example.com" "group:ops@example.com").
  reflexivity.
Defined.

(** ** Resource types that inherit *)

Lemma getApplicableResourceTypes_listed role type :
  type ∈ getApplicableResourceTypes role → type ∈ allTypes.
Proof.
  unfold getApplicableResourceTypes, allTypes.
  repeat case_match; intros Hin;
    repeat (apply elem_of_cons in Hin as [->|Hin]; [by repeat constructor|]);
    by apply elem_of_nil in Hin.
Qed.

(** X2. Whatever the role, only the seven resource types of the table can be
    applicable: for a resource of any other type (an organization, a service
    typed by its host name, "other") the body of the inheritance loop leaves
    the access map as it is. *)
Theorem unlisted_type_never_inherits role (resource : Resource) :
  RType resource ∉ allTypes →
  contains (getApplicableResourceTypes role) (RType resource) = false ∧
  ∀ projectResourceID userEmail accessMap resourceID,
    inheritOne projectResourceID userEmail role accessMap (resourceID, resource)
    = accessMap.
Proof.
  intros Hother.
  assert (contains (getApplicableResourceTypes role) (RType resource) = false) as Hno.
  { apply not_true_is_false. intros Hin%contains_elem_of.
    by apply Hother, (getApplicableResourceTypes_listed role). }
  split; [done|]. intros pid userEmail am rid.
  unfold inheritOne. simpl. rewrite Hno. by case_decide.
Qed.

Lemma unlisted_type_never_inherits_witness :
  contains (getApplicableResourceTypes "roles/owner") (RType organization1) = false ∧
  ∀ projectResourceID userEmail accessMap resourceID,
    inheritOne projectResourceID userEmail "roles/owner" accessMap
               (resourceID, organization1) = accessMap.
Proof.
  apply (unlisted_type_never_inherits "roles/owner" organization1).
  unfold allTypes. simpl.
  intros Hin. repeat (apply elem_of_cons in Hin as [Heq|Hin]; [discriminate Heq|]).
  by apply elem_of_nil in Hin.
Defined.

(** ** Per-resource policies *)

(** X3. [resource.IAM[role] = members] for each binding in turn: when several
    bindings of a policy carry the same role, the members of the last one
    replace the earlier ones (they are not merged); a role that no binding
    carries keeps what the map had. *)
Theorem setBindings_last_wins iam bindings role :
  setBindings iam bindings !! role
  = match last (filter (λ binding, Role binding = role) bindings) with
    | Some binding => Some (Members binding)
    | None => iam !! role
    end.
Proof.
  unfold setBindings. revert iam.
  induction bindings as [|binding bindings IH]; intros iam; [done|].
  simpl. rewrite IH, filter_cons.
  destruct (decide (Role binding = role)) as [Heq|Hne].
  - rewrite last_cons.
    destruct (last (filter _ bindings)); [done|].
    by rewrite <- Heq, lookup_insert_eq.
  - destruct (last (filter _ bindings)); [done|].
    by rewrite lookup_insert_ne.
Qed.

(** ** Cutting at a one-byte separator *)

Section OneByteSeparator.
Variable c : ascii.

Lemma HasPrefix_byte_eq (s : string) : HasPrefix (String c s) (String c "") = true.
Proof.
  unfold HasPrefix. rewrite prefix_cons, prefix_empty.
  by destruct (ascii_dec c c).
Qed.

Lemma HasPrefix_byte_ne a (s : string) :
  a ≠ c → HasPrefix (String a s) (String c "") = false.
Proof.
  intros Hne. unfold HasPrefix. rewrite prefix_cons.
  destruct (ascii_dec c a); [congruence | done].
Qed.

Lemma HasPrefix_byte_false a (s : string) :
  HasPrefix (String a s) (String c "") = false → a ≠ c.
Proof. intros Hno ->. by rewrite HasPrefix_byte_eq in Hno. Qed.

Lemma Contains_cons a (s sub : string) :
  Contains (String a s) sub = HasPrefix (String a s) sub || Contains s sub.
Proof. reflexivity. Qed.

Lemma Contains_snoc_byte (cur : string) a :
  Contains cur (String c "") = false → a ≠ c →
  Contains (cur +:+ String a "") (String c "") = false.
Proof.
  intros Hcur Hne. induction cur as [|b cur IH].
  - rewrite append_nil_l, Contains_cons. by rewrite HasPrefix_byte_ne.
  - apply Contains_cons_false in Hcur as [Hhead Hcur].
    rewrite append_cons, Contains_cons, IH by done.
    rewrite HasPrefix_byte_ne; [done|]. by apply HasPrefix_byte_false in Hhead.
Qed.

Lemma Contains_app_byte (s1 s2 : string) :
  Contains s1 (String c "") = false → Contains s2 (String c "") = false →
  Contains (s1 +:+ s2) (String c "") = false.
Proof.
  intros H1 H2. induction s1 as [|b s1 IH]; [done|].
  apply Contains_cons_false in H1 as [Hhead H1].
  rewrite append_cons, Contains_cons, IH by done.
  rewrite HasPrefix_byte_ne; [done|]. by apply HasPrefix_byte_false in Hhead.
Qed.

(** No piece contains the separator. *)
Lemma splitFrom_byte_pieces cur s :
  Contains cur (String c "") = false →
  Forall (λ piece, Contains piece (String c "") = false)
         (splitFrom (String c "") 0 cur s).
Proof.
  revert cur. induction s as [|a s IH]; intros cur Hcur.
  - simpl. by constructor.
  - cbn [splitFrom]. destruct (HasPrefix _ _) eqn:Hhead.
    + constructor; [done|]. by apply IH.
    + apply IH, Contains_snoc_byte; [done|]. by apply HasPrefix_byte_false in Hhead.
Qed.

(** The first piece of a string that starts with a separator-free part. *)
Lemma splitFrom_byte_first cur first rest :
  Contains first (String c "") = false →
  splitFrom (String c "") 0 cur (first +:+ String c rest)
  = (cur +:+ first) :: splitFrom (String c "") 0 "" rest.
Proof.
  revert cur. induction first as [|a first IH]; intros cur Hfirst.
  - rewrite append_nil_l, append_nil_r. cbn [splitFrom].
    by rewrite HasPrefix_byte_eq.
  - apply Contains_cons_false in Hfirst as [Hhead Hfirst].
    rewrite append_cons. cbn [splitFrom].
    rewrite HasPrefix_byte_ne by by apply HasPrefix_byte_false in Hhead.
    by rewrite IH, append_assoc.
Qed.

Lemma head_splitFrom_byte_app cur first s :
  Contains first (String c "") = false →
  head (splitFrom (String c "") 0 cur (first +:+ s))
  = head (splitFrom (String c "") 0 (cur +:+ first) s).
Proof.
  revert cur. induction first as [|a first IH]; intros cur Hfirst.
  - by rewrite append_nil_l, append_nil_r.
  - apply Contains_cons_false in Hfirst as [Hhead Hfirst].
    rewrite append_cons. cbn [splitFrom].
    rewrite HasPrefix_byte_ne by by apply HasPrefix_byte_false in Hhead.
    by rewrite IH, append_assoc.
Qed.

End OneByteSeparator.

(** The first piece begins with what was read so far: [Split] never returns
    the empty list. *)
Lemma head_splitFrom (sep cur s : string) :
  ∃ more, head (splitFrom sep 0 cur s) = Some (cur +:+ more).
Proof.
  revert cur. induction s as [|a s IH]; intros cur.
  - exists "". simpl. by rewrite append_nil_r.
  - cbn [splitFrom]. destruct (HasPrefix _ _).
    + exists "". simpl. by rewrite append_nil_r.
    + destruct (IH (cur +:+ String a "")) as [more Hmore].
      exists (String a more). by rewrite Hmore, append_assoc.
Qed.

(** ** [extractResourceName] *)

Lemma last_splitFrom_slash_cut cur s :
  Contains cur "/" = false →
  ∃ path name,
    last (splitFrom "/" 0 cur s) = Some name ∧
    Contains name "/" = false ∧
    cur +:+ s = path +:+ name ∧
    (path = "" ∨ ∃ parent, path = parent +:+ "/").
Proof.
  revert cur. induction s as [|a s IH]; intros cur Hcur.
  - exists "", cur. simpl. rewrite append_nil_r. by eauto.
  - cbn [splitFrom]. destruct (HasPrefix _ _) eqn:Hhead.
    + destruct (IH "" eq_refl) as (path & name & Hlast & Hname & Hcut & Hpath).
      assert (a = "/"%char) as ->.
      { destruct (decide (a = "/"%char)) as [|Hne]; [done|].
        by rewrite (HasPrefix_byte_ne "/" a s Hne) in Hhead. }
      exists (cur +:+ String "/" path), name.
      cbn [String.length Nat.sub]. rewrite last_cons, Hlast.
      split; [done|]. split; [done|]. split.
      * rewrite append_nil_l in Hcut. by rewrite Hcut, append_assoc, append_cons.
      * right. destruct Hpath as [->|[parent ->]].
        -- exists cur. done.
        -- exists (cur +:+ String "/" parent). by rewrite append_assoc, append_cons.
    + destruct (IH (cur +:+ String a "")) as (path & name & Hlast & Hname & Hcut & Hpath).
      { apply Contains_snoc_byte; [done|]. by apply HasPrefix_byte_false in Hhead. }
      exists path, name. split; [done|]. split; [done|]. split; [|done].
      by rewrite <- Hcut, append_assoc.
Qed.

(** X4. The display name that [extractResourceName] gives an identifier is
    what follows its last "/": the name has no "/", and the identifier is the
    name itself or a path ending in "/" followed by the name.  (An identifier
    ending in "/" thus gets the empty name; the function's fallback for an
    empty split is never taken.) *)
Theorem extractResourceName_after_last_slash (resourceID : string) :
  Contains (extractResourceName resourceID) "/" = false ∧
  ∃ path,
    resourceID = path +:+ extractResourceName resourceID ∧
    (path = "" ∨ ∃ parent, path = parent +:+ "/").
Proof.
  unfold extractResourceName, Split.
  destruct (last_splitFrom_slash_cut "" resourceID eq_refl)
    as (path & name & -> & Hname & Hcut & Hpath).
  split; [done|]. exists path. by rewrite append_nil_l in Hcut.
Qed.

(** ** [extractResourceType] *)

Lemma head_cons_inv {A} (l : list A) x : head l = Some x → ∃ rest, l = x :: rest.
Proof. destruct l as [|y l]; [done|]. intros [= ->]. by exists l. Qed.

(** X5. For an identifier "//service.rest" in which none of the eight host
    patterns of the table occurs, [extractResourceType] answers with the first
    label of the host: the service name itself (for instance "pubsub"). *)
Theorem extractResourceType_host_label (service rest : string) :
  let resourceID := "//" +:+ service +:+ "." +:+ rest in
  Forall (λ pattern, Contains resourceID pattern = false) typePatterns →
  Contains service "/" = false →
  Contains service "." = false →
  extractResourceType resourceID = service.
Proof.
  intros resourceID Hpatterns Hslash Hdot.
  unfold typePatterns in Hpatterns. rewrite !Forall_cons in Hpatterns.
  destruct Hpatterns as (H1 & H2 & H3 & H4 & H5 & H6 & H7 & H8 & _).
  unfold extractResourceType. rewrite H1, H2, H3, H4, H5, H6, H7, H8.
  assert (HasPrefix resourceID "//" = true) as ->.
  { unfold resourceID, HasPrefix.
    change ("//" +:+ service +:+ "." +:+ rest)
      with (String "/" (String "/" (service +:+ "." +:+ rest))).
    rewrite !prefix_cons, prefix_empty. by destruct (ascii_dec "/" "/"). }
  change (drop 2 resourceID) with (service +:+ String "." rest).
  destruct (head_splitFrom "/" (service +:+ ".") rest) as [more Hhead].
  assert (head (Split (service +:+ String "." rest) "/")
          = Some ((service +:+ ".") +:+ more)) as Hpart.
  { unfold Split. rewrite <- Hhead.
    replace (service +:+ String "." rest) with ((service +:+ ".") +:+ rest)
      by by rewrite append_assoc.
    apply (head_splitFrom_byte_app "/" "" (service +:+ ".") rest).
    by apply Contains_app_byte. }
  apply head_cons_inv in Hpart as [parts ->].
  rewrite append_assoc. change ("." +:+ more) with (String "." more).
  unfold Split. by rewrite (splitFrom_byte_first "." "" service more Hdot).
Qed.

Lemma extractResourceType_host_label_witness :
  extractResourceType "//pubsub.googleapis.com/projects/demo/topics/orders" = "pubsub".
Proof.
  apply (extractResourceType_host_label "pubsub"
           "googleapis.com/projects/demo/topics/orders");
    [unfold typePatterns; repeat constructor | reflexivity..].
Defined.

(** ** What the inheritance step adds *)

Section Added.
Variable projectResourceID : string.
Variable Q : string → AccessEntry → Prop.

Lemma addsOnly_refl m : addsOnly Q m m.
Proof. intros key entry Hk. by left. Qed.

Lemma inheritOne_addsOnly userEmail role before accessMap resourceID resource :
  (resourceID ≠ projectResourceID →
   contains (getApplicableResourceTypes role) (RType resource) = true →
   Q (accessKey userEmail resourceID role)
     (inheritedEntry userEmail role resourceID resource)) →
  addsOnly Q before accessMap →
  keeps before accessMap →
  addsOnly Q before
           (inheritOne projectResourceID userEmail role accessMap (resourceID, resource)).
Proof.
  intros HQ Hadds Hkeep key entry. unfold inheritOne. simpl.
  case_decide as Hne; [by apply Hadds|].
  destruct (contains _ _) eqn:Happ; [|by apply Hadds].
  destruct (accessMap !! accessKey _ _ _) eqn:Hkey; [by apply Hadds|].
  rewrite lookup_insert. case_decide as Heq; [|by apply Hadds].
  intros [= <-]. right. subst key. split; [|by apply HQ].
  destruct (before !! accessKey userEmail resourceID role) eqn:Hb; [|done].
  apply Hkeep in Hb. congruence.
Qed.

Lemma foldl_inheritOne_addsOnly userEmail role resources before accessMap :
  (∀ resourceID resource,
     (resourceID, resource) ∈ resources →
     resourceID ≠ projectResourceID →
     contains (getApplicableResourceTypes role) (RType resource) = true →
     Q (accessKey userEmail resourceID role)
       (inheritedEntry userEmail role resourceID resource)) →
  addsOnly Q before accessMap →
  keeps before accessMap →
  addsOnly Q before
           (foldl (inheritOne projectResourceID userEmail role) accessMap resources).
Proof.
  revert accessMap.
  induction resources as [|[rid res] kvs IH]; intros am HQ Hadds Hkeep; [done|].
  simpl. apply IH.
  - intros rid' res' Hin. apply HQ. by right.
  - apply inheritOne_addsOnly; [|done..]. apply HQ. by left.
  - eapply keeps_trans; [done | apply inheritOne_keeps].
Qed.

Variable o : RangeOrder.
Variable resourcesMap : gmap string Resource.

Lemma foldl_inheritRole_addsOnly userEmail roles before accessMap :
  (∀ role resourceID resource,
     role ∈ roles →
     (resourceID, resource) ∈ o _ ["resources"; userEmail; role] resourcesMap →
     resourceID ≠ projectResourceID →
     contains (getApplicableResourceTypes role) (RType resource) = true →
     Q (accessKey userEmail resourceID role)
       (inheritedEntry userEmail role resourceID resource)) →
  addsOnly Q before accessMap →
  keeps before accessMap →
  addsOnly Q before
           (foldl (inheritRole o projectResourceID resourcesMap userEmail)
                  accessMap roles).
Proof.
  revert accessMap.
  induction roles as [|role roles IH]; intros am HQ Hadds Hkeep; [done|].
  simpl. apply IH.
  - intros role' rid res Hin. apply HQ. by right.
  - apply foldl_inheritOne_addsOnly; [|done..].
    intros rid res. apply HQ. by left.
  - eapply keeps_trans; [done | apply inheritRole_keeps].
Qed.

Lemma foldl_inheritUser_addsOnly grants before accessMap :
  (∀ userEmail roles role resourceID resource,
     (userEmail, roles) ∈ grants →
     role ∈ roles →
     (resourceID, resource) ∈ o _ ["resources"; userEmail; role] resourcesMap →
     resourceID ≠ projectResourceID →
     contains (getApplicableResourceTypes role) (RType resource) = true →
     Q (accessKey userEmail resourceID role)
       (inheritedEntry userEmail role resourceID resource)) →
  addsOnly Q before accessMap →
  keeps before accessMap →
  addsOnly Q before
           (foldl (inheritUser o projectResourceID resourcesMap) accessMap grants).
Proof.
  revert accessMap.
  induction grants as [|[userEmail roles] kvs IH]; intros am HQ Hadds Hkeep; [done|].
  simpl. apply IH.
  - intros u rs role rid res Hin. apply HQ. by right.
  - apply foldl_inheritRole_addsOnly; [|done..].
    intros role rid res. apply HQ. by left.
  - eapply keeps_trans; [done | apply inheritUser_keeps].
Qed.

End Added.

(** X6. The inheritance step is exact.  Under a key that the access map did
    not have, there is an entry afterwards if and only if the key is that of
    a project-level grant and a tracked resource, other than the project, to
    whose type the role applies; and the entry found there is the one built
    from such a grant and resource: their identifiers, the resource's name
    and type, and the single role. *)
Theorem inheritance_exact (o : RangeOrder) projectResourceID
    projectAccessByUser resourcesMap accessMap key :
  range_ok o →
  accessMap !! key = None →
  let accessMap' :=
    resolveInherited o projectResourceID projectAccessByUser resourcesMap accessMap in
  (is_Some (accessMap' !! key) ↔
   ∃ userEmail role resourceID resource,
     candidate projectResourceID projectAccessByUser resourcesMap
               userEmail role resourceID resource ∧
     key = accessKey userEmail resourceID role) ∧
  (∀ entry,
     accessMap' !! key = Some entry →
     ∃ userEmail role resourceID resource,
       candidate projectResourceID projectAccessByUser resourcesMap
                 userEmail role resourceID resource ∧
       key = accessKey userEmail resourceID role ∧
       entry = {| UserEmail := userEmail; ResourceID := resourceID;
                  ResourceName := Name resource; ResourceType := RType resource;
                  Roles := [role] |}).
Proof.
  intros Hok Hnone accessMap'.
  assert (∀ entry,
            accessMap' !! key = Some entry →
            ∃ userEmail role resourceID resource,
              candidate projectResourceID projectAccessByUser resourcesMap
                        userEmail role resourceID resource ∧
              key = accessKey userEmail resourceID role ∧
              entry = inheritedEntry userEmail role resourceID resource) as Hsound.
  { intros entry Hentry.
    pose (Q := λ (k : string) (e : AccessEntry),
            ∃ userEmail role resourceID resource,
              candidate projectResourceID projectAccessByUser resourcesMap
                        userEmail role resourceID resource ∧
              k = accessKey userEmail resourceID role ∧
              e = inheritedEntry userEmail role resourceID resource).
    assert (addsOnly Q accessMap accessMap') as Hadds.
    { apply foldl_inheritUser_addsOnly; [|apply addsOnly_refl | apply keeps_refl].
      intros userEmail roles role rid res Hgrant Hrole Hres Hne Happ.
      apply (range_lookup o) in Hgrant; [|done].
      apply (range_lookup o) in Hres; [|done].
      exists userEmail, role, rid, res. split; [|done].
      split; [by exists roles | done]. }
    destruct (Hadds key entry Hentry) as [Hold|[_ HQ]]; [congruence | exact HQ]. }
  split; [|done]. split.
  - intros [entry Hentry].
    destruct (Hsound entry Hentry) as (u & role & rid & res & Hcand & -> & _).
    by exists u, role, rid, res.
  - intros (u & role & rid & res & ((roles & Hgrant & Hrole) & Hres & Hne & Happ) & ->).
    by eapply (resolveInherited_covered projectResourceID resourcesMap o Hok).
Qed.

Lemma inheritance_exact_witness :
  let accessMap' :=
    resolveInherited keyOrder project1 projectAccess1 resources1 directAccess1 in
  let key := accessKey "alice@example.com" bucket1 "roles/viewer" in
  (is_Some (accessMap' !! key) ↔
   ∃ userEmail role resourceID resource,
     candidate project1 projectAccess1 resources1 userEmail role resourceID resource ∧
     key = accessKey userEmail resourceID role) ∧
  (∀ entry,
     accessMap' !! key = Some entry →
     ∃ userEmail role resourceID resource,
       candidate project1 projectAccess1 resources1 userEmail role resourceID resource ∧
       key = accessKey userEmail resourceID role ∧
       entry = {| UserEmail := userEmail; ResourceID := resourceID;
                  ResourceName := Name resource; ResourceType := RType resource;
                  Roles := [role] |}).
Proof.
  apply (inheritance_exact keyOrder project1 projectAccess1 resources1 directAccess1
           (accessKey "alice@example.com" bucket1 "roles/viewer") keyOrder_ok).
  vm_compute. reflexivity.
Defined.

(** ** The resource list of the result *)

Lemma populate_lookup (known : list Resource) (start : gmap string Resource) key resource :
  foldl (λ resourcesMap res, <[ID res := res]> resourcesMap) start known !! key
  = Some resource →
  start !! key = Some resource ∨ (resource ∈ known ∧ ID resource = key).
Proof.
  revert start. induction known as [|res known IH]; intros start; simpl; [by left|].
  intros [Hstart|[Hin Hid]]%IH.
  - rewrite lookup_insert in Hstart. case_decide as Heq; [|by left].
    injection Hstart as <-. right. split; [by left | done].
  - right. split; [by right | done].
Qed.

Lemma populate_covers (known : list Resource) (start : gmap string Resource) resource :
  resource ∈ known →
  ∃ kept,
    foldl (λ resourcesMap res, <[ID res := res]> resourcesMap) start known
      !! ID resource = Some kept ∧
    kept ∈ known ∧ ID kept = ID resource.
Proof.
  revert start. induction known as [|res known IH] using rev_ind; intros start Hin.
  { by apply elem_of_nil in Hin. }
  rewrite foldl_app. simpl.
  destruct (decide (ID res = ID resource)) as [Heq|Hne].
  - exists res. rewrite Heq, lookup_insert_eq. split; [done|].
    split; [|done]. apply elem_of_app. right. by left.
  - apply elem_of_app in Hin as [Hin|Hin%list_elem_of_singleton]; [|congruence].
    destruct (IH start Hin) as (kept & Hkept & Hknown & Hid).
    exists kept. rewrite lookup_insert_ne by done. split; [done|].
    split; [|done]. apply elem_of_app. by left.
Qed.

Lemma knownResourcesMap_lookup (w : World) key resource :
  knownResourcesMap w !! key = Some resource →
  resource ∈ (GetResources w).1 ∧ ID resource = key.
Proof.
  unfold knownResourcesMap. destruct (GetResources w) as [known [err|]]; [done|].
  intros [Hempty|?]%populate_lookup; [|done]. by rewrite lookup_empty in Hempty.
Qed.

Lemma knownResourcesMap_covers (w : World) known resource :
  GetResources w = (known, None) →
  resource ∈ known →
  ∃ kept, knownResourcesMap w !! ID resource = Some kept ∧
          kept ∈ known ∧ ID kept = ID resource.
Proof.
  intros Hres Hin. unfold knownResourcesMap. rewrite Hres.
  by apply populate_covers.
Qed.

Lemma trackResource_lookup resourceID resourcesMap key resource :
  trackResource resourceID resourcesMap !! key = Some resource →
  resourcesMap !! key = Some resource ∨
  (resourcesMap !! key = None ∧ key = resourceID ∧
   resource = createdResource resourceID).
Proof.
  unfold trackResource.
  destruct (resourcesMap !! resourceID) eqn:Hid; [by left|].
  rewrite lookup_insert. case_decide as Heq; [|by left].
  intros [= <-]. right. by subst.
Qed.

Lemma trackResource_tracked resourceID resourcesMap :
  is_Some (trackResource resourceID resourcesMap !! resourceID).
Proof.
  unfold trackResource.
  destruct (resourcesMap !! resourceID) eqn:Hid; [by rewrite Hid|].
  rewrite lookup_insert_eq. by eexists.
Qed.

Lemma policies_resources_keep policies st key resource :
  resourcesMap st !! key = Some resource →
  resourcesMap (foldl processPolicy st policies) !! key = Some resource.
Proof.
  revert st. induction policies as [|policy policies IH]; intros st Hin; [done|].
  simpl. apply IH. rewrite processPolicy_resourcesMap. by apply trackResource_keeps.
Qed.

Lemma policies_resources_lookup policies st key resource :
  resourcesMap (foldl processPolicy st policies) !! key = Some resource →
  resourcesMap st !! key = Some resource ∨
  (resourcesMap st !! key = None ∧
   (∃ policy, policy ∈ policies ∧ PolicyResource policy = key) ∧
   resource = createdResource key).
Proof.
  revert st. induction policies as [|policy policies IH]; intros st; simpl; [by left|].
  intros [Hstep|(Hnone & (p & Hin & Hp) & Hcreated)]%IH.
  - rewrite processPolicy_resourcesMap in Hstep.
    apply trackResource_lookup in Hstep as [Hold|(Hnone & -> & ->)]; [by left|].
    right. split; [done|]. split; [|done]. exists policy. split; [by left | done].
  - right. rewrite processPolicy_resourcesMap in Hnone.
    split.
    + destruct (resourcesMap st !! key) eqn:Hold; [|done].
      by rewrite (trackResource_keeps _ _ _ _ Hold) in Hnone.
    + split; [|done]. exists p. split; [by right | done].
Qed.

Lemma policies_resources_tracked policies st policy :
  policy ∈ policies →
  is_Some (resourcesMap (foldl processPolicy st policies) !! PolicyResource policy).
Proof.
  revert st. induction policies as [|p policies IH]; intros st Hin.
  { by apply elem_of_nil in Hin. }
  simpl. apply elem_of_cons in Hin as [->|Hin]; [|by apply IH].
  destruct (trackResource_tracked (PolicyResource p) (resourcesMap st)) as [res Hres].
  exists res. apply policies_resources_keep.
  by rewrite processPolicy_resourcesMap.
Qed.

Lemma reduced_keyedById (o : RangeOrder) (w : World) :
  keyedById (resourcesMap (reduced o w)).
Proof.
  intros key resource [Hknown|(_ & _ & ->)]%policies_resources_lookup; [|done].
  by apply knownResourcesMap_lookup in Hknown as [_ ?].
Qed.

Lemma GetAccessMatrix_reduced (o : RangeOrder) (w : World) m :
  GetAccessMatrix o w = (Some m, None) → m = assemble o w (reduced o w).
Proof. by intros [-> _]%GetAccessMatrix_Some. Qed.

Lemma Resources_elem_of (o : RangeOrder) (w : World) resource :
  range_ok o →
  resource ∈ Resources (assemble o w (reduced o w)) ↔
  resourcesMap (reduced o w) !! ID resource = Some resource.
Proof.
  intros Hok. unfold assemble. cbn [Resources].
  rewrite list_elem_of_fmap. split.
  - intros ([key res] & -> & Hin). simpl.
    apply (range_lookup o) in Hin; [|done].
    by rewrite (reduced_keyedById o w key res Hin).
  - intros Hin. exists (ID resource, resource). split; [done|].
    by apply (range_lookup o).
Qed.

(** X7. In the matrix of a successful run no two resources have the same id:
    an id names one resource. *)
Theorem resources_unique_ids (o : RangeOrder) (w : World) m :
  range_ok o →
  GetAccessMatrix o w = (Some m, None) →
  NoDup (ID <$> Resources m).
Proof.
  intros Hok ->%GetAccessMatrix_reduced. unfold assemble. cbn [Resources].
  rewrite (Hok _ _ _).
  assert (ID <$> (map_to_list (resourcesMap (reduced o w))).*2
          = (map_to_list (resourcesMap (reduced o w))).*1) as ->.
  { rewrite <- list_fmap_compose. apply list_fmap_ext.
    intros i [key res] Hin%list_elem_of_lookup_2. simpl.
    by apply elem_of_map_to_list, reduced_keyedById in Hin. }
  apply NoDup_fst_map_to_list.
Qed.

Lemma resources_unique_ids_witness :
  NoDup [vm1Asset; "4242"].
Proof.
  apply (resources_unique_ids keyOrder vmWorld
           (assemble keyOrder vmWorld (reduced keyOrder vmWorld)) keyOrder_ok).
  vm_compute. reflexivity.
Defined.

(** X8. The resources of the result come from two places only: a resource
    is a record of the inventory, unchanged, or it is the resource that the
    policy loop creates for the asset name of one of the policies (named by
    the last path segment, typed from the identifier, location "global", no
    bindings).  With a failed inventory only the second kind remains. *)
Theorem resources_origin (o : RangeOrder) (w : World) m resource :
  range_ok o →
  GetAccessMatrix o w = (Some m, None) →
  resource ∈ Resources m →
  resource ∈ (GetResources w).1 ∨
  ∃ policy,
    policy ∈ (SearchAllIamPolicies w).1 ∧
    resource = {| ID := PolicyResource policy;
                  Name := extractResourceName (PolicyResource policy);
                  RType := extractResourceType (PolicyResource policy);
                  Location := "global"; IAM := ∅ |}.
Proof.
  intros Hok ->%GetAccessMatrix_reduced Hin.
  apply Resources_elem_of in Hin; [|done].
  apply policies_resources_lookup in Hin
    as [Hknown|(_ & (policy & Hpolicy & Hid) & Hcreated)].
  - left. by apply knownResourcesMap_lookup in Hknown as [? _].
  - right. exists policy. split; [done|]. by rewrite Hid.
Qed.

Lemma resources_origin_witness :
  vmResource vmWorld "us-central1-a" vm1Instance ∈ (GetResources vmWorld).1 ∨
  ∃ policy,
    policy ∈ (SearchAllIamPolicies vmWorld).1 ∧
    vmResource vmWorld "us-central1-a" vm1Instance
    = {| ID := PolicyResource policy;
         Name := extractResourceName (PolicyResource policy);
         RType := extractResourceType (PolicyResource policy);
         Location := "global"; IAM := ∅ |}.
Proof.
  apply (resources_origin keyOrder vmWorld
           (assemble keyOrder vmWorld (reduced keyOrder vmWorld))
           (vmResource vmWorld "us-central1-a" vm1Instance) keyOrder_ok).
  - vm_compute. reflexivity.
  - vm_compute. right. left.
Defined.

(** X9. Nothing listed is lost.  When the inventory succeeds, each of its
    records has a resource of the same id in the result, and that resource is
    a record of the inventory (a policy on the same id does not replace it);
    and each policy of the search has a resource under its asset name. *)
Theorem resources_cover_sources (o : RangeOrder) (w : World) m :
  range_ok o →
  GetAccessMatrix o w = (Some m, None) →
  (∀ known resource,
     GetResources w = (known, None) →
     resource ∈ known →
     ∃ kept, kept ∈ Resources m ∧ kept ∈ known ∧ ID kept = ID resource) ∧
  (∀ policy,
     policy ∈ (SearchAllIamPolicies w).1 →
     ∃ resource, resource ∈ Resources m ∧ ID resource = PolicyResource policy).
Proof.
  intros Hok ->%GetAccessMatrix_reduced. split.
  - intros known resource Hres Hin.
    destruct (knownResourcesMap_covers w known resource Hres Hin)
      as (kept & Hkept & Hknown & Hid).
    exists kept. split; [|done].
    apply Resources_elem_of; [done|]. rewrite Hid.
    by apply policies_resources_keep.
  - intros policy Hin.
    destruct (policies_resources_tracked _ (initReducer w (GetUsers o w).1) _ Hin)
      as [resource Hres].
    exists resource.
    pose proof (reduced_keyedById o w _ _ Hres) as Hid.
    split; [|done]. apply Resources_elem_of; [done|]. by rewrite Hid.
Qed.

Lemma resources_cover_sources_witness :
  (∀ known resource,
     GetResources vmWorld = (known, None) →
     resource ∈ known →
     ∃ kept,
       kept ∈ Resources (assemble keyOrder vmWorld (reduced keyOrder vmWorld)) ∧
       kept ∈ known ∧ ID kept = ID resource) ∧
  (∀ policy,
     policy ∈ (SearchAllIamPolicies vmWorld).1 →
     ∃ resource,
       resource ∈ Resources (assemble keyOrder vmWorld (reduced keyOrder vmWorld)) ∧
       ID resource = PolicyResource policy).
Proof.
  apply (resources_cover_sources keyOrder vmWorld
           (assemble keyOrder vmWorld (reduced keyOrder vmWorld)) keyOrder_ok).
  vm_compute. reflexivity.
Defined.

(** ** The access entries of the result *)

Lemma accessKey_pairKey userEmail resourceID role :
  accessKey userEmail resourceID role
  = pairKey userEmail resourceID +:+ "::" +:+ role.
Proof. unfold accessKey, pairKey. by rewrite !append_assoc. Qed.

Lemma groupRoles_snoc entries kv :
  groupRoles (entries ++ [kv])
  = <[pairKey (UserEmail kv.2) (ResourceID kv.2) :=
        rolesOf (groupRoles entries) (pairKey (UserEmail kv.2) (ResourceID kv.2))
        ++ [role0 kv.2]]> (groupRoles entries).
Proof. unfold groupRoles. by rewrite foldl_app. Qed.

(** The roles grouped under a pair key are those of the entries with that
    pair key. *)
Lemma groupRoles_roles entries pair role :
  role ∈ rolesOf (groupRoles entries) pair ↔
  ∃ kv, kv ∈ entries ∧
        pairKey (UserEmail kv.2) (ResourceID kv.2) = pair ∧ role0 kv.2 = role.
Proof.
  induction entries as [|kv entries IH] using rev_ind.
  - unfold groupRoles, rolesOf. simpl. rewrite lookup_empty. simpl. split.
    + by intros ?%elem_of_nil.
    + by intros (kv & ?%elem_of_nil & _).
  - rewrite groupRoles_snoc. unfold rolesOf at 1. rewrite lookup_insert.
    case_decide as Heq; simpl.
    + rewrite elem_of_app, list_elem_of_singleton, Heq, IH. split.
      * intros [(kv' & Hin & Hkv)| ->].
        -- exists kv'. split; [|done]. apply elem_of_app. by left.
        -- exists kv. split; [|done]. apply elem_of_app. right. by left.
      * intros (kv' & [Hin| ->%list_elem_of_singleton]%elem_of_app & Hpair & Hrole).
        -- left. by exists kv'.
        -- by right.
    + fold (rolesOf (groupRoles entries) pair). rewrite IH. split.
      * intros (kv' & Hin & Hkv). exists kv'. split; [|done].
        apply elem_of_app. by left.
      * intros (kv' & [Hin| ->%list_elem_of_singleton]%elem_of_app & Hpair & Hrole).
        -- by exists kv'.
        -- congruence.
Qed.

(** When the entries sit under distinct keys, each its own, no role is
    grouped twice under a pair key. *)
Lemma groupRoles_NoDup entries pair :
  NoDup entries.*1 →
  (∀ kv, kv ∈ entries → ownKey kv.1 kv.2) →
  NoDup (rolesOf (groupRoles entries) pair).
Proof.
  induction entries as [|kv entries IH] using rev_ind; intros Hkeys Hown.
  { unfold groupRoles, rolesOf. simpl. rewrite lookup_empty. constructor. }
  rewrite fmap_app in Hkeys. apply NoDup_app in Hkeys as (Hkeys & Hfresh & _).
  assert (NoDup (rolesOf (groupRoles entries) pair)) as Hrest.
  { apply IH; [done|]. intros kv' Hin. apply Hown, elem_of_app. by left. }
  rewrite groupRoles_snoc. unfold rolesOf at 1. rewrite lookup_insert.
  case_decide as Heq; simpl; [|done].
  rewrite Heq. apply NoDup_app. split; [done|]. split; [|apply NoDup_singleton].
  intros role Hold ->%list_elem_of_singleton.
  apply groupRoles_roles in Hold as (kv' & Hin & Hpair & Hrole).
  apply (Hfresh kv'.1); [by apply list_elem_of_fmap_2 | simpl].
  assert (kv'.1 = kv.1) as ->; [|by left].
  destruct (Hown kv') as [-> _]; [apply elem_of_app; by left|].
  destruct (Hown kv) as [-> _]; [apply elem_of_app; right; by left|].
  by rewrite !accessKey_pairKey, Hpair, Heq, Hrole.
Qed.

Lemma recordAccess_ownKey resourceID role user accessMap :
  (∀ key entry, accessMap !! key = Some entry → ownKey key entry) →
  ∀ key entry,
    recordAccess resourceID role user accessMap !! key = Some entry →
    ownKey key entry.
Proof.
  intros Hown key entry. unfold recordAccess.
  destruct (accessMap !! accessKey _ _ _) eqn:Hkey; [by apply Hown|].
  rewrite lookup_insert. case_decide as Heq; [|by apply Hown].
  intros [= <-]. by subst.
Qed.

Lemma policies_ownKey policies st :
  (∀ key entry, accessMap st !! key = Some entry → ownKey key entry) →
  ∀ key entry,
    accessMap (foldl processPolicy st policies) !! key = Some entry →
    ownKey key entry.
Proof.
  revert st. induction policies as [|policy policies IH]; intros st Hown; [done|].
  simpl. apply IH. unfold processPolicy.
  set (st1 := mkReducer _ _ _ _).
  assert (∀ key entry, accessMap st1 !! key = Some entry → ownKey key entry) as Hown1
    by done.
  clearbody st1. clear Hown. revert st1 Hown1.
  induction (PolicyBindings policy) as [|binding bindings IHb]; intros st1 Hown1;
    [done|].
  simpl. apply IHb.
  generalize (Members binding). intros members. revert st1 Hown1.
  induction members as [|member members IHm]; intros st1 Hown1; [done|].
  simpl. apply IHm. unfold addBindingMember. simpl.
  by apply recordAccess_ownKey.
Qed.

Lemma inheritedAccessMap_ownKey (o : RangeOrder) (w : World) key entry :
  inheritedAccessMap o w (reduced o w) !! key = Some entry → ownKey key entry.
Proof.
  intros [Hold|(_ & Hown & _)]%resolveInherited_extends; [|done].
  revert Hold. apply policies_ownKey. intros k e. simpl. by rewrite lookup_empty.
Qed.

Section AccessEntries.
Variable o : RangeOrder.
Hypothesis o_ok : range_ok o.
Variable w : World.

(** An access entry of the result, with the pair key it was read off. *)
Lemma assemble_access_grouped entry :
  entry ∈ Access (assemble o w (reduced o w)) →
  ∃ pair resource,
    Split pair "::" = [UserEmail entry; ResourceID entry] ∧
    resourcesMap (reduced o w) !! ResourceID entry = Some resource ∧
    ResourceName entry = Name resource ∧
    ResourceType entry = RType resource ∧
    groupRoles (o _ ["accessMap"; "group"] (inheritedAccessMap o w (reduced o w)))
      !! pair = Some (Roles entry).
Proof.
  unfold assemble. cbn [Access]. rewrite emitEntry_elem_of.
  intros [[]%elem_of_nil|([pair roles] & resource & Hin & Hsplit & Hres & Hentry)].
  apply (range_lookup o) in Hin; [|done]. simpl in *.
  exists pair, resource. rewrite Hentry. simpl. by rewrite Hentry in Hsplit, Hres.
Qed.

(** X10. Every access entry of a successful run is well formed: it has at
    least one role, and the resource list has a resource with the entry's
    resource id, whose name and type are the ones the entry shows. *)
Theorem access_entries_well_formed m entry :
  GetAccessMatrix o w = (Some m, None) →
  entry ∈ Access m →
  Roles entry ≠ [] ∧
  ∃ resource,
    resource ∈ Resources m ∧
    ID resource = ResourceID entry ∧
    Name resource = ResourceName entry ∧
    RType resource = ResourceType entry.
Proof.
  intros ->%GetAccessMatrix_reduced Hentry.
  apply assemble_access_grouped in Hentry
    as (pair & resource & _ & Hres & Hname & Htype & Hroles).
  split.
  - assert (is_Some (groupRoles
                       (o _ ["accessMap"; "group"]
                          (inheritedAccessMap o w (reduced o w))) !! pair))
      as ([key source] & Hin & Hpair)%groupRoles_key by by eexists.
    assert (role0 source ∈ Roles entry) as Hrole.
    { change (Roles entry) with (default [] (Some (Roles entry))).
      rewrite <- Hroles. apply groupRoles_roles. by exists (key, source). }
    intros Hempty. rewrite Hempty in Hrole. by apply elem_of_nil in Hrole.
  - exists resource.
    pose proof (reduced_keyedById o w _ _ Hres) as Hid.
    split; [|done]. apply Resources_elem_of; [done|]. by rewrite Hid.
Qed.

(** X11. The roles of an access entry are the roles of the facts of the
    access map (direct and inherited) that have the entry's pair key, each
    once: the entry was read off a pair key that [Split] cuts into its
    principal and resource, a role is listed exactly when some fact with
    that pair key carries it, and no role is listed twice. *)
Theorem access_entry_roles m entry :
  GetAccessMatrix o w = (Some m, None) →
  entry ∈ Access m →
  NoDup (Roles entry) ∧
  ∃ pair,
    Split pair "::" = [UserEmail entry; ResourceID entry] ∧
    ∀ role,
      role ∈ Roles entry ↔
      ∃ key fact,
        inheritedAccessMap o w (reduced o w) !! key = Some fact ∧
        pairKey (UserEmail fact) (ResourceID fact) = pair ∧
        Roles fact = [role].
Proof.
  intros ->%GetAccessMatrix_reduced Hentry.
  apply assemble_access_grouped in Hentry
    as (pair & resource & Hsplit & _ & _ & _ & Hroles).
  assert (Roles entry
          = rolesOf (groupRoles
                       (o _ ["accessMap"; "group"]
                          (inheritedAccessMap o w (reduced o w)))) pair) as ->.
  { unfold rolesOf. by rewrite Hroles. }
  split.
  - apply groupRoles_NoDup.
    + rewrite (o_ok _ _ _). apply NoDup_fst_map_to_list.
    + intros [key fact] Hin%(range_lookup o); [|done].
      by apply (inheritedAccessMap_ownKey o w).
  - exists pair. split; [done|]. intros role. rewrite groupRoles_roles. split.
    + intros ([key fact] & Hin%(range_lookup o) & Hpair & Hrole); [|done].
      exists key, fact. split; [done|]. split; [done|].
      destruct (inheritedAccessMap_ownKey o w key fact Hin) as [_ Hone].
      simpl in Hrole. by rewrite Hone, Hrole.
    + intros (key & fact & Hin & Hpair & Hone).
      exists (key, fact). split; [by apply (range_lookup o)|]. split; [done|].
      simpl. unfold role0. by rewrite Hone.
Qed.

End AccessEntries.

Lemma access_entries_well_formed_witness :
  Roles aliceOnVm1 ≠ [] ∧
  ∃ resource,
    resource ∈ Resources vmWorldMatrix ∧
    ID resource = ResourceID aliceOnVm1 ∧
    Name resource = ResourceName aliceOnVm1 ∧
    RType resource = ResourceType aliceOnVm1.
Proof.
  apply (access_entries_well_formed keyOrder keyOrder_ok vmWorld vmWorldMatrix
           aliceOnVm1).
  - vm_compute. reflexivity.
  - vm_compute. left.
Defined.

Lemma access_entry_roles_witness :
  NoDup (Roles aliceOnVm1) ∧
  ∃ pair,
    Split pair "::" = [UserEmail aliceOnVm1; ResourceID aliceOnVm1] ∧
    ∀ role,
      role ∈ Roles aliceOnVm1 ↔
      ∃ key fact,
        inheritedAccessMap keyOrder vmWorld (reduced keyOrder vmWorld) !! key
        = Some fact ∧
        pairKey (UserEmail fact) (ResourceID fact) = pair ∧
        Roles fact = [role].
Proof.
  apply (access_entry_roles keyOrder keyOrder_ok vmWorld vmWorldMatrix aliceOnVm1).
  - vm_compute. reflexivity.
  - vm_compute. left.
Defined.

(** ** The policy loop: what is recorded stays recorded *)

Lemma recordAccess_keeps resourceID role user accessMap :
  keeps accessMap (recordAccess resourceID role user accessMap).
Proof.
  intros key entry Hk. unfold recordAccess.
  destruct (accessMap !! accessKey _ _ _) eqn:Hkey; [done|].
  rewrite lookup_insert_ne; [done | congruence].
Qed.

Lemma addBindingMember_recorded_here resourceID role st member :
  recorded (addBindingMember resourceID role st member) resourceID role member.
Proof.
  unfold recorded, addBindingMember. simpl. split.
  - destruct (isValid (validUsers st) _) eqn:Hknown; [done|].
    apply isValid_insert. by left.
  - unfold recordAccess.
    destruct (accessMap st !! accessKey _ _ _) eqn:Hkey; [by rewrite Hkey|].
    rewrite lookup_insert_eq. by eexists.
Qed.

Lemma addBindingMember_recorded_mono resourceID role st member rid' role' member' :
  recorded st rid' role' member' →
  recorded (addBindingMember resourceID role st member) rid' role' member'.
Proof.
  intros [Hvalid Hfact]. unfold recorded, addBindingMember. simpl. split.
  - destruct (isValid (validUsers st) (Email (parseUser member))); [done|].
    apply isValid_insert. by right.
  - eapply keeps_is_Some; [apply recordAccess_keeps | done].
Qed.

Lemma members_recorded_mono resourceID role members st rid' role' member' :
  recorded st rid' role' member' →
  recorded (foldl (addBindingMember resourceID role) st members) rid' role' member'.
Proof.
  revert st. induction members as [|member members IH]; intros st Hrec; [done|].
  simpl. by apply IH, addBindingMember_recorded_mono.
Qed.

Lemma members_recorded resourceID role members st member :
  member ∈ members →
  recorded (foldl (addBindingMember resourceID role) st members) resourceID role member.
Proof.
  revert st. induction members as [|m members IH]; intros st Hin.
  { by apply elem_of_nil in Hin. }
  simpl. apply elem_of_cons in Hin as [->|Hin]; [|by apply IH].
  apply members_recorded_mono, addBindingMember_recorded_here.
Qed.

Lemma bindings_recorded_mono resourceID bindings st rid' role' member' :
  recorded st rid' role' member' →
  recorded (foldl (λ st binding,
                     foldl (addBindingMember resourceID (Role binding)) st
                           (Members binding)) st bindings) rid' role' member'.
Proof.
  revert st. induction bindings as [|binding bindings IH]; intros st Hrec; [done|].
  simpl. by apply IH, members_recorded_mono.
Qed.

Lemma bindings_recorded resourceID bindings st binding member :
  binding ∈ bindings →
  member ∈ Members binding →
  recorded (foldl (λ st binding,
                     foldl (addBindingMember resourceID (Role binding)) st
                           (Members binding)) st bindings)
           resourceID (Role binding) member.
Proof.
  revert st. induction bindings as [|b bindings IH]; intros st Hin Hmember.
  { by apply elem_of_nil in Hin. }
  simpl. apply elem_of_cons in Hin as [->|Hin]; [|by apply IH].
  by apply bindings_recorded_mono, members_recorded.
Qed.

Lemma processPolicy_recorded_mono st policy rid' role' member' :
  recorded st rid' role' member' →
  recorded (processPolicy st policy) rid' role' member'.
Proof. intros Hrec. unfold processPolicy. by apply bindings_recorded_mono. Qed.

Lemma processPolicy_recorded st policy binding member :
  binding ∈ PolicyBindings policy →
  member ∈ Members binding →
  recorded (processPolicy st policy) (PolicyResource policy) (Role binding) member.
Proof. intros Hin Hmember. unfold processPolicy. by apply bindings_recorded. Qed.

Lemma policies_recorded policies st policy binding member :
  policy ∈ policies →
  binding ∈ PolicyBindings policy →
  member ∈ Members binding →
  recorded (foldl processPolicy st policies)
           (PolicyResource policy) (Role binding) member.
Proof.
  revert st. induction policies as [|p policies IH]; intros st Hin Hb Hm.
  { by apply elem_of_nil in Hin. }
  simpl. apply elem_of_cons in Hin as [->|Hin]; [|by apply IH].
  assert (∀ st', recorded st' (PolicyResource p) (Role binding) member →
                 recorded (foldl processPolicy st' policies)
                          (PolicyResource p) (Role binding) member) as Hmono.
  { clear. induction policies as [|q policies IHq]; intros st' Hrec; [done|].
    simpl. by apply IHq, processPolicy_recorded_mono. }
  by apply Hmono, processPolicy_recorded.
Qed.

(** A grant that is recorded changes nothing when met again. *)
Lemma addBindingMember_again resourceID role st member :
  recorded st resourceID role member →
  addBindingMember resourceID role st member = st.
Proof.
  intros [Hvalid [entry Hfact]]. unfold addBindingMember, recordAccess.
  rewrite Hvalid, Hfact. by destruct st.
Qed.

Lemma bindings_again resourceID bindings st :
  (∀ binding member,
     binding ∈ bindings → member ∈ Members binding →
     recorded st resourceID (Role binding) member) →
  foldl (λ st binding,
           foldl (addBindingMember resourceID (Role binding)) st (Members binding))
        st bindings = st.
Proof.
  induction bindings as [|binding bindings IH]; intros Hrec; [done|].
  simpl.
  assert (foldl (addBindingMember resourceID (Role binding)) st (Members binding) = st)
    as ->.
  { assert (∀ member, member ∈ Members binding →
                      recorded st resourceID (Role binding) member) as Hmembers.
    { intros member. apply Hrec. by left. }
    induction (Members binding) as [|member members IHm]; [done|].
    simpl. rewrite addBindingMember_again.
    - apply IHm. intros m Hin. apply Hmembers. by right.
    - apply Hmembers. by left. }
  apply IH. intros b m Hin. apply Hrec. by right.
Qed.

(** X12. The policy loop is idempotent on a policy: a policy that the search
    delivers a second time, right after the first, leaves principals,
    resources and access facts exactly as they were. *)
Theorem processPolicy_idempotent st policy :
  processPolicy (processPolicy st policy) policy = processPolicy st policy.
Proof.
  set (st' := processPolicy st policy).
  unfold processPolicy at 1.
  assert (trackResource (PolicyResource policy) (resourcesMap st') = resourcesMap st')
    as ->.
  { unfold st'. rewrite processPolicy_resourcesMap.
    destruct (trackResource_tracked (PolicyResource policy) (resourcesMap st))
      as [resource Hres].
    unfold trackResource at 1. by rewrite Hres. }
  assert ({| users := users st'; validUsers := validUsers st';
             resourcesMap := resourcesMap st'; accessMap := accessMap st' |} = st')
    as -> by by destruct st'.
  apply bindings_again. intros binding member Hin Hmember.
  by apply processPolicy_recorded.
Qed.

(** ** Keys of identifiers without separator *)

Lemma HasPrefix_colons_short c (s : string) :
  HasPrefix (String c (s +:+ ":")) "::" = false →
  HasPrefix (String c s) "::" = false.
Proof.
  unfold HasPrefix. destruct s as [|d s].
  - rewrite append_nil_l, !prefix_cons. by destruct (ascii_dec ":" c).
  - by rewrite append_cons, !prefix_cons, !prefix_empty.
Qed.

Lemma splitFrom_clean cur (s : string) :
  noSeparator s → splitFrom "::" 0 cur s = [cur +:+ s].
Proof.
  unfold noSeparator. revert cur. induction s as [|c s IH]; intros cur Hclean.
  - simpl. by rewrite append_nil_r.
  - rewrite append_cons in Hclean.
    apply Contains_cons_false in Hclean as [Hhead Hclean].
    cbn [splitFrom]. rewrite (HasPrefix_colons_short c s Hhead), IH by done.
    by rewrite append_assoc.
Qed.

Lemma Split_pairKey_clean userEmail resourceID :
  noSeparator userEmail → noSeparator resourceID →
  Split (pairKey userEmail resourceID) "::" = [userEmail; resourceID].
Proof.
  intros Hu Hr. rewrite Split_pairKey by done. unfold Split.
  by rewrite splitFrom_clean.
Qed.

Lemma Split_accessKey userEmail resourceID role :
  noSeparator userEmail → noSeparator resourceID →
  Split (accessKey userEmail resourceID role) "::"
  = userEmail :: resourceID :: Split role "::".
Proof.
  intros Hu Hr. unfold Split, accessKey.
  rewrite (splitFrom_pairKey "" userEmail _ Hu), append_nil_l.
  by rewrite (splitFrom_pairKey "" resourceID _ Hr), append_nil_l.
Qed.

(** On such identifiers the key of a fact determines the fact's principal,
    resource and role. *)
Lemma accessKey_inj u1 r1 role1 u2 r2 role2 :
  noSeparator u1 → noSeparator r1 → noSeparator u2 → noSeparator r2 →
  accessKey u1 r1 role1 = accessKey u2 r2 role2 →
  u1 = u2 ∧ r1 = r2 ∧ role1 = role2.
Proof.
  intros Hu1 Hr1 Hu2 Hr2 Hkey.
  pose proof (f_equal (λ key, Split key "::") Hkey) as Hsplit. simpl in Hsplit.
  rewrite !Split_accessKey in Hsplit by done.
  injection Hsplit as -> -> _. split; [done|]. split; [done|].
  unfold accessKey in Hkey.
  by repeat apply (inj (String.append _)) in Hkey.
Qed.

(** ** Grants that reach the result *)

Lemma recordAccess_lookup_resource resourceID role user accessMap key entry :
  recordAccess resourceID role user accessMap !! key = Some entry →
  accessMap !! key = Some entry ∨ ResourceID entry = resourceID.
Proof.
  unfold recordAccess.
  destruct (accessMap !! accessKey _ _ _) eqn:Hkey; [by left|].
  rewrite lookup_insert. case_decide; [|by left].
  intros [= <-]. by right.
Qed.

Lemma addBindingMember_factsTracked resourceID role st member :
  factsTracked st →
  is_Some (resourcesMap st !! resourceID) →
  factsTracked (addBindingMember resourceID role st member).
Proof.
  intros Htracked Hrid key entry. unfold addBindingMember. simpl.
  intros [Hold| ->]%recordAccess_lookup_resource; [by eapply Htracked | done].
Qed.

Lemma bindings_factsTracked resourceID bindings st :
  factsTracked st →
  is_Some (resourcesMap st !! resourceID) →
  factsTracked (foldl (λ st binding,
                         foldl (addBindingMember resourceID (Role binding)) st
                               (Members binding)) st bindings).
Proof.
  revert st. induction bindings as [|binding bindings IH]; intros st Htracked Hrid;
    [done|].
  simpl.
  cut (factsTracked (foldl (addBindingMember resourceID (Role binding)) st
                           (Members binding)) ∧
       is_Some (resourcesMap (foldl (addBindingMember resourceID (Role binding)) st
                                    (Members binding)) !! resourceID)).
  { intros [? ?]. by apply IH. }
  rewrite addBindingMembers_resourcesMap. split; [|done].
  generalize (Members binding). intros members. revert st Htracked Hrid.
  induction members as [|member members IHm]; intros st Htracked Hrid; [done|].
  simpl. apply IHm; [by apply addBindingMember_factsTracked | done].
Qed.

Lemma policies_factsTracked policies st :
  factsTracked st → factsTracked (foldl processPolicy st policies).
Proof.
  revert st. induction policies as [|policy policies IH]; intros st Htracked; [done|].
  simpl. apply IH. unfold processPolicy. apply bindings_factsTracked.
  - intros key entry Hin. simpl in *.
    destruct (Htracked key entry Hin) as [res Hres].
    exists res. by apply trackResource_keeps.
  - apply trackResource_tracked.
Qed.

Lemma reduced_factsTracked (o : RangeOrder) (w : World) : factsTracked (reduced o w).
Proof.
  apply policies_factsTracked. intros key entry. simpl. by rewrite lookup_empty.
Qed.

Section Reported.
Variable o : RangeOrder.
Hypothesis o_ok : range_ok o.
Variable w : World.
Hypothesis clean_users :
  Forall (λ user, noSeparator (Email user)) (users (reduced o w)).
Hypothesis clean_resources :
  Forall (λ resource, noSeparator (ID resource))
         (Resources (assemble o w (reduced o w))).

Lemma tracked_clean resourceID :
  is_Some (resourcesMap (reduced o w) !! resourceID) → noSeparator resourceID.
Proof.
  intros [resource Hres].
  pose proof (reduced_keyedById o w _ _ Hres) as Hid.
  rewrite Forall_forall in clean_resources.
  rewrite <- Hid. apply clean_resources, Resources_elem_of; [done|].
  by rewrite Hid.
Qed.

Lemma principal_clean email :
  email ∈ Email <$> users (reduced o w) → noSeparator email.
Proof.
  intros (user & -> & Hin)%list_elem_of_fmap.
  rewrite Forall_forall in clean_users. by apply clean_users.
Qed.

Lemma reduced_usersInv : usersInv (GetUsers o w).1 (reduced o w).
Proof. apply policies_usersInv, usersInv_init. Qed.

Lemma inheritedAccessMap_tracked key fact :
  inheritedAccessMap o w (reduced o w) !! key = Some fact →
  is_Some (resourcesMap (reduced o w) !! ResourceID fact).
Proof.
  intros Hfact.
  assert (addsOnly (λ _ entry,
                      is_Some (resourcesMap (reduced o w) !! ResourceID entry))
                   (accessMap (reduced o w))
                   (inheritedAccessMap o w (reduced o w))) as Hadds.
  { apply foldl_inheritUser_addsOnly; [|apply addsOnly_refl | apply keeps_refl].
    intros userEmail roles role rid res _ _ Hres _ _. simpl.
    apply (range_lookup o) in Hres; [|done]. by eexists. }
  destruct (Hadds key fact Hfact) as [Hold|[_ Htracked]]; [|done].
  by apply (reduced_factsTracked o w key).
Qed.

(** The fact found under the key of clean identifiers is the fact of these
    identifiers. *)
Lemma fact_fields userEmail resourceID role fact :
  noSeparator userEmail → noSeparator resourceID →
  inheritedAccessMap o w (reduced o w) !! accessKey userEmail resourceID role
  = Some fact →
  UserEmail fact = userEmail ∧ ResourceID fact = resourceID ∧ Roles fact = [role].
Proof.
  intros Hu Hr Hfact.
  destruct (inheritedAccessMap_ownKey o w _ _ Hfact) as [Hkey Hone].
  assert (noSeparator (UserEmail fact)) as Hu'.
  { apply principal_clean.
    by apply (inheritedAccessMap_principals o o_ok w _ _ _ _ reduced_usersInv Hfact). }
  assert (noSeparator (ResourceID fact)) as Hr'.
  { apply tracked_clean. by eapply inheritedAccessMap_tracked. }
  destruct (accessKey_inj _ _ _ _ _ _ Hu Hr Hu' Hr' Hkey) as (Huser & Hrid & Hrole).
  by rewrite Hone, <- Hrole.
Qed.

(** A fact of clean identifiers on a tracked resource gives an access entry
    that lists its role. *)
Lemma fact_emitted userEmail resourceID role :
  noSeparator userEmail →
  is_Some (resourcesMap (reduced o w) !! resourceID) →
  is_Some (inheritedAccessMap o w (reduced o w)
             !! accessKey userEmail resourceID role) →
  ∃ entry,
    entry ∈ Access (assemble o w (reduced o w)) ∧
    UserEmail entry = userEmail ∧ ResourceID entry = resourceID ∧
    role ∈ Roles entry.
Proof.
  intros Hu [resource Hres] [fact Hfact].
  assert (noSeparator resourceID) as Hr by (apply tracked_clean; by eexists).
  destruct (fact_fields _ _ _ _ Hu Hr Hfact) as (Huser & Hrid & Hone).
  assert (is_Some (groupRoles (o _ ["accessMap"; "group"]
                                 (inheritedAccessMap o w (reduced o w)))
                     !! pairKey userEmail resourceID)) as [roles Hroles].
  { apply groupRoles_key. exists (accessKey userEmail resourceID role, fact).
    split; [by apply (range_lookup o)|]. simpl. by rewrite Huser, Hrid. }
  exists {| UserEmail := userEmail; ResourceID := resourceID;
            ResourceName := Name resource; ResourceType := RType resource;
            Roles := roles |}.
  split; [|split; [done|split; [done|]]].
  - unfold assemble. cbn [Access]. apply emitEntry_elem_of. right.
    exists (pairKey userEmail resourceID, roles), resource.
    split; [by apply (range_lookup o)|]. simpl.
    split; [by apply Split_pairKey_clean | done].
  - simpl. change roles with (default [] (Some roles)). rewrite <- Hroles.
    apply groupRoles_roles. exists (accessKey userEmail resourceID role, fact).
    split; [by apply (range_lookup o)|]. simpl.
    rewrite Huser, Hrid. split; [done|]. unfold role0. by rewrite Hone.
Qed.

Lemma grant_recorded policy binding member :
  policy ∈ (SearchAllIamPolicies w).1 →
  binding ∈ PolicyBindings policy →
  member ∈ Members binding →
  noSeparator (Email (parseUser member)) ∧
  is_Some (resourcesMap (reduced o w) !! PolicyResource policy) ∧
  is_Some (accessMap (reduced o w)
             !! accessKey (Email (parseUser member)) (PolicyResource policy)
                          (Role binding)).
Proof.
  intros Hpolicy Hbinding Hmember.
  destruct (policies_recorded _ (initReducer w (GetUsers o w).1) _ _ _
              Hpolicy Hbinding Hmember) as [Hvalid Hfact].
  split; [|split; [by apply policies_resources_tracked | done]].
  apply principal_clean. by apply reduced_usersInv.
Qed.

Lemma direct_grant_emitted policy binding member :
  policy ∈ (SearchAllIamPolicies w).1 →
  binding ∈ PolicyBindings policy →
  member ∈ Members binding →
  ∃ entry,
    entry ∈ Access (assemble o w (reduced o w)) ∧
    UserEmail entry = Email (parseUser member) ∧
    ResourceID entry = PolicyResource policy ∧
    Role binding ∈ Roles entry.
Proof.
  intros Hpolicy Hbinding Hmember.
  destruct (grant_recorded _ _ _ Hpolicy Hbinding Hmember) as (Hu & Hres & Hfact).
  apply fact_emitted; [done..|].
  eapply keeps_is_Some; [apply resolveInherited_keeps | done].
Qed.

Lemma project_grant_emitted policy binding member resource :
  policy ∈ (SearchAllIamPolicies w).1 →
  PolicyResource policy = projectResource (ProjectID w) →
  binding ∈ PolicyBindings policy →
  member ∈ Members binding →
  resource ∈ Resources (assemble o w (reduced o w)) →
  ID resource ≠ projectResource (ProjectID w) →
  contains (getApplicableResourceTypes (Role binding)) (RType resource) = true →
  ∃ entry,
    entry ∈ Access (assemble o w (reduced o w)) ∧
    UserEmail entry = Email (parseUser member) ∧
    ResourceID entry = ID resource ∧
    Role binding ∈ Roles entry.
Proof.
  intros Hpolicy Hproject Hbinding Hmember Hresource Hother Happ.
  destruct (grant_recorded _ _ _ Hpolicy Hbinding Hmember)
    as (Hu & Hres & [fact Hfact]).
  apply Resources_elem_of in Hresource; [|done].
  apply fact_emitted; [done | by eexists |].
  (* the fact on the project, with its fields *)
  assert (inheritedAccessMap o w (reduced o w)
            !! accessKey (Email (parseUser member)) (PolicyResource policy)
                         (Role binding) = Some fact) as Hkept
    by by apply resolveInherited_keeps.
  destruct (fact_fields _ _ _ _ Hu (tracked_clean _ Hres) Hkept)
    as (Huser & Hrid & Hone).
  (* it is read as a project-level grant *)
  assert (Role binding
          ∈ rolesOf (collectProjectAccess (projectResource (ProjectID w))
                       (o _ ["accessMap"; "project"] (accessMap (reduced o w))))
                    (Email (parseUser member))) as Hgrant.
  { apply collectProjectAccess_roles.
    exists (accessKey (Email (parseUser member)) (PolicyResource policy)
                      (Role binding), fact).
    split; [by apply (range_lookup o)|]. simpl.
    split; [by rewrite Hrid|]. split; [done|]. unfold role0. by rewrite Hone. }
  unfold rolesOf in Hgrant.
  destruct (collectProjectAccess (projectResource (ProjectID w))
              (o _ ["accessMap"; "project"] (accessMap (reduced o w)))
              !! Email (parseUser member)) as [roles|] eqn:Hroles;
    [|by apply elem_of_nil in Hgrant].
  by eapply (resolveInherited_covered _ _ o o_ok).
Qed.

End Reported.

(** X13. A grant of the policy search is reported.  In a successful run whose
    principal identifiers and resource ids cannot be confused with the key
    separator (no "::" inside, no ":" at the end), each member of each binding
    of each policy has an access entry in the result, for the parsed
    principal and the policy's resource, that lists the binding's role. *)
Theorem direct_grant_reported (o : RangeOrder) (w : World) m policy binding member :
  range_ok o →
  GetAccessMatrix o w = (Some m, None) →
  Forall (λ user, noSeparator (Email user)) (Users m) →
  Forall (λ resource, noSeparator (ID resource)) (Resources m) →
  policy ∈ (SearchAllIamPolicies w).1 →
  binding ∈ PolicyBindings policy →
  member ∈ Members binding →
  ∃ entry,
    entry ∈ Access m ∧
    UserEmail entry = Email (parseUser member) ∧
    ResourceID entry = PolicyResource policy ∧
    Role binding ∈ Roles entry.
Proof.
  intros Hok ->%GetAccessMatrix_reduced Husers Hresources.
  by apply direct_grant_emitted.
Qed.

(** X14. A project-level grant is inherited in the result.  In such a run,
    for a member of a binding of a policy on the project itself and every
    resource of the result, other than the project, to whose type the
    binding's role applies, the result has an access entry for the parsed
    principal and that resource, and the entry lists the role. *)
Theorem project_grant_inherited (o : RangeOrder) (w : World) m
    policy binding member resource :
  range_ok o →
  GetAccessMatrix o w = (Some m, None) →
  Forall (λ user, noSeparator (Email user)) (Users m) →
  Forall (λ resource, noSeparator (ID resource)) (Resources m) →
  policy ∈ (SearchAllIamPolicies w).1 →
  PolicyResource policy = projectResource (ProjectID w) →
  binding ∈ PolicyBindings policy →
  member ∈ Members binding →
  resource ∈ Resources m →
  ID resource ≠ projectResource (ProjectID w) →
  contains (getApplicableResourceTypes (Role binding)) (RType resource) = true →
  ∃ entry,
    entry ∈ Access m ∧
    UserEmail entry = Email (parseUser member) ∧
    ResourceID entry = ID resource ∧
    Role binding ∈ Roles entry.
Proof.
  intros Hok ->%GetAccessMatrix_reduced Husers Hresources.
  by apply project_grant_emitted.
Qed.

Lemma direct_grant_reported_witness :
  ∃ entry,
    entry ∈ Access inheritWorldMatrix ∧
    UserEmail entry = "carol@example.com" ∧
    ResourceID entry = vm1Asset ∧
    "roles/compute.viewer" ∈ Roles entry.
Proof.
  apply (direct_grant_reported keyOrder inheritWorld inheritWorldMatrix
           {| PolicyResource := vm1Asset;
              PolicyBindings := [ {| Role := "roles/compute.viewer";
                                     Members := ["user:carol@example.com"] |} ] |}
           {| Role := "roles/compute.viewer";
              Members := ["user:carol@example.com"] |}
           "user:carol@example.com" keyOrder_ok).
  - vm_compute. reflexivity.
  - vm_compute. repeat constructor.
  - vm_compute. repeat constructor.
  - vm_compute. right. left.
  - left.
  - left.
Defined.

Lemma project_grant_inherited_witness :
  ∃ entry,
    entry ∈ Access inheritWorldMatrix ∧
    UserEmail entry = "alice@example.com" ∧
    ResourceID entry = "4242" ∧
    "roles/editor" ∈ Roles entry.
Proof.
  apply (project_grant_inherited keyOrder inheritWorld inheritWorldMatrix
           {| PolicyResource := project1;
              PolicyBindings := [ {| Role := "roles/editor";
                                     Members := ["user:alice@example.com"] |} ] |}
           {| Role := "roles/editor"; Members := ["user:alice@example.com"] |}
           "user:alice@example.com"
           (vmResource inheritWorld "us-central1-a" vm1Instance) keyOrder_ok).
  - vm_compute. reflexivity.
  - vm_compute. repeat constructor.
  - vm_compute. repeat constructor.
  - vm_compute. left.
  - reflexivity.
  - left.
  - left.
  - vm_compute. repeat constructor.
  - vm_compute. discriminate.
  - reflexivity.
Defined.

(** ** The inventory, record by record *)

Lemma foldl_app_zones (w : World) (zs : list string) (start : list Resource) :
  foldl (λ resources zone, resources ++ zoneVMs w zone) start zs
  = start ++ concat (zoneVMs w <$> zs).
Proof.
  revert start. induction zs as [|zone zs IH]; intros start; simpl.
  - by rewrite app_nil_r.
  - by rewrite IH, app_assoc.
Qed.

Lemma getVMs_zones_elem (w : World) (resource : Resource) :
  resource ∈ (getVMs w).1 →
  ∃ zone instance,
    zone ∈ zones ∧ instance ∈ (ListInstances w zone).1 ∧
    resource = vmResource w zone instance.
Proof.
  rewrite getVMs_zones, list_elem_of_In, in_concat.
  intros (vms & Hvms%list_elem_of_In & Hin%list_elem_of_In).
  apply list_elem_of_fmap in Hvms as (zone & -> & Hzone).
  apply list_elem_of_fmap in Hin as (instance & -> & Hin).
  by exists zone, instance.
Qed.

(** X15. The VM listing returns exactly the instances that the iterators of
    the five fixed zones yield (before an iterator fails, if it does), each
    as a resource of type vm located in its zone and identified by its
    decimal instance id.  Instances of any other zone are never listed. *)
Theorem getVMs_elem_of (w : World) (resource : Resource) :
  resource ∈ (getVMs w).1 ↔
  ∃ zone instance,
    zone ∈ zones ∧
    instance ∈ (ListInstances w zone).1 ∧
    resource = {| ID := itoa (InstanceId instance); Name := InstanceName instance;
                  RType := "vm"; Location := zone;
                  IAM := enrich (ComputeGetIamPolicy w zone (InstanceName instance)) |}.
Proof.
  unfold getVMs. cbn [fst]. rewrite foldl_app_zones, app_nil_l.
  rewrite list_elem_of_In, in_concat. split.
  - intros (vms & Hvms%list_elem_of_In & Hin%list_elem_of_In).
    apply list_elem_of_fmap in Hvms as (zone & -> & Hzone).
    apply list_elem_of_fmap in Hin as (instance & -> & Hin).
    by exists zone, instance.
  - intros (zone & instance & Hzone & Hin & ->).
    exists (zoneVMs w zone). split; apply list_elem_of_In.
    + by apply list_elem_of_fmap_2.
    + by apply zoneVMs_elem_of.
Qed.

(** X16. Every record that [GetResources] returns has one of three shapes:
    a cluster (type gke, identified by its self link, whose bindings are the
    single marker "inherited" / "project-level"), a VM (type vm, in one of
    the five zones), or a Cloud Run service (type cloudrun, identified and
    named by the service name, always located in "us-central1" whatever the
    name says). *)
Theorem GetResources_shapes (w : World) (resource : Resource) :
  resource ∈ (GetResources w).1 →
  (RType resource = "gke" ∧
   IAM resource = {[ "inherited" := ["project-level"] ]} ∧
   ∃ cluster, ListClusters w = inr cluster.1 ∧ cluster.2 ∈ cluster.1 ∧
              ID resource = SelfLink cluster.2 ∧
              Name resource = ClusterName cluster.2 ∧
              Location resource = ClusterLocation cluster.2) ∨
  (RType resource = "vm" ∧ Location resource ∈ zones ∧
   ∃ instance, instance ∈ (ListInstances w (Location resource)).1 ∧
               ID resource = itoa (InstanceId instance) ∧
               Name resource = InstanceName instance) ∨
  (RType resource = "cloudrun" ∧ Location resource = "us-central1" ∧
   ID resource = Name resource ∧
   mkService (Name resource) ∈ (ListServices w).1).
Proof.
  unfold GetResources, getGKEClusters, getCloudRunServices.
  destruct (ListClusters w) as [err|clusters] eqn:Hclusters.
  { by intros ?%elem_of_nil. }
  change (getVMs w) with ((getVMs w).1, @None string).
  destruct (ListServices w) as [services [|err]] eqn:Hservices;
    [|by intros ?%elem_of_nil].
  cbn [fst]. rewrite !elem_of_app.
  intros [Hgke|[Hvm|Hrun]].
  - left. apply list_elem_of_fmap in Hgke as (cluster & -> & Hin). simpl.
    split; [done|]. split; [done|]. by exists (clusters, cluster).
  - right. left. apply getVMs_zones_elem in Hvm as (zone & instance & Hzone & Hin & ->).
    simpl. split; [done|]. split; [done|]. by exists instance.
  - right. right. apply list_elem_of_fmap in Hrun as ([name] & -> & Hin). simpl.
    done.
Qed.

Lemma GetResources_shapes_witness :
  let service :=
    {| ID := "projects/demo/locations/europe-west1/services/api";
       Name := "projects/demo/locations/europe-west1/services/api";
       RType := "cloudrun"; Location := "us-central1"; IAM := ∅ |} in
  (RType service = "gke" ∧
   IAM service = {[ "inherited" := ["project-level"] ]} ∧
   ∃ cluster, ListClusters flakyZoneWorld = inr cluster.1 ∧ cluster.2 ∈ cluster.1 ∧
              ID service = SelfLink cluster.2 ∧
              Name service = ClusterName cluster.2 ∧
              Location service = ClusterLocation cluster.2) ∨
  (RType service = "vm" ∧ Location service ∈ zones ∧
   ∃ instance, instance ∈ (ListInstances flakyZoneWorld (Location service)).1 ∧
               ID service = itoa (InstanceId instance) ∧
               Name service = InstanceName instance) ∨
  (RType service = "cloudrun" ∧ Location service = "us-central1" ∧
   ID service = Name service ∧
   mkService (Name service) ∈ (ListServices flakyZoneWorld).1).
Proof.
  apply (GetResources_shapes flakyZoneWorld).
  vm_compute. do 3 right. left.
Defined.

(** ** Decimal instance ids *)

Lemma string_of_uint_digits (d : Decimal.uint) :
  Forall isDigit (list_ascii_of_string (NilEmpty.string_of_uint d)).
Proof.
  induction d; simpl; constructor; try done; unfold isDigit;
    repeat (first [by left | right]).
Qed.

Lemma digits_noSeparator (s : string) :
  Forall isDigit (list_ascii_of_string s) →
  noSeparator s ∧ Contains s "/" = false.
Proof.
  unfold noSeparator. induction s as [|c s IH]; intros Hdigits; [done|].
  simpl in Hdigits. apply Forall_cons in Hdigits as [Hc Hdigits].
  destruct (IH Hdigits) as [Hsep Hslash].
  assert (c ≠ ":"%char ∧ c ≠ "/"%char) as [Hcolon Hnoslash].
  { unfold isDigit in Hc.
    repeat (apply elem_of_cons in Hc as [->|Hc]; [done|]).
    by apply elem_of_nil in Hc. }
  split.
  - rewrite append_cons, Contains_cons, Hsep, orb_false_r.
    unfold HasPrefix. rewrite prefix_cons. by destruct (ascii_dec ":" c).
  - rewrite Contains_cons, Hslash. by rewrite (HasPrefix_byte_ne "/" c s).
Qed.

(** X17. The id that the inventory gives a VM, the decimal rendering of its
    instance id, determines the instance id (two instances get the same
    resource id only if they have the same id), is not empty, and consists
    of decimal digits: it contains no "/" and nothing that could be confused
    with the "::" of a key. *)
Theorem vm_id_decimal (n : N) :
  (∀ n', itoa n = itoa n' → n = n') ∧
  itoa n ≠ "" ∧
  Forall isDigit (list_ascii_of_string (itoa n)) ∧
  Contains (itoa n) "/" = false ∧
  noSeparator (itoa n).
Proof.
  unfold itoa. split; [|split; [|split]].
  - intros n' Heq. apply DecimalN.Unsigned.to_uint_inj.
    assert (Some (N.to_uint n) = Some (N.to_uint n')) as [=]; [|done].
    by rewrite <- !NilEmpty.usu, Heq.
  - destruct n as [|p]; [done|]. simpl.
    pose proof (DecimalPos.Unsigned.to_uint_nonnil p) as Hnil.
    by destruct (Pos.to_uint p).
  - apply string_of_uint_digits.
  - by destruct (digits_noSeparator _ (string_of_uint_digits (N.to_uint n))).
Qed.

(** ** One access entry for a principal and a resource *)

Lemma Join_cons elem (rest : list string) sep :
  rest ≠ [] → Join (elem :: rest) sep = elem +:+ sep +:+ Join rest sep.
Proof. by destruct rest. Qed.

Lemma splitFrom_nonempty (sep cur s : string) : splitFrom sep 0 cur s ≠ [].
Proof.
  destruct (head_splitFrom sep cur s) as [more Hhead].
  intros Hnil. by rewrite Hnil in Hhead.
Qed.

Lemma HasPrefix_colons_true c d (s : string) :
  HasPrefix (String c (String d s)) "::" = true → c = ":"%char ∧ d = ":"%char.
Proof.
  unfold HasPrefix. rewrite !prefix_cons.
  by destruct (ascii_dec ":" c), (ascii_dec ":" d).
Qed.

Lemma splitFrom_step (sep cur : string) c (s : string) :
  splitFrom sep 0 cur (String c s)
  = if HasPrefix (String c s) sep
    then cur :: splitFrom sep (String.length sep - 1) "" s
    else splitFrom sep 0 (cur +:+ String c "") s.
Proof. reflexivity. Qed.

Lemma splitFrom_skip (sep cur : string) k c (s : string) :
  splitFrom sep (S k) cur (String c s) = splitFrom sep k cur s.
Proof. reflexivity. Qed.

(** Joining the pieces with "::" gives the string back. *)
Lemma Join_splitFrom_colons (s : string) :
  (∀ cur, Join (splitFrom "::" 0 cur s) "::" = cur +:+ s) ∧
  (∀ c cur, Join (splitFrom "::" 0 cur (String c s)) "::" = cur +:+ String c s).
Proof.
  induction s as [|d s [IH0 IH1]].
  - split; [intros cur; simpl; by rewrite append_nil_r|].
    intros c cur. rewrite splitFrom_step.
    assert (HasPrefix (String c "") "::" = false) as ->.
    { unfold HasPrefix. rewrite prefix_cons. by destruct (ascii_dec ":" c). }
    done.
  - split; [apply IH1|]. intros c cur. rewrite splitFrom_step.
    destruct (HasPrefix (String c (String d s)) "::") eqn:Hhead.
    + apply HasPrefix_colons_true in Hhead as [-> ->].
      change (String.length "::" - 1) with 1. rewrite splitFrom_skip.
      rewrite Join_cons by apply splitFrom_nonempty.
      by rewrite IH0.
    + by rewrite IH1, append_assoc.
Qed.

Lemma Join_Split_colons (s : string) : Join (Split s "::") "::" = s.
Proof. unfold Split. by rewrite (proj1 (Join_splitFrom_colons s) ""). Qed.

(** A key that is cut into a principal and a resource is their pair key. *)
Lemma Split_pair_inv key userEmail resourceID :
  Split key "::" = [userEmail; resourceID] → key = pairKey userEmail resourceID.
Proof. intros Hsplit. by rewrite <- (Join_Split_colons key), Hsplit. Qed.

Lemma emitEntry_pairs_NoDup resourcesMap (grouped : list (string * list string)) :
  NoDup grouped.*1 →
  NoDup (pairOf <$> foldl (emitEntry resourcesMap) [] grouped).
Proof.
  induction grouped as [|kv grouped IH] using rev_ind; intros Hkeys; [constructor|].
  rewrite fmap_app in Hkeys. apply NoDup_app in Hkeys as (Hkeys & Hfresh & _).
  rewrite foldl_app. simpl. unfold emitEntry at 1.
  destruct (Split kv.1 "::") as [|userEmail [|resourceID [|? ?]]] eqn:Hsplit;
    try by apply IH.
  destruct (resourcesMap !! resourceID) as [resource|]; [|by apply IH].
  rewrite fmap_app. apply NoDup_app. split; [by apply IH|].
  split; [|apply NoDup_singleton].
  intros pair Hold Hnew%list_elem_of_singleton. subst pair.
  apply list_elem_of_fmap in Hold as (entry & Hpair & Hentry).
  apply emitEntry_elem_of in Hentry
    as [[]%elem_of_nil|(kv' & res & Hin & Hsplit' & _)].
  injection Hpair as Hu Hr. rewrite <- Hu, <- Hr in Hsplit'.
  apply (Hfresh kv'.1); [by apply list_elem_of_fmap_2|].
  apply Split_pair_inv in Hsplit, Hsplit'. rewrite Hsplit', <- Hsplit. by left.
Qed.

(** X18. The result has at most one access entry for a principal and a
    resource: all the roles of a pair are in one entry.  (Joining the pieces
    of [strings.Split] with the separator gives a key back, so two different
    keys cannot be cut into the same pair.) *)
Theorem access_pairs_unique (o : RangeOrder) (w : World) m :
  range_ok o →
  GetAccessMatrix o w = (Some m, None) →
  NoDup ((λ entry, (UserEmail entry, ResourceID entry)) <$> Access m).
Proof.
  intros Hok ->%GetAccessMatrix_reduced. unfold assemble. cbn [Access].
  apply (emitEntry_pairs_NoDup (resourcesMap (reduced o w))).
  rewrite (Hok _ _ _). apply NoDup_fst_map_to_list.
Qed.

Lemma access_pairs_unique_witness :
  NoDup ((λ entry, (UserEmail entry, ResourceID entry)) <$> Access inheritWorldMatrix).
Proof.
  apply (access_pairs_unique keyOrder inheritWorld inheritWorldMatrix keyOrder_ok).
  vm_compute. reflexivity.
Defined.

(** ** The routes *)

Lemma reduceResults_withPolicy st (policies : list IamPolicySearchResult) :
  Delivered.reduceResults st (Delivered.withPolicy <$> policies)
  = Some (foldl processPolicy st policies).
Proof.
  revert st. induction policies as [|[resourceID bindings] policies IH]; intros st;
    [done|].
  simpl. by rewrite IH.
Qed.

(** The matrix of the other sections is the matrix of the runs in which
    every result of the search carries its policy. *)
Lemma GetAccessMatrix_withPolicy (o : RangeOrder) (w : World) :
  Delivered.GetAccessMatrix o w (Delivered.withPolicy <$> (SearchAllIamPolicies w).1)
  = Delivered.Returned (GetAccessMatrix o w).
Proof.
  unfold Delivered.GetAccessMatrix, GetAccessMatrix.
  destruct (GetUsers o w) as [users0 [err|]]; [done|].
  destruct (NewAssetClient w); [done|].
  rewrite reduceResults_withPolicy.
  by destruct (SearchAllIamPolicies w).2.
Qed.

(** The loop panics exactly when some result has no policy. *)
Lemma reduceResults_None st (results : list Delivered.SearchResult) :
  Delivered.reduceResults st results = None ↔
  ∃ result, result ∈ results ∧ Delivered.Policy result = None.
Proof.
  revert st. induction results as [|result results IH]; intros st; simpl.
  - split; [done|]. by intros (result & []%elem_of_nil & _).
  - destruct (Delivered.Policy result) as [bindings|] eqn:Hpolicy.
    + rewrite IH. split.
      * intros (r & Hin & Hr). exists r. split; [by right | done].
      * intros (r & [->|Hin]%elem_of_cons & Hr); [congruence|]. by exists r.
    + split; [|done]. intros _. exists result. split; [by left | done].
Qed.

(** X19. Which failures reach which route.  GET /api/access answers 200
    exactly when the project policy, the asset client and the policy search
    succeed and every result of the search carries its policy; when the
    first two succeed and some result has no policy, the handler panics and
    the answer is 500 with no body.  The inventory listings do not matter
    for it.  GET /api/resources answers 200 exactly when the cluster listing
    and the Cloud Run listing succeed; GET /api/users answers 200 exactly
    when the project policy is fetched.  Every answer is 200 with a regular
    body, or 500 with an error message or no body. *)
Theorem routes_status (o : RangeOrder) (w : World)
    (results : list Delivered.SearchResult) :
  (Handlers.Status (Handlers.GetAccess o w results) = 200 ↔
   (∃ bindings, ProjectPolicy w = inr bindings) ∧
   NewAssetClient w = None ∧
   (∀ result, result ∈ results → is_Some (Delivered.Policy result)) ∧
   (SearchAllIamPolicies w).2 = Done) ∧
  (Handlers.GetAccess o w results = Handlers.recovered ↔
   (∃ bindings, ProjectPolicy w = inr bindings) ∧
   NewAssetClient w = None ∧
   ∃ result, result ∈ results ∧ Delivered.Policy result = None) ∧
  (Handlers.Status (Handlers.GetResources w) = 200 ↔
   (∃ clusters, ListClusters w = inr clusters) ∧ (ListServices w).2 = Done) ∧
  (Handlers.Status (Handlers.GetUsers o w) = 200 ↔
   ∃ bindings, ProjectPolicy w = inr bindings) ∧
  Forall (λ response,
            (Handlers.Status response = 200 ∧
             Handlers.Payload response ≠ Handlers.NoBody ∧
             ∀ err, Handlers.Payload response ≠ Handlers.ErrorBody err) ∨
            (Handlers.Status response = 500 ∧
             (Handlers.Payload response = Handlers.NoBody ∨
              ∃ err, Handlers.Payload response = Handlers.ErrorBody err)))
         [Handlers.GetAccess o w results; Handlers.GetResources w;
          Handlers.GetUsers o w; Handlers.HealthCheck].
Proof.
  assert (∀ st, (∀ result, result ∈ results → is_Some (Delivered.Policy result)) ↔
                is_Some (Delivered.reduceResults st results)) as Hall.
  { intros st. rewrite <- not_eq_None_Some, reduceResults_None. split.
    - intros Hall (result & Hin & Hnone).
      destruct (Hall result Hin) as [bindings Hsome]. congruence.
    - intros Hnone result Hin.
      destruct (Delivered.Policy result) eqn:Hpolicy; [by eexists|].
      destruct Hnone. by exists result. }
  split; [|split; [|split; [|split]]].
  - unfold Handlers.GetAccess, Delivered.GetAccessMatrix, GetUsers.
    destruct (ProjectPolicy w) as [err1|bindings]; simpl.
    { split; [done|]. by intros ([b Hb] & _). }
    destruct (NewAssetClient w) as [err2|]; simpl.
    { split; [done|]. by intros (_ & Hclient & _). }
    set (st0 := initReducer w _). rewrite (Hall st0).
    destruct (Delivered.reduceResults st0 results) as [st|]; simpl.
    + destruct (SearchAllIamPolicies w).2 as [|err3]; simpl.
      * split; [|done]. intros _. split; [by eexists|]. split; [done|].
        split; [by eexists | done].
      * split; [done|]. by intros (_ & _ & _ & Hend).
    + split; [done|]. intros (_ & _ & [st Hst] & _). discriminate Hst.
  - unfold Handlers.GetAccess, Delivered.GetAccessMatrix, GetUsers.
    destruct (ProjectPolicy w) as [err1|bindings]; simpl.
    { split; [done|]. by intros ([b Hb] & _). }
    destruct (NewAssetClient w) as [err2|]; simpl.
    { split; [done|]. by intros (_ & Hclient & _). }
    set (st0 := initReducer w _). rewrite <- (reduceResults_None st0).
    destruct (Delivered.reduceResults st0 results) as [st|]; simpl.
    + destruct (SearchAllIamPolicies w).2 as [|err3]; simpl;
        (split; [done|]; by intros (_ & _ & Hnone)).
    + split; [|done]. intros _. split; [by eexists | done].
  - unfold Handlers.GetResources, GetResources, getGKEClusters, getCloudRunServices.
    change (getVMs w) with ((getVMs w).1, @None string).
    destruct (ListClusters w) as [err4|clusters];
      destruct (ListServices w) as [services [|err5]]; simpl;
      (split; [intros Hstatus; try discriminate Hstatus; by eauto
              | intros ([c Hc] & Hend); by try discriminate]).
  - unfold Handlers.GetUsers, GetUsers.
    destruct (ProjectPolicy w) as [err1|bindings]; simpl;
      (split; [intros Hstatus; try discriminate Hstatus; by eauto
              | intros [b Hb]; by try discriminate]).
  - rewrite !Forall_cons. split; [|split; [|split; [|split; [|constructor]]]].
    + unfold Handlers.GetAccess.
      destruct (Delivered.GetAccessMatrix o w results) as [[matrix [err|]]|]; simpl.
      * right. split; [done|]. right. by eexists.
      * left. by split.
      * right. split; [done|]. by left.
    + unfold Handlers.GetResources.
      destruct (GetResources w) as [resources [err|]]; simpl.
      * right. split; [done|]. right. by eexists.
      * left. by split.
    + unfold Handlers.GetUsers.
      destruct (GetUsers o w) as [users [err|]]; simpl.
      * right. split; [done|]. right. by eexists.
      * left. by split.
    + left. by split.
Qed.

(** ** Start-up *)

Lemma NewClient_outcome (fails : GcpClient.Api → option string) (projectID : string) :
  match GcpClient.NewClient fails projectID with
  | ((Some client, None), events) =>
      GcpClient.ProjectID client = projectID ∧ GcpClient.openAfter events = allApis
  | ((None, Some err), events) => GcpClient.openAfter events = []
  | _ => False
  end.
Proof.
  unfold GcpClient.NewClient.
  destruct (fails GcpClient.Compute), (fails GcpClient.Container),
    (fails GcpClient.Run), (fails GcpClient.ResourceManager); by vm_compute.
Qed.

(** X20. [NewClient] leaks nothing.  If a constructor fails, the error is
    that constructor's, the constructors after it are not called, and every
    client created before it has been closed, each once and while open; if
    all four succeed, the four clients are open, none was closed, the client
    carries the project id, and [Close] closes the four. *)
Theorem NewClient_no_leak (fails : GcpClient.Api → option string) (projectID : string) :
  let result := (GcpClient.NewClient fails projectID).1 in
  let events := (GcpClient.NewClient fails projectID).2 in
  GcpClient.closesOpenOnly [] events ∧
  match result with
  | (Some client, None) =>
      Forall (λ api, fails api = None) allApis ∧
      GcpClient.ProjectID client = projectID ∧
      GcpClient.openAfter events = allApis ∧
      GcpClient.closesOpenOnly allApis (GcpClient.Close client).2 ∧
      GcpClient.openAfter (events ++ (GcpClient.Close client).2) = []
  | (None, Some err) =>
      GcpClient.openAfter events = [] ∧
      ∃ before api after,
        allApis = before ++ api :: after ∧
        Forall (λ api, fails api = None) before ∧
        fails api = Some err ∧
        (∀ event, event ∈ events →
                  event ∈ (GcpClient.Created <$> before) ++ (GcpClient.Closed <$> before))
  | _ => False
  end.
Proof.
  unfold GcpClient.NewClient, allApis.
  destruct (fails GcpClient.Compute) as [err|] eqn:H1.
  { simpl. split; [done|]. split; [done|].
    exists [], GcpClient.Compute, [GcpClient.Container; GcpClient.Run;
                                   GcpClient.ResourceManager].
    split; [done|]. split; [constructor|]. split; [done|]. by intros event Hin. }
  destruct (fails GcpClient.Container) as [err|] eqn:H2.
  { cbn [fst snd]. split; [vm_compute; by repeat constructor|].
    split; [by vm_compute|].
    exists [GcpClient.Compute], GcpClient.Container,
      [GcpClient.Run; GcpClient.ResourceManager].
    split; [done|]. split; [by repeat constructor|]. split; [done|].
    by intros event Hin. }
  destruct (fails GcpClient.Run) as [err|] eqn:H3.
  { cbn [fst snd]. split; [vm_compute; by repeat constructor|].
    split; [by vm_compute|].
    exists [GcpClient.Compute; GcpClient.Container], GcpClient.Run,
      [GcpClient.ResourceManager].
    split; [done|]. split; [by repeat constructor|]. split; [done|].
    intros event Hin. simpl.
    repeat (apply elem_of_cons in Hin as [->|Hin]; [by repeat constructor|]).
    by apply elem_of_nil in Hin. }
  destruct (fails GcpClient.ResourceManager) as [err|] eqn:H4.
  { cbn [fst snd]. split; [vm_compute; by repeat constructor|].
    split; [by vm_compute|].
    exists [GcpClient.Compute; GcpClient.Container; GcpClient.Run],
      GcpClient.ResourceManager, [].
    split; [done|]. split; [by repeat constructor|]. split; [done|].
    intros event Hin. simpl.
    repeat (apply elem_of_cons in Hin as [->|Hin]; [by repeat constructor|]).
    by apply elem_of_nil in Hin. }
  cbn [fst snd]. split; [done|].
  split; [by repeat constructor|]. split; [done|]. split; [done|].
  split; [vm_compute; by repeat constructor | by vm_compute].
Qed.

(** X21. Start-up composes the two: without GCP_PROJECT_ID in the
    environment [main] stops before any client is created; otherwise it
    either stops with every created client closed again, or goes on with a
    client for exactly the project id of the environment and the four API
    clients open. *)
Theorem startup_outcomes (getenv : string → string)
    (fails : GcpClient.Api → option string) :
  let events := (Main.startup getenv fails).2 in
  match (Main.startup getenv fails).1 with
  | inl message =>
      GcpClient.openAfter events = [] ∧
      (getenv "GCP_PROJECT_ID" = "" →
       events = [] ∧
       message
       = "Failed to load config: GCP_PROJECT_ID environment variable is required")
  | inr client =>
      getenv "GCP_PROJECT_ID" ≠ "" ∧
      GcpClient.ProjectID client = getenv "GCP_PROJECT_ID" ∧
      GcpClient.openAfter events = allApis
  end.
Proof.
  unfold Main.startup, Config.Load.
  destruct (decide (getenv "GCP_PROJECT_ID" = "")) as [Hunset|Hset]; [done|].
  cbn [Config.ProjectID].
  pose proof (NewClient_outcome fails (getenv "GCP_PROJECT_ID")) as Hnew.
  destruct (GcpClient.NewClient fails (getenv "GCP_PROJECT_ID"))
    as [[[client|] [err|]] events]; simpl in *; try done.
Qed.

(** ** The allowed origins *)

Lemma Join_splitFrom_byte c (cur s : string) :
  Join (splitFrom (String c "") 0 cur s) (String c "") = cur +:+ s.
Proof.
  revert cur. induction s as [|a s IH]; intros cur.
  - simpl. by rewrite append_nil_r.
  - rewrite splitFrom_step. destruct (HasPrefix _ _) eqn:Hhead.
    + assert (a = c) as ->.
      { destruct (decide (a = c)) as [|Hne]; [done|].
        by rewrite (HasPrefix_byte_ne c a s Hne) in Hhead. }
      change (String.length (String c "") - 1) with 0.
      rewrite Join_cons by apply splitFrom_nonempty.
      by rewrite IH.
    + by rewrite IH, append_assoc.
Qed.

(** X22. The origins that [main] allows are never an empty list.  When
    CORS_ALLOWED_ORIGINS is set they are its comma-separated pieces, taken as
    they are (nothing is trimmed or dropped): no piece contains a comma, and
    joining the pieces with commas gives the variable back.  When it is not
    set they are the two localhost origins. *)
Theorem corsOrigins_pieces (getenv : string → string) :
  Config.corsOrigins getenv ≠ [] ∧
  (getenv "CORS_ALLOWED_ORIGINS" = "" →
   Config.corsOrigins getenv = ["http://localhost:5173"; "http://localhost:3000"]) ∧
  (getenv "CORS_ALLOWED_ORIGINS" ≠ "" →
   Join (Config.corsOrigins getenv) "," = getenv "CORS_ALLOWED_ORIGINS" ∧
   Forall (λ origin, Contains origin "," = false) (Config.corsOrigins getenv)).
Proof.
  unfold Config.corsOrigins, Split.
  destruct (decide (getenv "CORS_ALLOWED_ORIGINS" = "")) as [Hunset|Hset].
  - split; [done|]. split; [done|]. by intros [].
  - split; [apply splitFrom_nonempty|]. split; [done|]. intros _. split.
    + apply (Join_splitFrom_byte "," "").
    + by apply (splitFrom_byte_pieces ",").
Qed.

Lemma corsOrigins_pieces_witness :
  Config.corsOrigins prodEnv = ["https://a.example.com"; "https://b.example.com"] ∧
  Join (Config.corsOrigins prodEnv) "," = "https://a.example.com,https://b.example.com".
Proof.
  split; [reflexivity|].
  apply (proj2 (proj2 (corsOrigins_pieces prodEnv))).
  discriminate.
Defined.

(** ** The principals of the policy search *)

Lemma members_users_origin resourceID role members st user :
  user ∈ users (foldl (addBindingMember resourceID role) st members) →
  user ∈ users st ∨ ∃ member, member ∈ members ∧ user = parseUser member.
Proof.
  revert st. induction members as [|member members IH]; intros st; simpl; [by left|].
  intros [Hstep|(m & Hin & ->)]%IH.
  - unfold addBindingMember in Hstep. simpl in Hstep.
    destruct (isValid _ _); [by left|].
    apply elem_of_app in Hstep as [Hold| ->%list_elem_of_singleton]; [by left|].
    right. exists member. split; [by left | done].
  - right. exists m. split; [by right | done].
Qed.

Lemma processPolicy_users_origin st policy user :
  user ∈ users (processPolicy st policy) →
  user ∈ users st ∨
  ∃ binding member,
    binding ∈ PolicyBindings policy ∧ member ∈ Members binding ∧
    user = parseUser member.
Proof.
  unfold processPolicy.
  set (st1 := mkReducer _ _ _ _).
  change (users st) with (users st1). generalize st1. clear st1.
  induction (PolicyBindings policy) as [|binding bindings IH]; intros st1; simpl;
    [by left|].
  intros [Hstep|(b & m & Hb & Hm & ->)]%IH.
  - apply members_users_origin in Hstep as [Hold|(m & Hm & ->)]; [by left|].
    right. exists binding, m. split; [by left | done].
  - right. exists b, m. split; [by right | done].
Qed.

Lemma policies_users_origin policies st user :
  user ∈ users (foldl processPolicy st policies) →
  user ∈ users st ∨
  ∃ policy binding member,
    policy ∈ policies ∧ binding ∈ PolicyBindings policy ∧
    member ∈ Members binding ∧ user = parseUser member.
Proof.
  revert st. induction policies as [|policy policies IH]; intros st; simpl; [by left|].
  intros [Hstep|(p & b & m & Hp & Hb & Hm & ->)]%IH.
  - apply processPolicy_users_origin in Hstep as [Hold|(b & m & Hb & Hm & ->)];
      [by left|].
    right. exists policy, b, m. split; [by left | done].
  - right. exists p, b, m. split; [by right | done].
Qed.

(** X23. Where the principal list comes from.  In a successful run every
    principal of the list is a principal of the project directory or the
    parsed member of some binding of the policy search; and the identifier
    of every member of every binding of the search is the identifier of a
    listed principal (so a principal that holds only a grant on a resource
    is not missing). *)
Theorem principals_sources (o : RangeOrder) (w : World) m :
  GetAccessMatrix o w = (Some m, None) →
  (∀ user,
     user ∈ Users m →
     user ∈ (GetUsers o w).1 ∨
     ∃ policy binding member,
       policy ∈ (SearchAllIamPolicies w).1 ∧ binding ∈ PolicyBindings policy ∧
       member ∈ Members binding ∧ user = parseUser member) ∧
  (∀ policy binding member,
     policy ∈ (SearchAllIamPolicies w).1 →
     binding ∈ PolicyBindings policy →
     member ∈ Members binding →
     Email (parseUser member) ∈ Email <$> Users m).
Proof.
  intros [-> (Hvalid & _ & _)]%GetAccessMatrix_Some. split.
  - intros user Hin. by apply policies_users_origin in Hin.
  - intros policy binding member Hp Hb Hm.
    apply Hvalid.
    by destruct (policies_recorded _ (initReducer w (GetUsers o w).1) _ _ _ Hp Hb Hm).
Qed.

Lemma principals_sources_witness :
  (∀ user,
     user ∈ Users inheritWorldMatrix →
     user ∈ (GetUsers keyOrder inheritWorld).1 ∨
     ∃ policy binding member,
       policy ∈ (SearchAllIamPolicies inheritWorld).1 ∧
       binding ∈ PolicyBindings policy ∧
       member ∈ Members binding ∧ user = parseUser member) ∧
  (∀ policy binding member,
     policy ∈ (SearchAllIamPolicies inheritWorld).1 →
     binding ∈ PolicyBindings policy →
     member ∈ Members binding →
     Email (parseUser member) ∈ Email <$> Users inheritWorldMatrix).
Proof.
  apply (principals_sources keyOrder inheritWorld inheritWorldMatrix).
  vm_compute. reflexivity.
Defined.

(** ** The visiting order and the resource list *)

Lemma policies_resourcesMap_users policies st1 st2 :
  resourcesMap st1 = resourcesMap st2 →
  resourcesMap (foldl processPolicy st1 policies)
  = resourcesMap (foldl processPolicy st2 policies).
Proof.
  revert st1 st2. induction policies as [|policy policies IH]; intros st1 st2 Heq;
    [done|].
  simpl. apply IH. by rewrite !processPolicy_resourcesMap, Heq.
Qed.

(** X24. The resource list does not depend on the order in which Go visits
    its maps, except for the order of the list itself: two successful runs on
    the same answers of the cloud APIs return the same resources. *)
Theorem resources_order_independent (o1 o2 : RangeOrder) (w : World) m1 m2 :
  range_ok o1 → range_ok o2 →
  GetAccessMatrix o1 w = (Some m1, None) →
  GetAccessMatrix o2 w = (Some m2, None) →
  Resources m1 ≡ₚ Resources m2.
Proof.
  intros Hok1 Hok2 ->%GetAccessMatrix_reduced ->%GetAccessMatrix_reduced.
  unfold assemble. cbn [Resources].
  rewrite (Hok1 _ _ _), (Hok2 _ _ _). unfold reduced.
  by rewrite (policies_resourcesMap_users _ (initReducer w (GetUsers o1 w).1)
                (initReducer w (GetUsers o2 w).1)).
Qed.

Lemma resources_order_independent_witness :
  Resources inheritWorldMatrix
  ≡ₚ Resources (assemble revOrder inheritWorld (reduced revOrder inheritWorld)).
Proof.
  apply (resources_order_independent keyOrder revOrder inheritWorld
           inheritWorldMatrix
           (assemble revOrder inheritWorld (reduced revOrder inheritWorld))
           keyOrder_ok revOrder_ok).
  - vm_compute. reflexivity.
  - vm_compute. reflexivity.
Defined.

(** * Identifiers as the cloud APIs write them *)

(** ** Pair keys of resources whose id does not start with ":" *)

Lemma splitFrom_skip_nonempty (sep : string) k (cur s : string) :
  splitFrom sep k cur s ≠ [].
Proof.
  revert k cur. induction s as [|c s IH]; intros k cur; [done|].
  destruct k as [|k]; [apply splitFrom_nonempty|].
  rewrite splitFrom_skip. apply IH.
Qed.

Lemma HasPrefix_colons_refl (s : string) :
  HasPrefix (String ":" (String ":" s)) "::" = true.
Proof.
  unfold HasPrefix. rewrite !prefix_cons, prefix_empty.
  by destruct (ascii_dec ":" ":").
Qed.

(** A string with "::" inside is cut into two pieces at least. *)
Lemma splitFrom_colons_more cur (x y : string) :
  ∃ piece pieces,
    splitFrom "::" 0 cur (x +:+ "::" +:+ y) = piece :: pieces ∧ pieces ≠ [].
Proof.
  revert cur. induction x as [|c x IH]; intros cur.
  - rewrite append_nil_l.
    change ("::" +:+ y) with (String ":" (String ":" y)).
    rewrite splitFrom_step, HasPrefix_colons_refl.
    eexists _, _. split; [done|]. apply splitFrom_skip_nonempty.
  - rewrite append_cons, splitFrom_step. destruct (HasPrefix _ _).
    + eexists _, _. split; [done|]. apply splitFrom_skip_nonempty.
    + apply IH.
Qed.

Lemma pieces_tail (piece piece1 piece2 : string) (pieces : list string) :
  piece :: pieces = [piece1; piece2] → piece = piece1 ∧ pieces = [piece2].
Proof. by intros [= -> ->]. Qed.

Lemma splitFrom_single cur (s piece : string) :
  splitFrom "::" 0 cur s = [piece] → piece = cur +:+ s.
Proof.
  intros Hsplit.
  by rewrite <- (proj1 (Join_splitFrom_colons s) cur), Hsplit.
Qed.

(** The first "::" of a pair key that is cut into two pieces, the second of
    which does not start with ":", is the one that was written between the
    identifier and the resource id. *)
Lemma splitFrom_pairKey_resource cur (email rest piece1 piece2 : string) :
  splitFrom "::" 0 cur (email +:+ "::" +:+ rest) = [piece1; piece2] →
  HasPrefix piece2 ":" = false →
  piece1 = cur +:+ email.
Proof.
  revert cur. induction email as [|c email IH]; intros cur Hsplit Hstart.
  - rewrite append_nil_l in Hsplit.
    change ("::" +:+ rest) with (String ":" (String ":" rest)) in Hsplit.
    rewrite splitFrom_step, HasPrefix_colons_refl in Hsplit.
    apply pieces_tail in Hsplit as [<- _]. by rewrite append_nil_r.
  - rewrite append_cons, splitFrom_step in Hsplit.
    destruct (HasPrefix (String c (email +:+ "::" +:+ rest)) "::") eqn:Hhead.
    + exfalso. change (String.length "::" - 1) with 1 in Hsplit.
      destruct email as [|d email].
      * rewrite append_nil_l in Hsplit.
        change ("::" +:+ rest) with (String ":" (String ":" rest)) in Hsplit.
        rewrite splitFrom_skip in Hsplit.
        apply pieces_tail in Hsplit as [_ Hsplit].
        apply splitFrom_single in Hsplit. subst piece2.
        rewrite append_nil_l in Hstart. unfold HasPrefix in Hstart.
        rewrite prefix_cons, prefix_empty in Hstart.
        by destruct (ascii_dec ":" ":").
      * rewrite append_cons, splitFrom_skip in Hsplit.
        apply pieces_tail in Hsplit as [_ Hsplit].
        destruct (splitFrom_colons_more "" email rest)
          as (piece & pieces & Hmore & Hpieces).
        rewrite Hmore in Hsplit. injection Hsplit as _ Hnil. by apply Hpieces.
    + rewrite (IH _ Hsplit Hstart), append_assoc. done.
Qed.

Lemma Split_pairKey_resource (userEmail resourceID piece1 piece2 : string) :
  Split (pairKey userEmail resourceID) "::" = [piece1; piece2] →
  HasPrefix piece2 ":" = false →
  piece1 = userEmail.
Proof.
  unfold Split, pairKey. intros Hsplit Hstart.
  by rewrite (splitFrom_pairKey_resource "" _ _ _ _ Hsplit Hstart).
Qed.

(** C3. In a successful run in which no resource id starts with ":" (the
    ids that reach the code are self links, decimal instance ids, service
    names "projects/..." and asset names "//..."), every access entry names
    a principal of the returned principal list: the principals of the
    project policy, the principals that hold grants on single resources only,
    and the principals of inherited entries alike. *)
Theorem no_dangling_principal (o : RangeOrder) (w : World) m :
  range_ok o →
  GetAccessMatrix o w = (Some m, None) →
  Forall (λ resource, HasPrefix (ID resource) ":" = false) (Resources m) →
  ∀ entry, entry ∈ Access m → UserEmail entry ∈ Email <$> Users m.
Proof.
  intros Hok Hrun Hids entry Hentry.
  pose proof Hrun as [Hm Hinv]%GetAccessMatrix_Some.
  pose proof Hrun as ->%GetAccessMatrix_reduced.
  apply (assemble_access_source o Hok) in Hentry
    as (key & source & resource & Hsrc & Hsplit & Hres).
  pose proof (reduced_keyedById o w _ _ Hres) as Hid.
  assert (resource ∈ Resources (assemble o w (reduced o w))) as Hin
    by (apply Resources_elem_of; [done | by rewrite Hid]).
  rewrite Forall_forall in Hids. apply Hids in Hin. rewrite Hid in Hin.
  rewrite (Split_pairKey_resource _ _ _ _ Hsplit Hin).
  exact (inheritedAccessMap_principals o Hok w _ _ _ _ Hinv Hsrc).
Qed.

Lemma no_dangling_principal_witness :
  Forall (λ entry, UserEmail entry ∈ Email <$> Users inheritWorldMatrix)
         (Access inheritWorldMatrix).
Proof.
  apply Forall_forall.
  apply (no_dangling_principal keyOrder inheritWorld inheritWorldMatrix keyOrder_ok).
  - vm_compute. reflexivity.
  - vm_compute. repeat constructor.
Defined.

(** ** One VM, two identifiers *)

Lemma not_isDigit_letter (c : ascii) :
  (c =? "a")%char || (c =? "b")%char || (c =? "c")%char || (c =? "i")%char
  || (c =? "r")%char || (c =? "s")%char || (c =? "/")%char = true →
  ¬ isDigit c.
Proof.
  intros Hc Hdigit. unfold isDigit in Hdigit.
  repeat (apply elem_of_cons in Hdigit as [->|Hdigit]; [discriminate Hc|]).
  by apply elem_of_nil in Hdigit.
Qed.

(** Nothing that starts with a byte other than a digit occurs in a string of
    digits. *)
Lemma digits_HasPrefix (s : string) c (sub : string) :
  Forall isDigit (list_ascii_of_string s) → ¬ isDigit c →
  HasPrefix s (String c sub) = false.
Proof.
  intros Hdigits Hc. destruct s as [|a s]; [done|].
  simpl in Hdigits. apply Forall_cons in Hdigits as [Ha _].
  unfold HasPrefix. rewrite prefix_cons.
  destruct (ascii_dec c a) as [->|]; [done | done].
Qed.

Lemma digits_Contains (s : string) c (sub : string) :
  Forall isDigit (list_ascii_of_string s) → ¬ isDigit c →
  Contains s (String c sub) = false.
Proof.
  intros Hdigits Hc. induction s as [|a s IH]; [done|].
  rewrite Contains_cons, digits_HasPrefix by done.
  simpl in Hdigits. apply Forall_cons in Hdigits as [_ Hdigits]. by apply IH.
Qed.

(** A bare decimal id is typed "other" and named by itself. *)
Lemma extract_decimal (n : N) :
  extractResourceType (itoa n) = "other" ∧ extractResourceName (itoa n) = itoa n.
Proof.
  pose proof (string_of_uint_digits (N.to_uint n)) as Hdigits.
  fold (itoa n) in Hdigits. split.
  - unfold extractResourceType.
    rewrite !(digits_Contains (itoa n)), (digits_HasPrefix (itoa n))
      by (done || by apply not_isDigit_letter).
    done.
  - unfold extractResourceName, Split.
    rewrite splitFrom_no_slash; [done|].
    by apply digits_Contains, not_isDigit_letter.
Qed.

Lemma Contains_slash_inside (path name : string) :
  Contains (path +:+ "/" +:+ name) "/" = true.
Proof.
  induction path as [|c path IH].
  - rewrite append_nil_l. change ("/" +:+ name) with (String "/" name).
    by rewrite Contains_cons, (HasPrefix_byte_eq "/").
  - by rewrite append_cons, Contains_cons, IH, orb_true_r.
Qed.

Lemma GetResources_vms (w : World) known resource :
  GetResources w = (known, None) → resource ∈ (getVMs w).1 → resource ∈ known.
Proof.
  unfold GetResources.
  destruct (getGKEClusters w) as [clusters [err|]]; [done|].
  destruct (getVMs w) as [vms [err|]]; [done|].
  destruct (getCloudRunServices w) as [services [err|]]; [done|].
  intros [= <-] Hin. simpl in Hin.
  apply elem_of_app. right. apply elem_of_app. by left.
Qed.

(** C2 (as the code has it). Take a successful run whose inventory succeeds
    and lists an instance, and a policy of the search on an asset name of the
    compute service that ends in "/" and the instance's name.
    [extractResourceType] and [extractResourceName] give the asset name the
    pair (vm, name), the type and name of the inventory record of the
    instance; they give any bare decimal id the pair (other, the id itself).
    Resources are keyed by the raw identifier, so the result has two
    resources for the VM: an inventory record under the decimal instance id
    (the record of the instance, when no other record has that id) and a
    second resource under the asset name (the one the policy loop creates,
    when the asset name is not an id of the inventory). *)
Theorem vm_asset_tracked_twice (o : RangeOrder) (w : World) m known
    zone instance path policy :
  let id := itoa (InstanceId instance) in
  let name := InstanceName instance in
  let asset := path +:+ "/" +:+ name in
  let vm := vmResource w zone instance in
  range_ok o →
  GetAccessMatrix o w = (Some m, None) →
  GetResources w = (known, None) →
  zone ∈ zones →
  instance ∈ (ListInstances w zone).1 →
  policy ∈ (SearchAllIamPolicies w).1 →
  PolicyResource policy = asset →
  Contains name "/" = false →
  Contains asset "cloudresourcemanager.googleapis.com/projects" = false →
  Contains asset "cloudresourcemanager.googleapis.com/organizations" = false →
  Contains asset "compute.googleapis.com" = true →
  (extractResourceType asset, extractResourceName asset) = (RType vm, Name vm) ∧
  (RType vm, Name vm) = ("vm", name) ∧
  (∀ n, (extractResourceType (itoa n), extractResourceName (itoa n))
        = ("other", itoa n)) ∧
  ∃ record second,
    record ∈ Resources m ∧ second ∈ Resources m ∧ record ≠ second ∧
    record ∈ known ∧ ID record = id ∧
    ID second = asset ∧
    ((∀ other, other ∈ known → ID other = id → other = vm) → record = vm) ∧
    (asset ∉ ID <$> known →
     second = {| ID := asset; Name := name; RType := "vm"; Location := "global";
                 IAM := ∅ |}).
Proof.
  intros id name asset vm Hok Hrun Hknown Hzone Hinst Hpolicy Hasset
    Hname Hp Ho Hc.
  apply GetAccessMatrix_reduced in Hrun as ->.
  assert (extractResourceType asset = "vm") as Htype
    by by apply extractResourceType_compute.
  assert (extractResourceName asset = name) as Hlast
    by by apply extractResourceName_last_segment.
  split; [by rewrite Htype, Hlast|]. split; [done|].
  split; [intros n; by destruct (extract_decimal n) as [-> ->]|].
  assert (vm ∈ known) as Hvm.
  { apply (GetResources_vms w); [done|].
    rewrite getVMs_zones. apply list_elem_of_In, in_concat.
    exists (zoneVMs w zone). split; apply list_elem_of_In.
    - by apply list_elem_of_fmap_2.
    - by apply zoneVMs_elem_of. }
  destruct (knownResourcesMap_covers w known vm Hknown Hvm)
    as (record & Hrecord & Hrecord_known & Hrecord_id).
  destruct (policies_resources_tracked _ (initReducer w (GetUsers o w).1) _ Hpolicy)
    as [second Hsecond].
  rewrite Hasset in Hsecond. fold (reduced o w) in Hsecond.
  pose proof (reduced_keyedById o w _ _ Hsecond) as Hsecond_id.
  exists record, second.
  split; [|split; [|split; [|split; [|split; [|split; [|split]]]]]];
    try done.
  - apply Resources_elem_of; [done|]. rewrite Hrecord_id.
    by apply policies_resources_keep.
  - apply Resources_elem_of; [done|]. by rewrite Hsecond_id.
  - intros ->. rewrite Hsecond_id in Hrecord_id.
    pose proof (Contains_slash_inside path name) as Hslash.
    fold asset in Hslash. rewrite Hrecord_id in Hslash. simpl in Hslash.
    rewrite (digits_Contains (itoa (InstanceId instance))) in Hslash; [done| |].
    + apply string_of_uint_digits.
    + by apply not_isDigit_letter.
  - intros Hunique. by apply Hunique.
  - intros Hfresh.
    apply policies_resources_lookup in Hsecond
      as [Hold|(_ & _ & ->)].
    + apply knownResourcesMap_lookup in Hold as [Hin Hid].
      rewrite Hknown in Hin. exfalso. apply Hfresh. rewrite <- Hid.
      by apply list_elem_of_fmap_2.
    + unfold createdResource. by rewrite Htype, Hlast.
Qed.

Lemma vm_asset_tracked_twice_witness :
  (extractResourceType vm1Asset, extractResourceName vm1Asset) = ("vm", "vm-1") ∧
  ("vm", "vm-1") = ("vm", "vm-1") ∧
  (∀ n, (extractResourceType (itoa n), extractResourceName (itoa n))
        = ("other", itoa n)) ∧
  ∃ record second,
    record ∈ Resources vmWorldMatrix ∧ second ∈ Resources vmWorldMatrix ∧
    record ≠ second ∧
    record ∈ [vmResource vmWorld "us-central1-a" vm1Instance] ∧
    ID record = "4242" ∧
    ID second = vm1Asset ∧
    ((∀ other, other ∈ [vmResource vmWorld "us-central1-a" vm1Instance] →
               ID other = "4242" →
               other = vmResource vmWorld "us-central1-a" vm1Instance) →
     record = vmResource vmWorld "us-central1-a" vm1Instance) ∧
    (vm1Asset ∉ ID <$> [vmResource vmWorld "us-central1-a" vm1Instance] →
     second = {| ID := vm1Asset; Name := "vm-1"; RType := "vm";
                 Location := "global"; IAM := ∅ |}).
Proof.
  apply (vm_asset_tracked_twice keyOrder vmWorld vmWorldMatrix
           [vmResource vmWorld "us-central1-a" vm1Instance]
           "us-central1-a" vm1Instance
           "//compute.googleapis.com/projects/demo/zones/us-central1-a/instances"
           {| PolicyResource := vm1Asset;
              PolicyBindings := [ {| Role := "roles/compute.viewer";
                                     Members := ["user:alice@example.com"] |} ] |}
           keyOrder_ok);
    try (vm_compute; reflexivity).
  - vm_compute. left.
  - vm_compute. left.
  - vm_compute. left.
Defined.

(** ** The type of an identifier and its service segment *)

(** An occurrence of a string with a "." needs a ".". *)
Lemma HasPrefix_dot (sub s : string) :
  HasPrefix s sub = true → Contains sub "." = true → Contains s "." = true.
Proof.
  revert s. induction sub as [|a sub IH]; intros s Hprefix Hdot; [done|].
  destruct s as [|b s]; [done|].
  unfold HasPrefix in Hprefix. rewrite prefix_cons in Hprefix.
  destruct (ascii_dec a b) as [<-|]; [|done].
  rewrite Contains_cons in Hdot. rewrite Contains_cons.
  apply orb_true_iff in Hdot as [Hhead|Hdot].
  - destruct (decide (a = "."%char)) as [->|Hne].
    + by rewrite (HasPrefix_byte_eq ".").
    + by rewrite (HasPrefix_byte_ne "." a sub Hne) in Hhead.
  - by rewrite (IH s Hprefix Hdot), orb_true_r.
Qed.

Lemma dotfree_Contains (s sub : string) :
  Contains s "." = false → Contains sub "." = true → Contains s sub = false.
Proof.
  intros Hfree Hdot. destruct (Contains s sub) eqn:Hsub; [|done].
  rewrite <- Hfree. clear Hfree. symmetry.
  induction s as [|c s IH].
  - simpl in Hsub. rewrite orb_false_r in Hsub. by apply (HasPrefix_dot sub).
  - rewrite Contains_cons in Hsub. apply orb_true_iff in Hsub as [Hhead|Hsub].
    + by apply (HasPrefix_dot sub).
    + by rewrite Contains_cons, IH, orb_true_r.
Qed.

Lemma dotfree_app (s1 s2 : string) :
  Contains s1 "." = false → Contains s2 "." = false →
  Contains (s1 +:+ "/" +:+ s2) "." = false.
Proof.
  intros H1 H2. apply (Contains_app_byte "."); [done|].
  change ("/" +:+ s2) with (String "/" s2).
  by rewrite Contains_cons, H2, (HasPrefix_byte_ne "." "/").
Qed.

(** A string without "/" starts a path exactly when it starts the first
    segment of the path. *)
Lemma HasPrefix_segment (seg rest sub : string) :
  Contains sub "/" = false →
  HasPrefix (seg +:+ String "/" rest) sub = HasPrefix seg sub.
Proof.
  revert sub. induction seg as [|b seg IH]; intros sub Hsub.
  - rewrite append_nil_l. destruct sub as [|a sub]; [done|].
    apply Contains_cons_false in Hsub as [Hhead _].
    apply HasPrefix_byte_false in Hhead.
    unfold HasPrefix. rewrite prefix_cons.
    destruct (ascii_dec a "/"); [congruence | done].
  - rewrite append_cons. destruct sub as [|a sub]; [done|].
    apply Contains_cons_false in Hsub as [_ Hsub].
    unfold HasPrefix. rewrite !prefix_cons.
    destruct (ascii_dec a b); [|done]. by apply IH.
Qed.

(** Where "/" cuts a string whose two sides have no "/". *)
Lemma slash_cut_unique (q t p1 p2 : string) :
  Contains q "/" = false → Contains t "/" = false →
  q +:+ String "/" t = p1 +:+ String "/" p2 →
  p2 = t.
Proof.
  intros Hq Ht. revert p1. induction q as [|c q IH]; intros p1 Heq.
  - rewrite append_nil_l in Heq. destruct p1 as [|d p1].
    + rewrite append_nil_l in Heq. by injection Heq as <-.
    + rewrite append_cons in Heq. injection Heq as <- ->.
      pose proof (Contains_slash_inside p1 p2) as Hinside.
      change (p1 +:+ "/" +:+ p2) with (p1 +:+ String "/" p2) in Hinside.
      congruence.
  - apply Contains_cons_false in Hq as [Hhead Hq].
    apply HasPrefix_byte_false in Hhead.
    rewrite append_cons in Heq. destruct p1 as [|d p1].
    + rewrite append_nil_l in Heq. by injection Heq as ->.
    + rewrite append_cons in Heq. injection Heq as _ Heq. by apply (IH Hq p1).
Qed.

(** What follows a "/" is looked at only through the part of [sub] that
    follows a "/" of [sub]. *)
Lemma HasPrefix_tails (seg1 seg2 path sub : string) :
  (∀ p1 p2, sub = p1 +:+ String "/" p2 → HasPrefix seg1 p2 = HasPrefix seg2 p2) →
  HasPrefix (path +:+ String "/" seg1) sub = HasPrefix (path +:+ String "/" seg2) sub.
Proof.
  revert sub. induction path as [|b path IH]; intros sub after_slash.
  - rewrite !append_nil_l. destruct sub as [|a sub]; [done|].
    unfold HasPrefix. rewrite !prefix_cons.
    destruct (ascii_dec a "/") as [->|]; [|done].
    by apply (after_slash "").
  - rewrite !append_cons. destruct sub as [|a sub]; [done|].
    unfold HasPrefix. rewrite !prefix_cons.
    destruct (ascii_dec a b) as [->|]; [|done].
    apply IH. intros p1 p2 ->. by apply (after_slash (String b p1)).
Qed.

Lemma Contains_tails (seg1 seg2 path sub : string) :
  (∀ p1 p2, sub = p1 +:+ String "/" p2 → HasPrefix seg1 p2 = HasPrefix seg2 p2) →
  Contains seg1 sub = Contains seg2 sub →
  Contains (path +:+ String "/" seg1) sub = Contains (path +:+ String "/" seg2) sub.
Proof.
  intros after_slash Hsegs. induction path as [|b path IH].
  - pose proof (HasPrefix_tails seg1 seg2 "" sub after_slash) as Hhead.
    rewrite !append_nil_l in *. by rewrite !Contains_cons, Hsegs, Hhead.
  - pose proof (HasPrefix_tails seg1 seg2 (String b path) sub after_slash) as Hhead.
    rewrite !append_cons in *. by rewrite !Contains_cons, IH, Hhead.
Qed.

(** A test of the type table sees the same in "path/seg/rest" as in
    "path/seg", when [seg] and [rest] have no ".": the tested string has a
    "." and at most one "/". *)
Lemma Contains_pattern (pattern path seg rest : string) :
  Contains pattern "." = true →
  (∀ p1 p2, pattern = p1 +:+ String "/" p2 → Contains p2 "/" = false) →
  Contains seg "." = false →
  Contains rest "." = false →
  Contains (path +:+ "/" +:+ seg +:+ "/" +:+ rest) pattern
  = Contains (path +:+ "/" +:+ seg) pattern.
Proof.
  intros Hdot Hslash Hseg Hrest.
  change (path +:+ "/" +:+ seg +:+ "/" +:+ rest)
    with (path +:+ String "/" (seg +:+ String "/" rest)).
  change (path +:+ "/" +:+ seg) with (path +:+ String "/" seg).
  apply Contains_tails.
  - intros p1 p2 Hcut. apply HasPrefix_segment. by apply (Hslash p1).
  - rewrite (dotfree_Contains seg) by done.
    apply dotfree_Contains; [|done]. by apply dotfree_app.
Qed.

Lemma no_slash_no_cut (pattern p1 p2 : string) :
  Contains pattern "/" = false → pattern = p1 +:+ String "/" p2 → False.
Proof.
  intros Hfree ->. pose proof (Contains_slash_inside p1 p2) as Hinside.
  change (p1 +:+ "/" +:+ p2) with (p1 +:+ String "/" p2) in Hinside.
  congruence.
Qed.

Lemma typePatterns_cut :
  Forall (λ pattern,
            Contains pattern "." = true ∧
            ∀ p1 p2, pattern = p1 +:+ String "/" p2 → Contains p2 "/" = false)
         typePatterns.
Proof.
  unfold typePatterns. repeat apply Forall_cons_2; try apply Forall_nil_2;
    (split; [reflexivity|]); intros p1 p2 Hcut;
    try (exfalso; refine (no_slash_no_cut _ p1 p2 _ Hcut); reflexivity).
  - by rewrite (slash_cut_unique "cloudresourcemanager.googleapis.com" "projects"
                  p1 p2 eq_refl eq_refl Hcut).
  - by rewrite (slash_cut_unique "cloudresourcemanager.googleapis.com"
                  "organizations" p1 p2 eq_refl eq_refl Hcut).
Qed.

(** The type of "//host/seg/rest" is the type of "//host/seg" when no "."
    follows the host. *)
Lemma extractResourceType_service (host seg rest : string) :
  Contains host "/" = false →
  Contains seg "." = false →
  Contains rest "." = false →
  extractResourceType ("//" +:+ host +:+ "/" +:+ seg +:+ "/" +:+ rest)
  = extractResourceType ("//" +:+ host +:+ "/" +:+ seg).
Proof.
  intros Hhost Hseg Hrest.
  pose proof typePatterns_cut as Hcut. unfold typePatterns in Hcut.
  assert (∀ pattern,
            pattern ∈ typePatterns →
            Contains ("//" +:+ host +:+ "/" +:+ seg +:+ "/" +:+ rest) pattern
            = Contains ("//" +:+ host +:+ "/" +:+ seg) pattern) as Hsame.
  { intros pattern Hin.
    rewrite Forall_forall in Hcut. destruct (Hcut pattern Hin) as [Hdot Hslash].
    rewrite <- !(append_assoc "//" host).
    by apply Contains_pattern. }
  unfold extractResourceType.
  rewrite !Hsame by (unfold typePatterns; repeat first [by left | right]).
  repeat (destruct (Contains ("//" +:+ host +:+ "/" +:+ seg) _); [done|]).
  change (drop 2 ("//" +:+ host +:+ "/" +:+ seg +:+ "/" +:+ rest))
    with (host +:+ String "/" (seg +:+ "/" +:+ rest)).
  change (drop 2 ("//" +:+ host +:+ "/" +:+ seg))
    with (host +:+ String "/" seg).
  assert (∀ s : string, HasPrefix ("//" +:+ s) "//" = true) as Hstart.
  { intros s. change ("//" +:+ s) with (String "/" (String "/" s)).
    unfold HasPrefix. rewrite !prefix_cons, prefix_empty.
    by destruct (ascii_dec "/" "/"). }
  rewrite !Hstart. unfold Split.
  by rewrite !(splitFrom_byte_first "/") by done.
Qed.

(** C9 (as the code has it). A policy whose asset name is not tracked yet
    adds a resource under that name, and its location is the constant
    "global".  When the asset name is "//host/seg/rest" with no "." after the
    host, the type of the resource is inferred from the service segment: it
    is the type that the table gives "//host/seg", whatever [rest] is. *)
Theorem processPolicy_new_resource st policy :
  resourcesMap st !! PolicyResource policy = None →
  ∃ resource,
    resourcesMap (processPolicy st policy) !! PolicyResource policy = Some resource ∧
    ID resource = PolicyResource policy ∧
    Location resource = "global" ∧
    ∀ host seg rest,
      PolicyResource policy = "//" +:+ host +:+ "/" +:+ seg +:+ "/" +:+ rest →
      Contains host "/" = false →
      Contains seg "." = false →
      Contains rest "." = false →
      RType resource = extractResourceType ("//" +:+ host +:+ "/" +:+ seg).
Proof.
  intros Hnew. eexists. split.
  - rewrite processPolicy_untracked by done. apply lookup_insert_eq.
  - split; [done|]. split; [done|].
    intros host seg rest Hid Hhost Hseg Hrest. cbn [RType].
    rewrite Hid. by apply extractResourceType_service.
Qed.

Lemma processPolicy_new_resource_witness :
  ∃ resource,
    resourcesMap (processPolicy emptyReducer
                    {| PolicyResource := vm1Asset; PolicyBindings := [] |})
      !! vm1Asset = Some resource ∧
    ID resource = vm1Asset ∧
    Location resource = "global" ∧
    RType resource = "vm".
Proof.
  destruct (processPolicy_new_resource emptyReducer
              {| PolicyResource := vm1Asset; PolicyBindings := [] |} eq_refl)
    as (resource & Hlook & Hid & Hloc & Hkind).
  exists resource. split; [done|]. split; [done|]. split; [done|].
  exact (Hkind "compute.googleapis.com" "projects"
               "demo/zones/us-central1-a/instances/vm-1"
               eq_refl eq_refl eq_refl eq_refl).
Defined.

(** C9 as the specification words it does not hold, in either half.  The
    location of a created resource is not "unknown".  And its type is not
    inferred from the service segment of the identifier: two topics of one
    service, under the same first path segment, are given different types,
    because the name of one of them contains the host name of another
    service. *)
Lemma new_resource_not_as_specified :
  ¬ (∀ st policy,
       resourcesMap st !! PolicyResource policy = None →
       ∃ resource,
         resourcesMap (processPolicy st policy) !! PolicyResource policy
         = Some resource ∧
         Location resource = "unknown") ∧
  ¬ (∃ kindOf : string → string → string,
       ∀ st policy host seg rest,
         PolicyResource policy = "//" +:+ host +:+ "/" +:+ seg +:+ "/" +:+ rest →
         Contains host "/" = false →
         Contains seg "/" = false →
         resourcesMap st !! PolicyResource policy = None →
         ∃ resource,
           resourcesMap (processPolicy st policy) !! PolicyResource policy
           = Some resource ∧
           RType resource = kindOf host seg).
Proof.
  split.
  - intros Hclaim.
    destruct (Hclaim emptyReducer bucketPolicy eq_refl) as (resource & Hlook & Hloc).
    rewrite processPolicy_untracked in Hlook by reflexivity.
    simpl in Hlook. rewrite lookup_insert_eq in Hlook.
    injection Hlook as <-. discriminate Hloc.
  - intros [kindOf Hclaim].
    destruct (Hclaim emptyReducer
                {| PolicyResource := auditTopic; PolicyBindings := [] |}
                "pubsub.googleapis.com" "projects" "demo/topics/audit"
                eq_refl eq_refl eq_refl eq_refl)
      as (topic & Hlook & Htopic).
    destruct (Hclaim emptyReducer
                {| PolicyResource := runAuditTopic; PolicyBindings := [] |}
                "pubsub.googleapis.com" "projects"
                "demo/topics/run.googleapis.com-audit"
                eq_refl eq_refl eq_refl eq_refl)
      as (runTopic & Hlook' & HrunTopic).
    rewrite processPolicy_untracked in Hlook, Hlook' by reflexivity.
    cbn [PolicyResource] in Hlook, Hlook'.
    rewrite lookup_insert_eq in Hlook, Hlook'.
    injection Hlook as <-. injection Hlook' as <-.
    rewrite <- Htopic in HrunTopic. vm_compute in HrunTopic.
    discriminate HrunTopic.
Qed.
